(** * Sound of Life: the automaton grid and the sound manager of [main.py]

    A shallow embedding of the two classes of [main.py] that carry the
    program's logic, [Grid] (the cellular automaton) and [SoundManager]
    (one pyo oscillator per live cell), followed by the properties of the
    specification that can be stated about them.

    Conventions of the embedding:
    - a numpy 2-D boolean array is a list of rows ([ndarray]); its shape is
      kept by the predicate [has_shape];
    - a Python method that mutates [self] is a function in the monad [M],
      which threads the object's state and may raise an exception; the state
      reached at a raise is kept, as in Python;
    - loop indices produced by [range] are natural numbers; Python integers
      that are compared or subtracted are in [Z];
    - the Qt calls ([update], [setFixedSize]) and the fields used only for
      painting are left out. *)

From Stdlib Require Import String ZArith QArith Lqa Floats List Lia Bool Arith.
Import ListNotations.

Close Scope Q_scope.
Local Open Scope nat_scope.

(** ** Exceptions and the state-and-exception monad *)

Inductive exn : Type :=
| IndexError
| ZeroDivisionError
| OverflowError.

Inductive res (A : Type) : Type :=
| Ok (a : A)
| Raise (e : exn).

Arguments Ok {A} a.
Arguments Raise {A} e.

Definition M (S A : Type) : Type := S -> res A * S.

Definition ret {S A : Type} (a : A) : M S A := fun s => (Ok a, s).

Definition bind {S A B : Type} (m : M S A) (k : A -> M S B) : M S B :=
  fun s =>
    match m s with
    | (Ok a, s') => k a s'
    | (Raise e, s') => (Raise e, s')
    end.

Definition lift {S A : Type} (r : res A) : M S A := fun s => (r, s).

Definition gets {S A : Type} (f : S -> A) : M S A := fun s => (Ok (f s), s).

Definition modify {S : Type} (f : S -> S) : M S unit := fun s => (Ok tt, f s).

Declare Scope py_scope.
Delimit Scope py_scope with py.
Notation "x <- m ;; k" := (bind m (fun x => k))
  (at level 61, m at next level, right associativity) : py_scope.
Notation "m ;; k" := (bind m (fun _ => k))
  (at level 61, right associativity) : py_scope.
Local Open Scope py_scope.

(** [for x in xs: body x]; an exception leaves the loop. *)
Fixpoint for_ {S X : Type} (xs : list X) (body : X -> M S unit) : M S unit :=
  match xs with
  | [] => ret tt
  | x :: xs' => body x ;; for_ xs' body
  end.

(** [range(lo, hi)], empty when [hi <= lo]. *)
Definition range (lo hi : nat) : list nat := seq lo (hi - lo).

(** [n in l] for a list of Python integers. *)
Definition py_in (n : Z) (l : list Z) : bool := existsb (Z.eqb n) l.

(** ** numpy arrays of booleans *)

Definition ndarray : Type := list (list bool).

Definition has_shape (r c : nat) (a : ndarray) : Prop :=
  length a = r /\ Forall (fun row => length row = c) a.

(** [np.zeros((r, c), dtype=bool)] *)
Definition zeros (r c : nat) : ndarray := repeat (repeat false c) r.

(** [a[i, j]] for non-negative [i], [j]. *)
Definition getitem (a : ndarray) (i j : nat) : res bool :=
  match nth_error a i with
  | Some row =>
      match nth_error row j with
      | Some b => Ok b
      | None => Raise IndexError
      end
  | None => Raise IndexError
  end.

Fixpoint set_nth {A : Type} (l : list A) (i : nat) (v : A) : list A :=
  match l, i with
  | [], _ => []
  | _ :: l', O => v :: l'
  | x :: l', S i' => x :: set_nth l' i' v
  end.

(** [a[i, j] = v] for non-negative [i], [j]. *)
Definition setitem (i j : nat) (v : bool) : M ndarray unit :=
  fun a =>
    match nth_error a i with
    | Some row =>
        if j <? length row
        then (Ok tt, set_nth a i (set_nth row j v))
        else (Raise IndexError, a)
    | None => (Raise IndexError, a)
    end.

(** The value read by [getitem] inside the array, [false] outside. *)
Definition cell (a : ndarray) (i j : nat) : bool := nth j (nth i a []) false.

(** [a[:r, :c]]: slices clip, they never raise. *)
Definition slice2 (a : ndarray) (r c : nat) : ndarray :=
  map (firstn c) (firstn r a).

Fixpoint overlay_with {A : Type} (f : A -> A -> A) (src dst : list A) : list A :=
  match src, dst with
  | s :: src', d :: dst' => f s d :: overlay_with f src' dst'
  | _, _ => dst
  end.

(** [dst[:r, :c] = src] where [src] has the shape of the slice on the left:
    the block is copied element by element.  In [resize_grid] both slices
    have shape [(min_rows, min_cols)] as soon as [self.grid] has shape
    [(self.rows, self.cols)]. *)
Definition assign_block (src dst : ndarray) : ndarray :=
  overlay_with (overlay_with (fun s _ => s)) src dst.

(** ** class Grid *)

Record Rules : Type := mkRules {
  birth : list Z;
  survival : list Z
}.

Record Grid : Type := mkGrid {
  rows : nat;
  cols : nat;
  grid : ndarray;
  rules : Rules
}.

(** [Grid.__init__]: an all-dead grid with Conway's rules. *)
Definition Grid_init (rows cols : nat) : Grid :=
  mkGrid rows cols (zeros rows cols) (mkRules [3%Z] [2%Z; 3%Z]).

Definition set_rules (birth survival : list Z) : M Grid unit :=
  modify (fun self => mkGrid (rows self) (cols self) (grid self) (mkRules birth survival)).

Definition resize_grid (new_rows new_cols : nat) : M Grid unit :=
  modify (fun self =>
    let new_grid := zeros new_rows new_cols in
    let min_rows := Nat.min (rows self) new_rows in
    let min_cols := Nat.min (cols self) new_cols in
    let new_grid := assign_block (slice2 (grid self) min_rows min_cols) new_grid in
    mkGrid new_rows new_cols new_grid (rules self)).

(** The two nested loops of [count_alive_neighbors]; the state is the local
    [count].  [max(0, row - 1)] is computed on naturals, where [0 - 1] is
    already [0]. *)
Definition count_loop (self : Grid) (row col : nat) : M Z unit :=
  for_ (range (Nat.max 0 (row - 1)) (Nat.min (rows self) (row + 2))) (fun i =>
    for_ (range (Nat.max 0 (col - 1)) (Nat.min (cols self) (col + 2))) (fun j =>
      if negb (i =? row) || negb (j =? col) then
        alive <- lift (getitem (grid self) i j) ;;
        if alive then modify (fun count => (count + 1)%Z) else ret tt
      else ret tt)).

Definition count_alive_neighbors (self : Grid) (row col : nat) : res Z :=
  match count_loop self row col 0%Z with
  | (Ok _, count) => Ok count
  | (Raise e, _) => Raise e
  end.

(** The two nested loops of [update_grid]; the state is the local
    [new_grid], [self.grid] is only read. *)
Definition update_loop (self : Grid) : M ndarray unit :=
  for_ (range 0 (rows self)) (fun row =>
    for_ (range 0 (cols self)) (fun col =>
      neighbors <- lift (count_alive_neighbors self row col) ;;
      alive <- lift (getitem (grid self) row col) ;;
      if alive then
        if negb (py_in neighbors (survival (rules self)))
        then setitem row col false
        else ret tt
      else
        if py_in neighbors (birth (rules self))
        then setitem row col true
        else ret tt)).

Definition update_grid : M Grid unit :=
  fun self =>
    match update_loop self (grid self) (* np.copy(self.grid) *) with
    | (Ok _, new_grid) =>
        (Ok tt, mkGrid (rows self) (cols self) new_grid (rules self))
    | (Raise e, _) => (Raise e, self)
    end.

Definition clear_grid : M Grid unit :=
  modify (fun self =>
    mkGrid (rows self) (cols self) (zeros (rows self) (cols self)) (rules self)).

(** The class invariant: the array has the shape the object records. *)
Definition Grid_ok (self : Grid) : Prop :=
  has_shape (rows self) (cols self) (grid self).

(** ** The rule of the specification

    The next generation as the specification words it, to be compared with
    what [update_grid] computes. *)

(** The eight offsets of the Moore neighbourhood. *)
Definition moore_offsets : list (Z * Z) :=
  [(-1, -1); (-1, 0); (-1, 1); (0, -1); (0, 1); (1, -1); (1, 0); (1, 1)]%Z.

(** The cell at the integer position [(i, j)] of an [r] by [c] grid; a
    position outside the boundary holds no live cell, and nothing wraps. *)
Definition alive_at (a : ndarray) (r c : nat) (i j : Z) : bool :=
  (0 <=? i)%Z && (i <? Z.of_nat r)%Z && (0 <=? j)%Z && (j <? Z.of_nat c)%Z
  && cell a (Z.to_nat i) (Z.to_nat j).

Definition moore_count (g : Grid) (row col : nat) : Z :=
  fold_right
    (fun d acc =>
       ((if alive_at (grid g) (rows g) (cols g)
              (Z.of_nat row + fst d) (Z.of_nat col + snd d)
         then 1 else 0) + acc)%Z)
    0%Z moore_offsets.

(** Dead if alive with a count not in [survival], alive if dead with a
    count in [birth], unchanged otherwise. *)
Definition next_state (r : Rules) (alive : bool) (n : Z) : bool :=
  if alive && negb (py_in n (survival r)) then false
  else if negb alive && py_in n (birth r) then true
  else alive.

(** ** Clamped sums

    The quantities through which the loops of [count_alive_neighbors] are
    related to [moore_count]. *)

Definition sumZ (f : nat -> Z) (l : list nat) : Z :=
  fold_right (fun x acc => (f x + acc)%Z) 0%Z l.

(** The term of a clamped sum at offset [d] from [n], in a dimension of
    size [N]. *)
Definition pick (N n : nat) (d : Z) (f : nat -> Z) : Z :=
  if ((0 <=? Z.of_nat n + d) && (Z.of_nat n + d <? Z.of_nat N))%Z
  then f (Z.to_nat (Z.of_nat n + d)) else 0%Z.

(** What one pass of the inner loop of [count_alive_neighbors] adds. *)
Definition neighbor_term (a : ndarray) (row col i j : nat) : Z :=
  if (negb (i =? row) || negb (j =? col)) && cell a i j then 1%Z else 0%Z.

(** ** The blinker *)

(** The array of shape [(r, c)] whose cell [(i, j)] is [f i j]. *)
Definition tabulate (r c : nat) (f : nat -> nat -> bool) : ndarray :=
  map (fun i => map (f i) (seq 0 c)) (seq 0 r).

Definition conway : Rules := mkRules [3%Z] [2%Z; 3%Z].

(** [i] is [p] or next to it. *)
Definition near (p i : nat) : bool := (p - 1 <=? i) && (i <=? p + 1).

(** The three cells [(r, c-1)], [(r, c)], [(r, c+1)]. *)
Definition blinker_h (rows cols r c : nat) : ndarray :=
  tabulate rows cols (fun i j => (i =? r) && near c j).

(** The three cells [(r-1, c)], [(r, c)], [(r+1, c)]. *)
Definition blinker_v (rows cols r c : nat) : ndarray :=
  tabulate rows cols (fun i j => near r i && (j =? c)).

(** ** Neighbour counts of a pattern that is a product

    A pattern whose cell [(i, j)] is alive when [A i] and [B j]: its
    neighbour counts factor into a count along the rows and a count along
    the columns. *)

(** Whether the position at offset [d] from [n] lies in a dimension of size
    [N] and satisfies [A]. *)
Definition inb_at (N : nat) (A : nat -> bool) (n : nat) (d : Z) : bool :=
  ((0 <=? Z.of_nat n + d) && (Z.of_nat n + d <? Z.of_nat N))%Z
  && A (Z.to_nat (Z.of_nat n + d)).

Definition b2z (b : bool) : Z := if b then 1%Z else 0%Z.

(** How many of [n - 1], [n], [n + 1] lie in the dimension and satisfy [A]. *)
Definition cnt (N : nat) (A : nat -> bool) (n : nat) : Z :=
  (b2z (inb_at N A n (-1)) + b2z (inb_at N A n 0) + b2z (inb_at N A n 1))%Z.

(** ** Python floats

    The arithmetic of [calculate_frequency] mixes integers and floats.  The
    operations it uses are gathered in a class, so that the one definition
    can be read in IEEE binary64, as Python runs it, and in exact rational
    arithmetic, in which the formula of the specification is stated.

    Python's integers are unbounded and its floats are not: the conversion
    of an int operand and the division of two ints raise [OverflowError]
    when the result is beyond the largest float, and the division raises
    [ZeroDivisionError] when the divisor is zero.  Arithmetic on two floats
    never raises; it rounds, to infinity if need be. *)

Class PyFloat (F : Type) : Type := {
  of_int : Z -> res F;        (* the conversion of the int operand of [+] or
                                 [*] whose other operand is a float *)
  truediv : Z -> Z -> res F;  (* [n / m] on two ints *)
  fadd : F -> F -> F;
  fmul : F -> F -> F;
  fdiv : F -> F -> F;         (* [x / y] on two floats, [y] not zero *)
  zero : F;                   (* the [0] that [play_sound] gives as [dur] *)
  half : F;                   (* the literal [0.5] *)
  hundred : F                 (* the literal [100.0] *)
}.

(** Exact arithmetic: no rounding and no overflow. *)
#[export] Instance PyFloat_Q : PyFloat Q := {
  of_int := fun z => Ok (inject_Z z);
  truediv := fun n m =>
    if (m =? 0)%Z then Raise ZeroDivisionError
    else Ok (Qdiv (inject_Z n) (inject_Z m));
  fadd := Qplus;
  fmul := Qmult;
  fdiv := Qdiv;
  zero := Qmake 0 1;
  half := Qmake 1 2;
  hundred := Qmake 100 1
}.

(** A value rounded to binary64 as the result of an operation on ints:
    beyond the largest float the operation raises. *)
Definition finite_float (x : spec_float) : res float :=
  match x with
  | S754_infinity _ => Raise OverflowError
  | _ => Ok (SF2Prim x)
  end.

(** [float(z)]: the integer rounded to the nearest binary64 number (ties to
    even), exact below [2^53]. *)
Definition Z2float (z : Z) : res float :=
  finite_float (binary_normalize prec emax z 0 false).

(** An int as an operand of the division, not rounded. *)
Definition int_operand (z : Z) : spec_float :=
  match z with
  | Z0 => S754_zero false
  | Zpos p => S754_finite false p 0
  | Zneg p => S754_finite true p 0
  end.

(** [n / m] on two ints: the exact quotient rounded once to the nearest
    binary64 number (ties to even), whatever the size of [n] and [m]. *)
Definition int_truediv (n m : Z) : res float :=
  if (m =? 0)%Z then Raise ZeroDivisionError
  else finite_float (SFdiv prec emax (int_operand n) (int_operand m)).

(** Python's floats. *)
#[export] Instance PyFloat_binary64 : PyFloat float := {
  of_int := Z2float;
  truediv := int_truediv;
  fadd := PrimFloat.add;
  fmul := PrimFloat.mul;
  fdiv := PrimFloat.div;
  zero := 0%float;
  half := 0.5%float;
  hundred := 100%float
}.

(** ** Insertion-ordered dictionaries keyed by cell coordinates *)

Definition key : Type := nat * nat.

Definition key_eqb (a b : key) : bool :=
  (fst a =? fst b) && (snd a =? snd b).

Section Dict.
Context {V : Type}.

Definition dict : Type := list (key * V).

Fixpoint dict_get (d : dict) (k : key) : option V :=
  match d with
  | [] => None
  | (k', v) :: d' => if key_eqb k k' then Some v else dict_get d' k
  end.

(** [k in d] *)
Definition dict_mem (d : dict) (k : key) : bool :=
  match dict_get d k with Some _ => true | None => false end.

(** [d[k] = v]: a present key keeps its place, a new one goes last. *)
Fixpoint dict_set (d : dict) (k : key) (v : V) : dict :=
  match d with
  | [] => [(k, v)]
  | (k', v') :: d' =>
      if key_eqb k k' then (k', v) :: d' else (k', v') :: dict_set d' k v
  end.

(** [del d[k]], used under the guard [k in d]. *)
Definition dict_del (d : dict) (k : key) : dict :=
  filter (fun kv => negb (key_eqb k (fst kv))) d.

(** [list(d.keys())] *)
Definition dict_keys (d : dict) : list key := map fst d.

(** A Python dict holds each key once. *)
Definition dict_ok (d : dict) : Prop := NoDup (dict_keys d).
End Dict.

Arguments dict V : clear implicits.

(** ** class SoundManager *)

Inductive waveform_class : Type := Sine | Square | Saw | Tri.

Definition get_waveform_class (waveform_type : string) : waveform_class :=
  if String.eqb waveform_type "Sine" then Sine
  else if String.eqb waveform_type "Square" then Square
  else if String.eqb waveform_type "Sawtooth" then Saw
  else if String.eqb waveform_type "Triangle" then Tri
  else Sine.

Section SoundManager.
Context {F : Type} `{PyFloat F}.

(** [Fader(fadein, fadeout, dur, mul)] *)
Record Fader : Type := mkFader {
  fadein : F;
  fadeout : F;
  dur : F;
  fader_mul : F
}.

(** What an oscillator is multiplied by: a number or an envelope. *)
Inductive mul_t : Type :=
| MulNum (x : F)
| MulEnv (env : Fader).

Record Osc : Type := mkOsc {
  osc_class : waveform_class;
  osc_freq : F;
  osc_mul : mul_t
}.

(** The calls made on the pyo server and on pyo objects.  An object is
    named by the key under which the manager holds it. *)
Inductive command : Type :=
| ServerBoot
| ServerStart
| ServerSetMidi
| ServerStop
| OscOut (k : key) (cls : waveform_class) (freq : F)
| OscSetMul (k : key) (mul : F)
| OscSetFreq (k : key) (freq : F)
| OscStop (k : key)
| FaderPlay (k : key) (env : Fader)
| FaderStop (k : key).

(** The fields of a [SoundManager].  [self.grid] is a reference to the
    [Grid] widget, which the driver mutates: the methods that read it
    take the grid as it is at the call as their argument [g].  [issued]
    is the log of the calls made on pyo, oldest first. *)
Record SoundManager : Type := mkSoundManager {
  frequency_range : Z * Z;
  amplitude : F;
  waveform : string;
  smooth_transitions : bool;
  oscillators : dict Osc;
  envelopes : dict Fader;
  issued : list command
}.

Definition with_oscillators (d : dict Osc) (self : SoundManager) : SoundManager :=
  mkSoundManager (frequency_range self) (amplitude self) (waveform self)
    (smooth_transitions self) d (envelopes self) (issued self).

Definition with_envelopes (d : dict Fader) (self : SoundManager) : SoundManager :=
  mkSoundManager (frequency_range self) (amplitude self) (waveform self)
    (smooth_transitions self) (oscillators self) d (issued self).

Definition emit (c : command) : M SoundManager unit :=
  modify (fun self =>
    mkSoundManager (frequency_range self) (amplitude self) (waveform self)
      (smooth_transitions self) (oscillators self) (envelopes self)
      (issued self ++ [c])).

(** [SoundManager.__init__]; the default amplitude is [0.5]. *)
Definition SoundManager_init : SoundManager :=
  mkSoundManager (200%Z, 1000%Z) half "Sine" true [] []
    [ServerBoot; ServerStart; ServerSetMidi].

(** [calculate_frequency].  Python evaluates the operands of an expression
    from left to right and converts an int operand when the operation is
    applied: in [f0 + (f1 - f0) * (col / cols)] the division comes first,
    then [f1 - f0] is converted for the product, then [f0] for the sum. *)
Definition calculate_frequency (g : Grid) (self : SoundManager)
    (row col : nat) : res F :=
  let f0 := fst (frequency_range self) in
  let f1 := snd (frequency_range self) in
  (* freq = f0 + (f1 - f0) * (col / self.grid.cols) *)
  match truediv (Z.of_nat col) (Z.of_nat (cols g)) with
  | Raise e => Raise e
  | Ok qc =>
  match of_int (f1 - f0) with
  | Raise e => Raise e
  | Ok d =>
  match of_int f0 with
  | Raise e => Raise e
  | Ok a =>
  let freq := fadd a (fmul d qc) in
  (* freq += (f1 - f0) * (row / self.grid.rows) * 0.5 *)
  match truediv (Z.of_nat row) (Z.of_nat (rows g)) with
  | Raise e => Raise e
  | Ok qr =>
  match of_int (f1 - f0) with
  | Raise e => Raise e
  | Ok d' => Ok (fadd freq (fmul (fmul d' qr) half))
  end end end end end.

Definition play_sound (g : Grid) (row col : nat) : M SoundManager unit :=
  let key := (row, col) in
  self <- gets id ;;
  if dict_mem (oscillators self) key then ret tt (* sound already playing *)
  else
    freq <- lift (calculate_frequency g self row col) ;;
    let waveform_class := get_waveform_class (waveform self) in
    emit (OscOut key waveform_class freq) ;;
    osc_mul <-
      (if smooth_transitions self then
         let env := mkFader half half zero (amplitude self) in
         emit (FaderPlay key env) ;;
         modify (fun s => with_envelopes (dict_set (envelopes s) key env) s) ;;
         ret (MulEnv env)
       else
         emit (OscSetMul key (amplitude self)) ;;
         ret (MulNum (amplitude self))) ;;
    modify (fun s =>
      with_oscillators
        (dict_set (oscillators s) key (mkOsc waveform_class freq osc_mul)) s).

Definition stop_sound (row col : nat) : M SoundManager unit :=
  let key := (row, col) in
  self <- gets id ;;
  if dict_mem (oscillators self) key then
    (if smooth_transitions self && dict_mem (envelopes self) key
     then emit (FaderStop key) else ret tt) ;;
    emit (OscStop key) ;;
    modify (fun s => with_oscillators (dict_del (oscillators s) key) s) ;;
    (if dict_mem (envelopes self) key
     then modify (fun s => with_envelopes (dict_del (envelopes s) key) s)
     else ret tt)
  else ret tt.

Definition update_sounds (g : Grid) (previous_grid current_grid : ndarray)
    : M SoundManager unit :=
  for_ (range 0 (rows g)) (fun row =>
    for_ (range 0 (cols g)) (fun col =>
      was_alive <- lift (getitem previous_grid row col) ;;
      is_alive <- lift (getitem current_grid row col) ;;
      if negb was_alive && is_alive then play_sound g row col
      else if was_alive && negb is_alive then stop_sound row col
      else ret tt)).

Definition update_all_frequencies (g : Grid) : M SoundManager unit :=
  self <- gets id ;;
  for_ (oscillators self) (fun item =>
    let '((row, col), osc) := item in
    s <- gets id ;;
    freq <- lift (calculate_frequency g s row col) ;;
    emit (OscSetFreq (row, col) freq) ;;
    modify (fun s =>
      with_oscillators
        (dict_set (oscillators s) (row, col)
           (mkOsc (osc_class osc) freq (osc_mul osc))) s)).

Definition set_frequency_range (g : Grid) (min_freq max_freq : Z)
    : M SoundManager unit :=
  modify (fun self =>
    mkSoundManager (min_freq, max_freq) (amplitude self) (waveform self)
      (smooth_transitions self) (oscillators self) (envelopes self)
      (issued self)) ;;
  update_all_frequencies g.

Definition set_amplitude (new_amplitude : F) : M SoundManager unit :=
  modify (fun self =>
    mkSoundManager (frequency_range self) new_amplitude (waveform self)
      (smooth_transitions self) (oscillators self) (envelopes self)
      (issued self)) ;;
  self <- gets id ;;
  for_ (oscillators self) (fun item =>
    let '(k, osc) := item in
    emit (OscSetMul k (amplitude self)) ;;
    modify (fun s =>
      with_oscillators
        (dict_set (oscillators s) k
           (mkOsc (osc_class osc) (osc_freq osc) (MulNum (amplitude self)))) s)).

Definition update_all_waveforms (g : Grid) : M SoundManager unit :=
  self <- gets id ;;
  let active_keys := dict_keys (oscillators self) in
  for_ active_keys (fun key =>
    let '(row, col) := key in
    stop_sound row col ;;
    play_sound g row col).

Definition set_waveform (g : Grid) (waveform_type : string)
    : M SoundManager unit :=
  modify (fun self =>
    mkSoundManager (frequency_range self) (amplitude self) waveform_type
      (smooth_transitions self) (oscillators self) (envelopes self)
      (issued self)) ;;
  update_all_waveforms g.

Definition set_smooth_transitions (smooth : bool) : M SoundManager unit :=
  modify (fun self =>
    mkSoundManager (frequency_range self) (amplitude self) (waveform self)
      smooth (oscillators self) (envelopes self) (issued self)).

(** [shutdown]: [self.server.stop()] and nothing else. *)
Definition shutdown : M SoundManager unit := emit ServerStop.

End SoundManager.

Arguments Fader F : clear implicits.
Arguments mul_t F : clear implicits.
Arguments Osc F : clear implicits.
Arguments command F : clear implicits.
Arguments SoundManager F : clear implicits.

(** ** The registry and the command log, as the specification reads them *)

Section SoundManagerSpec.
Context {F : Type} `{PyFloat F}.
Implicit Types (self s : SoundManager F) (g : Grid) (k : key).

(** The live coordinates of an array. *)
Definition alive (a : ndarray) (k : key) : Prop :=
  getitem a (fst k) (snd k) = Ok true.

(** The registry holds a voice exactly at the live coordinates of [a]. *)
Definition registry_matches self (a : ndarray) : Prop :=
  forall k, In k (dict_keys (oscillators self)) <-> alive a k.

(** Successive calls of [update_sounds], each on the grid of the call
    before and the next grid, as the driver makes them. *)
Fixpoint reconcile_seq g (previous_grid : ndarray) (grids : list ndarray)
    : M (SoundManager F) unit :=
  match grids with
  | [] => ret tt
  | current_grid :: rest =>
      update_sounds g previous_grid current_grid ;;
      reconcile_seq g current_grid rest
  end.

(** [calculate_frequency] returns a frequency for the cell [k]: none of its
    operations raises. *)
Definition frequency_defined g self k : Prop :=
  exists freq, calculate_frequency g self (fst k) (snd k) = Ok freq.

(** The manager [self] with another frequency range. *)
Definition with_frequency_range (r : Z * Z) self : SoundManager F :=
  mkSoundManager r (amplitude self) (waveform self) (smooth_transitions self)
    (oscillators self) (envelopes self) (issued self).

(** The frequency [calculate_frequency] returns for the cell [k]. *)
Definition voice_freq g self k : F :=
  match calculate_frequency g self (fst k) (snd k) with
  | Ok freq => freq
  | Raise _ => zero
  end.

(** The envelope [play_sound] creates. *)
Definition new_fader self : Fader F :=
  mkFader half half zero (amplitude self).

(** What [play_sound] multiplies a new oscillator by: in either mode the
    stored amplitude, through an envelope when transitions are smooth. *)
Definition new_mul self : mul_t F :=
  if smooth_transitions self then MulEnv (new_fader self)
  else MulNum (amplitude self).

(** The calls of one stop followed by one start of the voice at [k], the
    start with the oscillator class [cls]. *)
Definition restart_cmds (cls : waveform_class) g self k : list (command F) :=
  (if smooth_transitions self && dict_mem (envelopes self) k
   then [FaderStop k] else [])
  ++ [OscStop k; OscOut k cls (voice_freq g self k)]
  ++ (if smooth_transitions self then [FaderPlay k (new_fader self)]
      else [OscSetMul k (amplitude self)]).

Definition is_stop (c : command F) : bool :=
  match c with OscStop _ => true | _ => false end.

Definition is_start (c : command F) : bool :=
  match c with OscOut _ _ _ => true | _ => false end.

Definition same_params s s' : Prop :=
  frequency_range s' = frequency_range s /\ amplitude s' = amplitude s /\
  waveform s' = waveform s /\ smooth_transitions s' = smooth_transitions s.

End SoundManagerSpec.

(** ** The frequency mapping of the specification, in exact arithmetic *)

Definition frequency_formula (fmin fmax : Z) (rows cols row col : nat) : Q :=
  (inject_Z fmin
   + (inject_Z fmax - inject_Z fmin)
     * (inject_Z (Z.of_nat col) / inject_Z (Z.of_nat cols))
   + (1 # 2) * (inject_Z fmax - inject_Z fmin)
     * (inject_Z (Z.of_nat row) / inject_Z (Z.of_nat rows)))%Q.

Definition frequency_max (fmin fmax : Z) (rows cols : nat) : Q :=
  (inject_Z fmin
   + (inject_Z fmax - inject_Z fmin)
     * ((inject_Z (Z.of_nat cols) - 1) / inject_Z (Z.of_nat cols)
        + (inject_Z (Z.of_nat rows) - 1) / (2 * inject_Z (Z.of_nat rows))))%Q.

(** ** Loops that may raise *)

(** Every pass of a loop over [l] that starts in a state satisfying [P]
    returns in such a state or raises [e]. *)
Definition passes_or_raises {S X : Type} (P : S -> Prop) (body : X -> M S unit)
    (e : exn) (l : list X) : Prop :=
  forall x, In x l -> forall s, P s ->
    exists s', (body x s = (Ok tt, s') /\ P s') \/ body x s = (Raise e, s').

(** ** Concrete states used as test inputs *)

(** A diagonal of two live cells on a 2 by 2 grid. *)
Definition diagonal_2x2 : ndarray := [[true; false]; [false; true]].

(** The manager after the two cells of [diagonal_2x2] were born. *)
Definition two_voices : SoundManager Q :=
  snd (update_sounds (Grid_init 2 2) (zeros 2 2) diagonal_2x2 SoundManager_init).

(** The manager after the only cell of a 1 by 1 grid was born. *)
Definition one_voice : SoundManager Q :=
  snd (play_sound (Grid_init 1 1) 0 0 SoundManager_init).

(** The same manager in binary64. *)
Definition two_voices_binary64 : SoundManager float :=
  snd (update_sounds (Grid_init 2 2) (zeros 2 2) diagonal_2x2 SoundManager_init).

(** The 2 by 2 grid resized to no rows and no columns. *)
Definition emptied_grid : Grid := snd (resize_grid 0 0 (Grid_init 2 2)).

(** The manager after the frequency slider was moved to its minimum, which
    is below the lower end of the range. *)
Definition slider_at_minimum : SoundManager Q :=
  snd (set_frequency_range (Grid_init 2 2) 200 100 SoundManager_init).

(** ** More of class Grid *)

(** [Grid.mousePressEvent] for a click at the pixel [(ex, ey)] of the
    widget.  [cell_size] is the field [self.cell_size], which no method
    changes; [//] is the floor division of [Z]. *)
Definition mousePressEvent (cell_size ex ey : Z) : M Grid unit :=
  fun self =>
    if (cell_size =? 0)%Z then (Raise ZeroDivisionError, self) else
    let x := (ex / cell_size)%Z in
    let y := (ey / cell_size)%Z in
    if ((0 <=? x) && (x <? Z.of_nat (cols self))
        && ((0 <=? y) && (y <? Z.of_nat (rows self))))%Z
    then
      match getitem (grid self) (Z.to_nat y) (Z.to_nat x) with
      | Ok alive =>
          match setitem (Z.to_nat y) (Z.to_nat x) (negb alive) (grid self) with
          | (Ok _, a) => (Ok tt, mkGrid (rows self) (cols self) a (rules self))
          | (Raise e, _) => (Raise e, self)
          end
      | Raise e => (Raise e, self)
      end
    else (Ok tt, self).

(** The calls a driver can make on a [Grid]. *)
Inductive grid_call : Type :=
| CallSetRules (birth survival : list Z)
| CallResize (new_rows new_cols : nat)
| CallClick (ex ey : Z)
| CallUpdate
| CallClear.

Definition run_grid_call (cell_size : Z) (c : grid_call) : M Grid unit :=
  match c with
  | CallSetRules birth survival => set_rules birth survival
  | CallResize new_rows new_cols => resize_grid new_rows new_cols
  | CallClick ex ey => mousePressEvent cell_size ex ey
  | CallUpdate => update_grid
  | CallClear => clear_grid
  end.

(** The grid [g] with other rules. *)
Definition with_rules (ru : Rules) (g : Grid) : Grid :=
  mkGrid (rows g) (cols g) (grid g) ru.

(** ** Properties kept by a command, whether it returns or raises *)

Definition preserves {S A : Type} (P : S -> Prop) (m : M S A) : Prop :=
  forall s, P s -> P (snd (m s)).

(** ** More of class SoundManager *)

Section SoundManagerCalls.
Context {F : Type} `{PyFloat F}.
Implicit Types (self s : SoundManager F) (g : Grid) (k : key).

(** What the two dictionaries of a manager satisfy at every moment: each
    holds a key once, an envelope belongs to a registered oscillator, and
    the registered cells are cells of the grid. *)
Definition manager_ok g self : Prop :=
  dict_ok (oscillators self) /\
  dict_ok (envelopes self) /\
  (forall k, In k (dict_keys (envelopes self)) ->
             In k (dict_keys (oscillators self))) /\
  (forall k, In k (dict_keys (oscillators self)) ->
             fst k < rows g /\ snd k < cols g).

(** The calls a driver makes on a [SoundManager]. *)
Inductive manager_call : Type :=
| CallUpdateSounds (previous_grid current_grid : ndarray)
| CallSetFrequencyRange (min_freq max_freq : Z)
| CallSetAmplitude (new_amplitude : F)
| CallSetWaveform (waveform_type : string)
| CallSetSmoothTransitions (smooth : bool)
| CallShutdown.

Definition run_manager_call g (c : manager_call) : M (SoundManager F) unit :=
  match c with
  | CallUpdateSounds previous_grid current_grid =>
      update_sounds g previous_grid current_grid
  | CallSetFrequencyRange min_freq max_freq =>
      set_frequency_range g min_freq max_freq
  | CallSetAmplitude new_amplitude => set_amplitude new_amplitude
  | CallSetWaveform waveform_type => set_waveform g waveform_type
  | CallSetSmoothTransitions smooth => set_smooth_transitions smooth
  | CallShutdown => shutdown
  end.

(** The calls [play_sound] makes for a cell without a voice. *)
Definition start_cmds g self k : list (command F) :=
  OscOut k (get_waveform_class (waveform self)) (voice_freq g self k)
  :: (if smooth_transitions self then [FaderPlay k (new_fader self)]
      else [OscSetMul k (amplitude self)]).

(** The calls [stop_sound] makes for a cell with a voice. *)
Definition stop_cmds self k : list (command F) :=
  (if smooth_transitions self && dict_mem (envelopes self) k
   then [FaderStop k] else [])
  ++ [OscStop k].

(** The cells of an [r] by [c] grid in the order of the two loops. *)
Definition grid_cells (r c : nat) : list key :=
  flat_map (fun row => map (pair row) (seq 0 c)) (seq 0 r).

(** The calls one pass of [update_sounds] makes at the cell [k]. *)
Definition transition_cmds g self (previous_grid current_grid : ndarray) k
    : list (command F) :=
  let was_alive := cell previous_grid (fst k) (snd k) in
  let is_alive := cell current_grid (fst k) (snd k) in
  if negb was_alive && is_alive then start_cmds g self k
  else if was_alive && negb is_alive then stop_cmds self k
  else [].

(** A manager with other values in the two dictionaries and the log. *)
Definition with_voices (o : dict (Osc F)) (e : dict (Fader F))
    (i : list (command F)) self : SoundManager F :=
  mkSoundManager (frequency_range self) (amplitude self) (waveform self)
    (smooth_transitions self) o e i.

End SoundManagerCalls.

(** ** class MainWindow

    The driver: the fields and the handlers that act on the grid and on the
    sound manager.  The widgets and the timer are Qt objects and the calls
    on them are left out; a handler that reads a widget takes the value
    read as its argument. *)

Section MainWindow.
Context {F : Type} `{PyFloat F}.

Record MainWindow : Type := mkMainWindow {
  grid_widget : Grid;
  sound_manager : SoundManager F;
  previous_grid : ndarray;
  simulation_running : bool
}.

(** A call on [self.grid_widget]. *)
Definition on_grid {A : Type} (m : M Grid A) : M MainWindow A :=
  fun self =>
    let '(r, g) := m (grid_widget self) in
    (r, mkMainWindow g (sound_manager self) (previous_grid self)
          (simulation_running self)).

(** A call on [self.sound_manager]. *)
Definition on_sound {A : Type} (m : M (SoundManager F) A) : M MainWindow A :=
  fun self =>
    let '(r, sm) := m (sound_manager self) in
    (r, mkMainWindow (grid_widget self) sm (previous_grid self)
          (simulation_running self)).

(** [self.previous_grid = np.copy(self.grid_widget.grid)] *)
Definition copy_grid : M MainWindow unit :=
  modify (fun self =>
    mkMainWindow (grid_widget self) (sound_manager self)
      (grid (grid_widget self)) (simulation_running self)).

Definition set_running (b : bool) : M MainWindow unit :=
  modify (fun self =>
    mkMainWindow (grid_widget self) (sound_manager self) (previous_grid self) b).

(** [MainWindow.__init__]: a 20 by 20 grid with cells of 20 pixels. *)
Definition MainWindow_init : MainWindow :=
  mkMainWindow (Grid_init 20 20) SoundManager_init (grid (Grid_init 20 20)) false.

Definition play_simulation : M MainWindow unit :=
  self <- gets id ;;
  if negb (simulation_running self) then set_running true else ret tt.

Definition pause_simulation : M MainWindow unit :=
  self <- gets id ;;
  if simulation_running self then set_running false else ret tt.

(** [SoundManager(self.grid_widget)], the log of the calls on pyo going on
    from [log]. *)
Definition SoundManager_new (log : list (command F)) : SoundManager F :=
  with_voices [] [] (log ++ [ServerBoot; ServerStart; ServerSetMidi])
    SoundManager_init.

Definition stop_simulation : M MainWindow unit :=
  pause_simulation ;;
  on_grid clear_grid ;;
  on_sound (modify (with_oscillators [])) ;;   (* oscillators.clear() *)
  on_sound shutdown ;;
  modify (fun self =>
    mkMainWindow (grid_widget self)
      (SoundManager_new (issued (sound_manager self)))
      (previous_grid self) (simulation_running self)) ;;
  copy_grid.

Definition next_generation : M MainWindow unit :=
  on_grid update_grid ;;
  self <- gets id ;;
  on_sound (update_sounds (grid_widget self) (previous_grid self)
              (grid (grid_widget self))) ;;
  copy_grid.

(** [change_rule], [rule] being the text of the combo box. *)
Definition change_rule (rule : string) : M MainWindow unit :=
  if String.eqb rule "B3/S23 (Conway)" then
    on_grid (set_rules [3%Z] [2%Z; 3%Z])
  else if String.eqb rule "B36/S23 (HighLife)" then
    on_grid (set_rules [3%Z; 6%Z] [2%Z; 3%Z])
  else if String.eqb rule "B2/S (Seeds)" then
    on_grid (set_rules [2%Z] [])
  else if String.eqb rule "B3678/S34678 (Day & Night)" then
    on_grid (set_rules [3; 6; 7; 8]%Z [3; 4; 6; 7; 8]%Z)
  else if String.eqb rule "B1357/S1357 (Replicator)" then
    on_grid (set_rules [1; 3; 5; 7]%Z [1; 3; 5; 7]%Z)
  else if String.eqb rule "Custom Rules" then
    ret tt                                   (* enables the rule editor *)
  else
    on_grid (set_rules [3%Z] [2%Z; 3%Z]).

(** [change_frequency_range], [freq] being the value of the slider. *)
Definition change_frequency_range (freq : Z) : M MainWindow unit :=
  self <- gets id ;;
  on_sound (set_frequency_range (grid_widget self) 200 freq).

(** [change_amplitude], [value] being the value of the slider:
    [value / 100.0] converts the int and divides two floats. *)
Definition change_amplitude (value : Z) : M MainWindow unit :=
  v <- lift (of_int value) ;;
  on_sound (set_amplitude (fdiv v hundred)).

(** [change_waveform], [waveform] being the text of the combo box. *)
Definition change_waveform (waveform : string) : M MainWindow unit :=
  self <- gets id ;;
  on_sound (set_waveform (grid_widget self) waveform).

(** [toggle_transitions], [checked] being [state == Qt.Checked]. *)
Definition toggle_transitions (checked : bool) : M MainWindow unit :=
  on_sound (set_smooth_transitions checked).

(** What the user and the timer can make happen; the grid widget of the
    window has cells of 20 pixels. *)
Inductive window_event : Type :=
| EvClick (ex ey : Z)
| EvPlay
| EvPause
| EvStop
| EvNextGeneration
| EvTimer
| EvRule (rule : string)
| EvFrequency (freq : Z)
| EvAmplitude (value : Z)
| EvWaveform (waveform : string)
| EvTransitions (checked : bool).

Definition run_window_event (ev : window_event) : M MainWindow unit :=
  match ev with
  | EvClick ex ey => on_grid (mousePressEvent 20 ex ey)
  | EvPlay => play_simulation
  | EvPause => pause_simulation
  | EvStop => stop_simulation
  | EvNextGeneration => next_generation
  | EvTimer => next_generation               (* update_simulation *)
  | EvRule rule => change_rule rule
  | EvFrequency freq => change_frequency_range freq
  | EvAmplitude value => change_amplitude value
  | EvWaveform waveform => change_waveform waveform
  | EvTransitions checked => toggle_transitions checked
  end.

(** What holds of a window between two events: the array of the grid has
    its shape, [previous_grid] has the same shape, the registry holds the
    live cells of [previous_grid], and the manager is well formed. *)
Definition window_ok (self : MainWindow) : Prop :=
  Grid_ok (grid_widget self) /\
  has_shape (rows (grid_widget self)) (cols (grid_widget self))
    (previous_grid self) /\
  registry_matches (sound_manager self) (previous_grid self) /\
  manager_ok (grid_widget self) (sound_manager self).

(** The events the widgets can produce: the frequency slider gives a
    value from 100 to 2000 and the amplitude slider one from 0 to 100. *)
Definition slider_event (ev : window_event) : Prop :=
  match ev with
  | EvFrequency freq => (100 <= freq <= 2000)%Z
  | EvAmplitude value => (0 <= value <= 100)%Z
  | _ => True
  end.

(** What the window asks of the floats: the integers that its sliders and
    its 20 by 20 grid give to [calculate_frequency] and to
    [change_amplitude] are converted and divided without an exception. *)
Definition floats_cover_sliders : Prop :=
  (forall z, (-100 <= z <= 2000)%Z -> exists x, of_int z = Ok x) /\
  (forall n, (0 <= n < 20)%Z -> exists q, truediv n 20 = Ok q).

(** A window in order whose grid and frequency range are among those the
    events can produce. *)
Definition window_in_range (self : MainWindow) : Prop :=
  window_ok self /\
  rows (grid_widget self) = 20 /\ cols (grid_widget self) = 20 /\
  fst (frequency_range (sound_manager self)) = 200%Z /\
  (100 <= snd (frequency_range (sound_manager self)) <= 2000)%Z.

End MainWindow.

Arguments MainWindow F : clear implicits.

(** Whether [previous_grid] is the grid on display: [b] before the event,
    the result after it.  A generation and a stop copy the grid, a click
    changes the grid alone, the other events touch neither. *)
Definition in_step_after (ev : window_event) (b : bool) : bool :=
  match ev with
  | EvClick _ _ => false
  | EvStop | EvNextGeneration | EvTimer => true
  | _ => b
  end.

(** Whether [previous_grid] is the grid on display after [events], in a
    window where it was before them. *)
Definition in_step (events : list window_event) : bool :=
  fold_left (fun b ev => in_step_after ev b) events true.

(** The window after three clicks that draw a vertical blinker in the
    second column of the grid. *)
Definition three_clicks : MainWindow float :=
  snd (for_ [EvClick 30 10; EvClick 30 30; EvClick 30 50] run_window_event
         MainWindow_init).

(** * Properties *)

(** ** Loops *)

(** The rule of a counting loop: an invariant indexed by the next value of
    the counter. *)
Lemma for_seq_inv {S : Type} (I : nat -> S -> Prop) (body : nat -> M S unit)
    (n lo : nat) (s0 : S) :
  I lo s0 ->
  (forall k s, lo <= k < lo + n -> I k s ->
     exists s', body k s = (Ok tt, s') /\ I (Datatypes.S k) s') ->
  exists s', for_ (seq lo n) body s0 = (Ok tt, s') /\ I (lo + n) s'.
Proof.
  revert lo s0. induction n as [|n IH]; intros lo s0 H0 Hstep; simpl.
  - exists s0. rewrite Nat.add_0_r. split; [reflexivity | assumption].
  - destruct (Hstep lo s0) as [s1 [E1 H1]]; [lia | assumption |].
    destruct (IH (Datatypes.S lo) s1) as [s' [E' H']]; [assumption | |].
    + intros k s Hk. apply Hstep. lia.
    + exists s'. unfold bind. rewrite E1. split; [exact E' |].
      now rewrite Nat.add_succ_r.
Qed.

Lemma for_range_inv {S : Type} (I : nat -> S -> Prop) (body : nat -> M S unit)
    (n : nat) (s0 : S) :
  I 0 s0 ->
  (forall k s, k < n -> I k s ->
     exists s', body k s = (Ok tt, s') /\ I (Datatypes.S k) s') ->
  exists s', for_ (range 0 n) body s0 = (Ok tt, s') /\ I n s'.
Proof.
  intros H0 Hstep. unfold range. rewrite Nat.sub_0_r.
  apply (for_seq_inv I body n 0 s0 H0). intros k s Hk. apply Hstep. lia.
Qed.

Lemma for_sumZ {S : Type} (get : S -> Z) (body : nat -> M S unit) (f : nat -> Z)
    (l : list nat) (s : S) :
  (forall x s, In x l ->
     exists s', body x s = (Ok tt, s') /\ get s' = (get s + f x)%Z) ->
  exists s', for_ l body s = (Ok tt, s') /\ get s' = (get s + sumZ f l)%Z.
Proof.
  revert s. induction l as [|x l IH]; intros s Hbody; simpl.
  - exists s. split; [reflexivity | lia].
  - destruct (Hbody x s (or_introl eq_refl)) as [s1 [E1 G1]].
    destruct (IH s1) as [s' [E' G']].
    + intros y t Hy. apply Hbody. now right.
    + exists s'. unfold bind. rewrite E1. split; [exact E' | lia].
Qed.

Lemma in_range (lo hi x : nat) : In x (range lo hi) <-> lo <= x < hi.
Proof. unfold range. rewrite in_seq. lia. Qed.

Ltac bool_lia :=
  repeat match goal with
  | |- context [?a <? ?b] => destruct (Nat.ltb_spec a b)
  | |- context [?a =? ?b] => destruct (Nat.eqb_spec a b)
  end; cbn [andb orb negb]; try reflexivity; try lia.

Ltac decide_atoms :=
  repeat match goal with
  | |- context [(?a <=? ?b)%Z] => destruct (Z.leb_spec a b); try lia
  | |- context [(?a <? ?b)%Z] => destruct (Z.ltb_spec a b); try lia
  | |- context [?a <=? ?b] => destruct (Nat.leb_spec a b); try lia
  | |- context [?a <? ?b] => destruct (Nat.ltb_spec a b); try lia
  | |- context [?a =? ?b] => destruct (Nat.eqb_spec a b); try lia
  end.

(** ** Arrays *)

Lemma has_shape_row (r c : nat) (a : ndarray) (i : nat) :
  has_shape r c a -> i < r -> length (nth i a []) = c.
Proof.
  intros [Hl Hf] Hi. rewrite Forall_forall in Hf. apply Hf, nth_In. lia.
Qed.

Lemma getitem_cell (r c : nat) (a : ndarray) (i j : nat) :
  has_shape r c a -> i < r -> j < c -> getitem a i j = Ok (cell a i j).
Proof.
  intros Ha Hi Hj. unfold getitem, cell.
  assert (Hrow := has_shape_row r c a i Ha Hi). destruct Ha as [Hl _].
  rewrite (nth_error_nth' a [] (n := i)) by lia.
  rewrite (nth_error_nth' _ false (n := j)) by lia. reflexivity.
Qed.

Lemma getitem_outside (r c : nat) (a : ndarray) (i j : nat) :
  has_shape r c a -> r <= i \/ c <= j -> getitem a i j = Raise IndexError.
Proof.
  intros Ha Hout. unfold getitem.
  destruct (nth_error a i) as [row|] eqn:Ei; [|reflexivity].
  assert (Hi : i < r).
  { destruct Ha as [Hl _]. rewrite <- Hl. apply nth_error_Some. congruence. }
  assert (Hrow := has_shape_row r c a i Ha Hi).
  rewrite (nth_error_nth a i [] Ei) in Hrow.
  destruct (nth_error row j) eqn:Ej; [|reflexivity].
  assert (j < length row) by (apply nth_error_Some; congruence). lia.
Qed.

Lemma length_set_nth {A : Type} (l : list A) (i : nat) (v : A) :
  length (set_nth l i v) = length l.
Proof.
  revert i. induction l as [|x l IH]; intros [|i]; simpl; try reflexivity.
  now rewrite IH.
Qed.

Lemma nth_set_nth {A : Type} (l : list A) (i k : nat) (v d : A) :
  i < length l ->
  nth k (set_nth l i v) d = if k =? i then v else nth k l d.
Proof.
  revert i k. induction l as [|x l IH]; intros [|i] [|k] Hi; simpl in *;
    try lia; try reflexivity.
  apply IH. lia.
Qed.

Lemma setitem_ok (r c : nat) (a : ndarray) (i j : nat) (v : bool) :
  has_shape r c a -> i < r -> j < c ->
  exists a', setitem i j v a = (Ok tt, a') /\ has_shape r c a' /\
    forall i' j', cell a' i' j' =
      if (i' =? i) && (j' =? j) then v else cell a i' j'.
Proof.
  intros Ha Hi Hj. unfold setitem.
  assert (Hrow := has_shape_row r c a i Ha Hi).
  pose proof Ha as [Hl Hf].
  rewrite (nth_error_nth' a [] (n := i)) by lia.
  rewrite Hrow. destruct (Nat.ltb_spec j c) as [_|]; [|lia].
  eexists; split; [reflexivity|]. split.
  - split; [now rewrite length_set_nth|].
    rewrite Forall_forall in *. intros row Hin.
    destruct (In_nth _ _ [] Hin) as [k [Hk Ek]]. rewrite length_set_nth in Hk.
    rewrite nth_set_nth in Ek by lia. subst row.
    destruct (k =? i); [now rewrite length_set_nth | apply Hf, nth_In; lia].
  - intros i' j'. unfold cell. rewrite nth_set_nth by lia.
    destruct (Nat.eqb_spec i' i) as [->|]; simpl; [|reflexivity].
    rewrite nth_set_nth by lia. reflexivity.
Qed.

Lemma ndarray_ext (r c : nat) (a b : ndarray) :
  has_shape r c a -> has_shape r c b ->
  (forall i j, i < r -> j < c -> cell a i j = cell b i j) -> a = b.
Proof.
  intros Ha Hb Hcell. pose proof Ha as [Hla _]. pose proof Hb as [Hlb _].
  apply (nth_ext a b [] []); [lia|]. intros i Hi.
  assert (Hra := has_shape_row r c a i Ha ltac:(lia)).
  assert (Hrb := has_shape_row r c b i Hb ltac:(lia)).
  apply (nth_ext _ _ false false); [lia|]. intros j Hj.
  apply Hcell; lia.
Qed.

Lemma has_shape_zeros (r c : nat) : has_shape r c (zeros r c).
Proof.
  split; [apply repeat_length|]. apply Forall_forall. intros row Hin.
  apply repeat_spec in Hin. subst row. apply repeat_length.
Qed.

Lemma cell_zeros (r c i j : nat) : cell (zeros r c) i j = false.
Proof.
  unfold cell, zeros.
  destruct (Nat.lt_ge_cases i r) as [Hi|Hi].
  - rewrite nth_repeat_lt by assumption.
    destruct (Nat.lt_ge_cases j c) as [Hj|Hj].
    + now rewrite nth_repeat_lt.
    + apply nth_overflow. now rewrite repeat_length.
  - rewrite (nth_overflow (repeat (repeat false c) r)) by now rewrite repeat_length.
    now destruct j.
Qed.

Lemma has_shape_tabulate (r c : nat) (f : nat -> nat -> bool) :
  has_shape r c (tabulate r c f).
Proof.
  unfold tabulate. split; [now rewrite length_map, length_seq|].
  apply Forall_forall. intros row Hin. apply in_map_iff in Hin.
  destruct Hin as [i [<- _]]. now rewrite length_map, length_seq.
Qed.

Lemma cell_tabulate (r c : nat) (f : nat -> nat -> bool) (i j : nat) :
  i < r -> j < c -> cell (tabulate r c f) i j = f i j.
Proof.
  intros Hi Hj. unfold cell, tabulate.
  rewrite (nth_indep _ [] (map (f 0) (seq 0 c))) by now rewrite length_map, length_seq.
  rewrite (map_nth (fun i => map (f i) (seq 0 c)) (seq 0 r) 0 i).
  rewrite seq_nth by assumption. cbn [Nat.add].
  rewrite (nth_indep _ false (f i 0)) by now rewrite length_map, length_seq.
  rewrite (map_nth (f i) (seq 0 c) 0 j). now rewrite seq_nth.
Qed.

Lemma not_alive_zeros (r c : nat) (k : key) : ~ alive (zeros r c) k.
Proof.
  unfold alive. intros Ha.
  destruct (Nat.lt_ge_cases (fst k) r) as [Hr|Hr];
    [destruct (Nat.lt_ge_cases (snd k) c) as [Hc|Hc]|].
  - rewrite (getitem_cell r c), cell_zeros in Ha
      by (trivial; apply has_shape_zeros). discriminate.
  - rewrite (getitem_outside r c) in Ha
      by (apply has_shape_zeros || now right). discriminate.
  - rewrite (getitem_outside r c) in Ha
      by (apply has_shape_zeros || now left). discriminate.
Qed.

(** ** Counting neighbours *)

Lemma clamped_range_sum (N n : nat) (f : nat -> Z) :
  sumZ f (range (Nat.max 0 (n - 1)) (Nat.min N (n + 2)))
  = (pick N n (-1) f + (pick N n 0 f + pick N n 1 f))%Z.
Proof.
  unfold pick, range. rewrite Nat.max_0_l.
  assert (Hlen : let len := Nat.min N (n + 2) - (n - 1) in
                 len = 0 \/ len = 1 \/ len = 2 \/ len = 3) by (cbv zeta; lia).
  cbv zeta in Hlen.
  destruct Hlen as [E|[E|[E|E]]]; rewrite E; cbn [seq sumZ fold_right];
  repeat match goal with
  | |- context [(?a <=? ?b)%Z] => destruct (Z.leb_spec a b)
  | |- context [(?a <? ?b)%Z] => destruct (Z.ltb_spec a b)
  end; cbn [andb]; try lia;
  repeat match goal with
  | |- context [Z.to_nat ?z] =>
      first [ replace (Z.to_nat z) with (n - 1) by lia
            | replace (Z.to_nat z) with n by lia
            | replace (Z.to_nat z) with (S (n - 1)) by lia
            | replace (Z.to_nat z) with (S (S (n - 1))) by lia ]
  end; try lia;
  replace (S (n - 1)) with n by lia; lia.
Qed.

Lemma count_loop_sum (g : Grid) (row col : nat) :
  Grid_ok g ->
  count_loop g row col 0%Z =
  (Ok tt,
   sumZ (fun i =>
           sumZ (neighbor_term (grid g) row col i)
                (range (Nat.max 0 (col - 1)) (Nat.min (cols g) (col + 2))))
        (range (Nat.max 0 (row - 1)) (Nat.min (rows g) (row + 2)))).
Proof.
  intros Hg. unfold count_loop.
  match goal with |- for_ ?l ?body 0%Z = (_, sumZ ?f _) =>
    destruct (for_sumZ (fun count => count) body f l 0%Z) as [s' [E Hs]]
  end.
  - intros i count Hi. apply in_range in Hi.
    match goal with |- exists s', for_ ?l ?body _ = _ /\ _ = (_ + sumZ ?f _)%Z =>
      apply (for_sumZ (fun count => count) body f l count)
    end.
    intros j count' Hj. apply in_range in Hj.
    unfold neighbor_term.
    destruct (negb (i =? row) || negb (j =? col)); cbn [andb].
    + unfold bind, lift. rewrite (getitem_cell (rows g) (cols g)) by (trivial; lia).
      destruct (cell (grid g) i j); eexists; (split; [reflexivity|]); cbn; lia.
    + eexists; split; [reflexivity|]. lia.
  - rewrite E. f_equal. lia.
Qed.

Lemma pick_add3 (N n : nat) (d : Z) (f1 f2 f3 : nat -> Z) :
  pick N n d (fun i => (f1 i + (f2 i + f3 i))%Z)
  = (pick N n d f1 + (pick N n d f2 + pick N n d f3))%Z.
Proof. unfold pick. destruct (_ && _); lia. Qed.

Lemma pick_ext (N n : nat) (d : Z) (f1 f2 : nat -> Z) :
  (forall i, f1 i = f2 i) -> pick N n d f1 = pick N n d f2.
Proof. intros E. unfold pick. now rewrite E. Qed.

Lemma pick_neighbor (g : Grid) (row col : nat) (dr dc : Z) :
  (-1 <= dr <= 1)%Z -> (-1 <= dc <= 1)%Z ->
  pick (rows g) row dr
    (fun i => pick (cols g) col dc (neighbor_term (grid g) row col i))
  = if ((dr =? 0) && (dc =? 0))%Z then 0%Z
    else if alive_at (grid g) (rows g) (cols g)
              (Z.of_nat row + dr) (Z.of_nat col + dc)
         then 1%Z else 0%Z.
Proof.
  intros Hr Hc. unfold pick, alive_at, neighbor_term.
  destruct (Z.leb_spec 0 (Z.of_nat row + dr));
    destruct (Z.ltb_spec (Z.of_nat row + dr) (Z.of_nat (rows g)));
    destruct (Z.leb_spec 0 (Z.of_nat col + dc));
    destruct (Z.ltb_spec (Z.of_nat col + dc) (Z.of_nat (cols g)));
    cbn [andb]; try (now destruct ((dr =? 0)%Z && (dc =? 0)%Z)).
  destruct (Z.eqb_spec dr 0) as [->|Hdr]; cbn [andb].
  - destruct (Z.eqb_spec dc 0) as [->|Hdc].
    + rewrite !Z.add_0_r, !Nat2Z.id, !Nat.eqb_refl. reflexivity.
    + destruct (Nat.eqb_spec (Z.to_nat (Z.of_nat col + dc)) col) as [E|_]; [lia|].
      now rewrite orb_true_r.
  - destruct (Nat.eqb_spec (Z.to_nat (Z.of_nat row + dr)) row) as [E|_]; [lia|].
    reflexivity.
Qed.

Lemma count_alive_neighbors_moore (g : Grid) (row col : nat) :
  Grid_ok g -> count_alive_neighbors g row col = Ok (moore_count g row col).
Proof.
  intros Hg. unfold count_alive_neighbors. rewrite (count_loop_sum g row col Hg).
  f_equal. rewrite clamped_range_sum.
  rewrite !(pick_ext _ _ _ _ _ (fun i => clamped_range_sum (cols g) col _)).
  rewrite !pick_add3.
  rewrite !pick_neighbor by lia.
  unfold moore_count, moore_offsets. cbn [fold_right fst snd Z.eqb andb].
  lia.
Qed.

(** ** One generation *)

Lemma update_loop_spec (g : Grid) :
  Grid_ok g ->
  exists new_grid,
    update_loop g (grid g) = (Ok tt, new_grid) /\
    has_shape (rows g) (cols g) new_grid /\
    forall r c, r < rows g -> c < cols g ->
      cell new_grid r c
      = next_state (rules g) (cell (grid g) r c) (moore_count g r c).
Proof.
  intros Hg. unfold update_loop.
  set (next := fun r c => next_state (rules g) (cell (grid g) r c) (moore_count g r c)).
  set (I := fun (k : nat) (ng : ndarray) =>
    has_shape (rows g) (cols g) ng /\
    forall r c, r < rows g -> c < cols g ->
      cell ng r c = if r <? k then next r c else cell (grid g) r c).
  match goal with |- exists x, for_ _ ?body _ = _ /\ _ =>
    destruct (for_range_inv I body (rows g) (grid g)) as [ng [E [Hs Hc]]]
  end.
  - split; [exact Hg | reflexivity].
  - intros k ng Hk [Hs Hc].
    set (J := fun (j : nat) (ng : ndarray) =>
      has_shape (rows g) (cols g) ng /\
      forall r c, r < rows g -> c < cols g ->
        cell ng r c = if (r <? k) || ((r =? k) && (c <? j)) then next r c
                      else cell (grid g) r c).
    match goal with |- exists s', for_ _ ?body _ = _ /\ _ =>
      destruct (for_range_inv J body (cols g) ng) as [ng' [E' [Hs' Hc']]]
    end.
    + split; [exact Hs|]. intros r c Hr Hcc. rewrite Hc by assumption. bool_lia.
    + intros j ng1 Hj [Hs1 Hc1].
      unfold bind, lift. rewrite (count_alive_neighbors_moore g k j Hg).
      rewrite (getitem_cell (rows g) (cols g)) by assumption.
      assert (Hold : cell ng1 k j = cell (grid g) k j).
      { rewrite Hc1 by assumption. bool_lia. }
      assert (Hkeep : forall v, v = next k j ->
                exists s', setitem k j v ng1 = (Ok tt, s') /\ J (S j) s').
      { intros v Hv.
        destruct (setitem_ok (rows g) (cols g) ng1 k j v Hs1 Hk Hj)
          as [a' [Ea [Hsa Hca]]].
        exists a'. split; [exact Ea|]. split; [exact Hsa|].
        intros r c Hr Hcc. rewrite Hca, Hc1 by assumption. subst v. bool_lia.
        all: congruence. }
      assert (Hsame : cell (grid g) k j = next k j ->
                exists s', ret tt ng1 = (Ok tt, s') /\ J (S j) s').
      { intros Hv. exists ng1. split; [reflexivity|]. split; [exact Hs1|].
        intros r c Hr Hcc. rewrite Hc1 by assumption. bool_lia.
        all: assert (c = j) by lia; subst; congruence. }
      subst next. cbv beta in *. unfold next_state in *.
      destruct (cell (grid g) k j); cbn [andb negb] in *.
      * destruct (py_in _ (survival (rules g))); cbn [negb] in *;
          [apply Hsame | apply Hkeep]; reflexivity.
      * destruct (py_in _ (birth (rules g)));
          [apply Hkeep | apply Hsame]; reflexivity.
    + exists ng'. split; [exact E'|]. split; [exact Hs'|].
      intros r c Hr Hcc. rewrite Hc' by assumption. bool_lia.
  - exists ng. split; [exact E|]. split; [exact Hs|].
    intros r c Hr Hcc. rewrite Hc by assumption. bool_lia.
Qed.

Lemma update_grid_spec (g : Grid) :
  Grid_ok g ->
  exists g',
    update_grid g = (Ok tt, g') /\
    rows g' = rows g /\ cols g' = cols g /\ rules g' = rules g /\ Grid_ok g' /\
    forall r c, r < rows g -> c < cols g ->
      getitem (grid g') r c
      = Ok (next_state (rules g) (cell (grid g) r c) (moore_count g r c)).
Proof.
  intros Hg. destruct (update_loop_spec g Hg) as [ng [E [Hs Hc]]].
  unfold update_grid. rewrite E. eexists. split; [reflexivity|].
  cbn [rows cols rules grid]. repeat split; try apply Hs.
  intros r c Hr Hcc.
  rewrite (getitem_cell (rows g) (cols g)) by assumption. now rewrite Hc.
Qed.

(** ** Resizing *)

Lemma length_overlay_with {A : Type} (f : A -> A -> A) (src dst : list A) :
  length (overlay_with f src dst) = length dst.
Proof.
  revert dst. induction src as [|s src IH]; intros [|d dst]; simpl; try reflexivity.
  now rewrite IH.
Qed.

Lemma nth_overlay_with {A : Type} (f : A -> A -> A) (src dst : list A)
    (i : nat) (ds dd : A) :
  nth i (overlay_with f src dst) dd
  = if (i <? length src) && (i <? length dst)
    then f (nth i src ds) (nth i dst dd) else nth i dst dd.
Proof.
  revert dst i. induction src as [|s src IH]; intros [|d dst] [|i]; simpl;
    try reflexivity.
  - now rewrite andb_false_r.
  - rewrite IH. reflexivity.
Qed.

Lemma in_firstn {A : Type} (n : nat) (l : list A) (x : A) :
  In x (firstn n l) -> In x l.
Proof.
  intros Hin. rewrite <- (firstn_skipn n l). apply in_or_app. now left.
Qed.

Lemma has_shape_slice2 (r c mr mc : nat) (a : ndarray) :
  has_shape r c a -> mr <= r -> mc <= c -> has_shape mr mc (slice2 a mr mc).
Proof.
  intros [Hl Hf] Hr Hc. unfold slice2. split.
  - rewrite length_map, length_firstn. lia.
  - rewrite Forall_forall in *. intros row Hin. apply in_map_iff in Hin.
    destruct Hin as [row' [<- Hin']]. apply in_firstn in Hin'.
    rewrite length_firstn, (Hf row' Hin'). lia.
Qed.

Lemma cell_slice2 (a : ndarray) (mr mc i j : nat) :
  i < mr -> j < mc -> cell (slice2 a mr mc) i j = cell a i j.
Proof.
  intros Hi Hj. unfold cell, slice2.
  destruct (Nat.lt_ge_cases i (length a)) as [Hia|Hia].
  - rewrite (nth_indep _ [] (firstn mc [])) by (rewrite length_map, length_firstn; lia).
    rewrite map_nth, !nth_firstn.
    destruct (Nat.ltb_spec i mr); [|lia].
    destruct (Nat.ltb_spec j mc); [reflexivity | lia].
  - rewrite (nth_overflow (map _ _)) by (rewrite length_map, length_firstn; lia).
    rewrite (nth_overflow a) by lia. reflexivity.
Qed.

Lemma assign_block_spec (r c mr mc : nat) (src dst : ndarray) :
  has_shape mr mc src -> has_shape r c dst ->
  has_shape r c (assign_block src dst) /\
  forall i j, i < r -> j < c ->
    cell (assign_block src dst) i j
    = if (i <? mr) && (j <? mc) then cell src i j else cell dst i j.
Proof.
  intros Hs Hd. unfold assign_block. split.
  - pose proof Hs as [Hls Hfs]. pose proof Hd as [Hld Hfd]. split.
    + now rewrite length_overlay_with.
    + apply Forall_forall. intros row Hin.
      destruct (In_nth _ _ [] Hin) as [k [Hk Ek]].
      rewrite length_overlay_with in Hk.
      rewrite (nth_overlay_with _ _ _ _ []) in Ek. subst row.
      destruct (_ && _); [rewrite length_overlay_with|];
        apply (has_shape_row r c dst k Hd); lia.
  - intros i j Hi Hj. unfold cell.
    rewrite (nth_overlay_with _ _ _ _ []).
    destruct Hs as [Hls Hfs]. pose proof Hd as [Hld Hfd]. rewrite Hls, Hld.
    destruct (Nat.ltb_spec i r) as [_|]; [|lia]. rewrite andb_true_r.
    destruct (Nat.ltb_spec i mr) as [Him|Him]; cbn [andb]; [|reflexivity].
    rewrite (nth_overlay_with _ _ _ _ false).
    assert (Hrs : length (nth i src []) = mc).
    { rewrite Forall_forall in Hfs. apply Hfs, nth_In. lia. }
    rewrite Hrs, (has_shape_row r c dst i Hd Hi).
    destruct (Nat.ltb_spec j c) as [_|]; [|lia]. rewrite andb_true_r.
    destruct (j <? mc); reflexivity.
Qed.

(** ** The all-dead grid *)

Lemma moore_count_zeros (r c : nat) (ru : Rules) (row col : nat) :
  moore_count (mkGrid r c (zeros r c) ru) row col = 0%Z.
Proof.
  unfold moore_count, alive_at, moore_offsets. cbn [fold_right grid].
  rewrite !cell_zeros, !andb_false_r. reflexivity.
Qed.

Lemma update_grid_zeros (r c : nat) (ru : Rules) :
  exists g',
    update_grid (mkGrid r c (zeros r c) ru) = (Ok tt, g') /\
    rows g' = r /\ cols g' = c /\ rules g' = ru /\ Grid_ok g' /\
    forall i j, i < r -> j < c ->
      getitem (grid g') i j = Ok (py_in 0 (birth ru)).
Proof.
  destruct (update_grid_spec (mkGrid r c (zeros r c) ru)) as [g' [E [Hr [Hc [Hru [Hok Hcell]]]]]].
  { apply has_shape_zeros. }
  exists g'. repeat split; try assumption; try apply Hok.
  intros i j Hi Hj. cbn [rows cols] in Hcell. rewrite Hcell by assumption.
  rewrite moore_count_zeros. cbn [grid rules]. rewrite cell_zeros.
  unfold next_state. cbn [andb negb]. now destruct (py_in 0 (birth ru)).
Qed.

(** ** The blinker *)

Lemma alive_at_product (r c : nat) (A B : nat -> bool) (n m : nat) (d e : Z) :
  alive_at (tabulate r c (fun i j => A i && B j)) r c
    (Z.of_nat n + d) (Z.of_nat m + e)
  = inb_at r A n d && inb_at c B m e.
Proof.
  unfold alive_at, inb_at.
  destruct (Z.leb_spec 0 (Z.of_nat n + d));
    destruct (Z.ltb_spec (Z.of_nat n + d) (Z.of_nat r));
    destruct (Z.leb_spec 0 (Z.of_nat m + e));
    destruct (Z.ltb_spec (Z.of_nat m + e) (Z.of_nat c));
    cbn [andb]; rewrite ?andb_false_r; try reflexivity.
  rewrite cell_tabulate by lia. reflexivity.
Qed.

Lemma moore_count_product (r c : nat) (A B : nat -> bool) (ru : Rules) (i j : nat) :
  i < r -> j < c ->
  moore_count (mkGrid r c (tabulate r c (fun i j => A i && B j)) ru) i j
  = (cnt r A i * cnt c B j - b2z (A i && B j))%Z.
Proof.
  intros Hi Hj. unfold moore_count, moore_offsets.
  cbn [fold_right grid rows cols fst snd]. rewrite !alive_at_product.
  assert (EA : A i = inb_at r A i 0).
  { unfold inb_at. rewrite Z.add_0_r, Nat2Z.id.
    destruct (Z.leb_spec 0 (Z.of_nat i)); [|lia].
    destruct (Z.ltb_spec (Z.of_nat i) (Z.of_nat r)); [reflexivity | lia]. }
  assert (EB : B j = inb_at c B j 0).
  { unfold inb_at. rewrite Z.add_0_r, Nat2Z.id.
    destruct (Z.leb_spec 0 (Z.of_nat j)); [|lia].
    destruct (Z.ltb_spec (Z.of_nat j) (Z.of_nat c)); [reflexivity | lia]. }
  rewrite EA, EB. unfold cnt.
  destruct (inb_at r A i (-1)), (inb_at r A i 0), (inb_at r A i 1),
    (inb_at c B j (-1)), (inb_at c B j 0), (inb_at c B j 1); reflexivity.
Qed.

Lemma cnt_point (N p i : nat) :
  p < N -> i < N -> cnt N (fun x => x =? p) i = b2z (near p i).
Proof.
  intros Hp Hi. unfold cnt, inb_at, near.
  decide_atoms; reflexivity.
Qed.

Lemma cnt_near (N p i : nat) :
  1 <= p -> p + 1 < N -> i < N ->
  cnt N (near p) i
  = if i =? p then 3%Z
    else if near p i then 2%Z
    else if (p - 2 <=? i) && (i <=? p + 2) then 1%Z else 0%Z.
Proof.
  intros Hp HN Hi. unfold cnt, inb_at, near.
  decide_atoms; reflexivity.
Qed.

Lemma update_grid_tabulate (r c : nat) (f f' : nat -> nat -> bool) (ru : Rules) :
  (forall i j, i < r -> j < c ->
     next_state ru (f i j) (moore_count (mkGrid r c (tabulate r c f) ru) i j)
     = f' i j) ->
  update_grid (mkGrid r c (tabulate r c f) ru)
  = (Ok tt, mkGrid r c (tabulate r c f') ru).
Proof.
  intros Hnext.
  destruct (update_grid_spec (mkGrid r c (tabulate r c f) ru))
    as [[r' c' a' ru'] (E & Hr & Hc & Hru & Hok & Hcell)].
  { apply has_shape_tabulate. }
  cbn [rows cols grid rules] in *. subst r' c' ru'. rewrite E. f_equal. f_equal.
  apply (ndarray_ext r c); [exact Hok | apply has_shape_tabulate |].
  intros i j Hi Hj. specialize (Hcell i j Hi Hj).
  rewrite (getitem_cell r c) in Hcell by assumption.
  injection Hcell as ->. rewrite !cell_tabulate by assumption. now apply Hnext.
Qed.

Lemma blinker_h_step (rows cols r c : nat) :
  1 <= r -> r + 1 < rows -> 1 <= c -> c + 1 < cols ->
  update_grid (mkGrid rows cols (blinker_h rows cols r c) conway)
  = (Ok tt, mkGrid rows cols (blinker_v rows cols r c) conway).
Proof.
  intros Hr1 Hr2 Hc1 Hc2. apply update_grid_tabulate. intros i j Hi Hj.
  rewrite moore_count_product, cnt_point, cnt_near by lia.
  unfold near. decide_atoms; reflexivity.
Qed.

Lemma blinker_v_step (rows cols r c : nat) :
  1 <= r -> r + 1 < rows -> 1 <= c -> c + 1 < cols ->
  update_grid (mkGrid rows cols (blinker_v rows cols r c) conway)
  = (Ok tt, mkGrid rows cols (blinker_h rows cols r c) conway).
Proof.
  intros Hr1 Hr2 Hc1 Hc2. apply update_grid_tabulate. intros i j Hi Hj.
  rewrite moore_count_product, cnt_point, cnt_near by lia.
  unfold near. decide_atoms; reflexivity.
Qed.

Lemma blinker_h_neq_v (rows cols r c : nat) :
  1 <= r -> r + 1 < rows -> 1 <= c -> c + 1 < cols ->
  blinker_h rows cols r c <> blinker_v rows cols r c.
Proof.
  intros Hr1 Hr2 Hc1 Hc2 E.
  assert (Hcell : cell (blinker_h rows cols r c) r (c + 1)
                  = cell (blinker_v rows cols r c) r (c + 1)) by now rewrite E.
  unfold blinker_h, blinker_v in Hcell. rewrite !cell_tabulate in Hcell by lia.
  unfold near in Hcell. revert Hcell. decide_atoms; try discriminate.
Qed.

Example blinker_5x5 :
  blinker_h 5 5 2 2
  = [[false; false; false; false; false];
     [false; false; false; false; false];
     [false; true;  true;  true;  false];
     [false; false; false; false; false];
     [false; false; false; false; false]].
Proof. reflexivity. Qed.

(** ** The frequency mapping *)

Local Open Scope Q_scope.

Lemma inject_nat_nonzero (n : nat) : n <> 0%nat -> ~ inject_Z (Z.of_nat n) == 0.
Proof.
  intros Hn Hq. unfold Qeq in Hq. simpl in Hq. lia.
Qed.

Lemma calculate_frequency_Q (g : Grid) (self : SoundManager Q) (row col : nat) :
  rows g <> 0%nat -> cols g <> 0%nat ->
  exists freq, calculate_frequency g self row col = Ok freq /\
    freq == frequency_formula (fst (frequency_range self)) (snd (frequency_range self))
              (rows g) (cols g) row col.
Proof.
  intros Hr Hc. unfold calculate_frequency.
  cbn [of_int truediv fadd fmul half PyFloat_Q].
  destruct (Z.eqb_spec (Z.of_nat (cols g)) 0) as [|_]; [lia|].
  destruct (Z.eqb_spec (Z.of_nat (rows g)) 0) as [|_]; [lia|].
  eexists; split; [reflexivity|].
  unfold frequency_formula.
  unfold Z.sub; rewrite inject_Z_plus, inject_Z_opp.
  apply inject_nat_nonzero in Hr, Hc. field. split; assumption.
Qed.

Lemma truediv_le (a b m : Z) :
  (0 < m)%Z -> (a <= b)%Z -> inject_Z a / inject_Z m <= inject_Z b / inject_Z m.
Proof.
  intros Hm Hab. unfold Qdiv. apply Qmult_le_compat_r.
  - now rewrite <- Zle_Qle.
  - apply Qinv_le_0_compat. change 0 with (inject_Z 0). rewrite <- Zle_Qle. lia.
Qed.

Lemma frequency_formula_mono (fmin fmax : Z) (rows cols row col row' col' : nat) :
  (fmin <= fmax)%Z -> rows <> 0%nat -> cols <> 0%nat ->
  (row <= row')%nat -> (col <= col')%nat ->
  frequency_formula fmin fmax rows cols row col
  <= frequency_formula fmin fmax rows cols row' col'.
Proof.
  intros Hf Hr Hc Hrow Hcol. unfold frequency_formula.
  assert (Hx : inject_Z (Z.of_nat col) / inject_Z (Z.of_nat cols)
               <= inject_Z (Z.of_nat col') / inject_Z (Z.of_nat cols))
    by (apply truediv_le; lia).
  assert (Hy : inject_Z (Z.of_nat row) / inject_Z (Z.of_nat rows)
               <= inject_Z (Z.of_nat row') / inject_Z (Z.of_nat rows))
    by (apply truediv_le; lia).
  assert (Hd : inject_Z fmin <= inject_Z fmax) by now rewrite <- Zle_Qle.
  nra.
Qed.

Lemma frequency_formula_corner (fmin fmax : Z) (rows cols : nat) :
  rows <> 0%nat -> cols <> 0%nat ->
  frequency_formula fmin fmax rows cols (rows - 1) (cols - 1)
  == frequency_max fmin fmax rows cols.
Proof.
  intros Hr Hc. unfold frequency_formula, frequency_max.
  rewrite !Nat2Z.inj_sub by lia. unfold Z.sub.
  rewrite !inject_Z_plus, !inject_Z_opp. change (inject_Z (Z.of_nat 1)) with 1.
  apply inject_nat_nonzero in Hr, Hc. field. split; assumption.
Qed.

Lemma frequency_max_exceeds (fmin fmax : Z) (rows cols : nat) :
  (fmin < fmax)%Z -> rows <> 0%nat -> cols <> 0%nat ->
  (inject_Z fmax < frequency_max fmin fmax rows cols
   <-> (2 < (rows - 1) * (cols - 2))%nat).
Proof.
  intros Hf Hr Hc.
  set (R := Z.of_nat rows). set (C := Z.of_nat cols).
  assert (HR : (1 <= R)%Z) by lia. assert (HC : (1 <= C)%Z) by lia.
  assert (Hnat : (2 < (rows - 1) * (cols - 2))%nat <-> (0 < R * C - 2 * R - C)%Z).
  { subst R C. nia. }
  rewrite Hnat.
  assert (HRq : 0 < inject_Z R) by (change 0 with (inject_Z 0); rewrite <- Zlt_Qlt; lia).
  assert (HCq : 0 < inject_Z C) by (change 0 with (inject_Z 0); rewrite <- Zlt_Qlt; lia).
  assert (Hd : 0 < inject_Z fmax - inject_Z fmin).
  { rewrite Zlt_Qlt in Hf. lra. }
  assert (Heq : frequency_max fmin fmax rows cols - inject_Z fmax
                == ((inject_Z fmax - inject_Z fmin) / (2 * inject_Z R * inject_Z C))
                   * inject_Z (R * C - 2 * R - C)).
  { unfold frequency_max. fold R C. unfold Z.sub.
    rewrite !inject_Z_plus, !inject_Z_opp, !inject_Z_mult.
    change (inject_Z 2) with 2. field. split; lra. }
  assert (Hk : 0 < (inject_Z fmax - inject_Z fmin) / (2 * inject_Z R * inject_Z C)).
  { apply Qlt_shift_div_l; nra. }
  set (k := (inject_Z fmax - inject_Z fmin) / (2 * inject_Z R * inject_Z C)) in *.
  set (N := (R * C - 2 * R - C)%Z) in *.
  split.
  - intros Hlt. assert (H0 : 0 < k * inject_Z N) by (rewrite <- Heq; lra).
    destruct (Z_lt_le_dec 0 N) as [|Hle]; [assumption|].
    exfalso. rewrite Zle_Qle in Hle. change (inject_Z 0) with 0 in Hle. nra.
  - intros HN. rewrite Zlt_Qlt in HN. change (inject_Z 0) with 0 in HN.
    assert (H0 : 0 < k * inject_Z N) by nra. rewrite <- Heq in H0. lra.
Qed.

Local Close Scope Q_scope.

(** ** Dictionaries *)

Lemma key_eqb_spec (a b : key) : reflect (a = b) (key_eqb a b).
Proof.
destruct a as [a1 a2], b as [b1 b2]. unfold key_eqb; cbn [fst snd].
destruct (Nat.eqb_spec a1 b1), (Nat.eqb_spec a2 b2); constructor; congruence.
Qed.

Section DictFacts.
Context {V : Type}.
Implicit Types (d : dict V) (k : key) (v : V).

Lemma dict_get_None d k : dict_get d k = None <-> ~ In k (dict_keys d).
Proof.
  induction d as [|[k' v'] d IH]; simpl.
  - tauto.
  - destruct (key_eqb_spec k k') as [->|Hne].
    + split; [discriminate | tauto].
    + rewrite IH. split; [intros Hn [E|Hi]; [congruence | tauto] | tauto].
Qed.

Lemma dict_mem_true d k : dict_mem d k = true <-> In k (dict_keys d).
Proof.
  unfold dict_mem. destruct (dict_get d k) eqn:E.
  - split; [intros _ | reflexivity].
    destruct (in_dec (fun a b => reflect_dec _ _ (key_eqb_spec a b)) k (dict_keys d))
      as [Hi|Hn]; [exact Hi|].
    apply dict_get_None in Hn. congruence.
  - apply dict_get_None in E. split; [discriminate | tauto].
Qed.

Lemma dict_mem_false d k : dict_mem d k = false <-> ~ In k (dict_keys d).
Proof.
  rewrite <- dict_mem_true. destruct (dict_mem d k); split; congruence.
Qed.

Lemma dict_keys_set d k v k' :
  In k' (dict_keys (dict_set d k v)) <-> k' = k \/ In k' (dict_keys d).
Proof.
  induction d as [|[k0 v0] d IH]; simpl.
  - intuition congruence.
  - destruct (key_eqb_spec k k0) as [->|Hne]; simpl.
    + intuition congruence.
    + rewrite IH. tauto.
Qed.

Lemma dict_keys_del d k k' :
  In k' (dict_keys (dict_del d k)) <-> In k' (dict_keys d) /\ k' <> k.
Proof.
  unfold dict_del, dict_keys. rewrite !in_map_iff. split.
  - intros [[k0 v0] [<- Hin]]. apply filter_In in Hin. destruct Hin as [Hin Hb].
    cbn [fst] in *. split.
    + exists (k0, v0). now split.
    + destruct (key_eqb_spec k k0); [discriminate | congruence].
  - intros [[[k0 v0] [<- Hin]] Hne]. exists (k0, v0). split; [reflexivity|].
    apply filter_In. split; [exact Hin|]. cbn [fst] in *.
    destruct (key_eqb_spec k k0); [congruence | reflexivity].
Qed.

Lemma dict_set_fresh d k v :
  ~ In k (dict_keys d) -> dict_set d k v = d ++ [(k, v)].
Proof.
  induction d as [|[k0 v0] d IH]; simpl; intros Hn; [reflexivity|].
  destruct (key_eqb_spec k k0) as [->|Hne]; [tauto|].
  rewrite IH by tauto. reflexivity.
Qed.

Lemma dict_del_absent d k : ~ In k (dict_keys d) -> dict_del d k = d.
Proof.
  induction d as [|[k0 v0] d IH]; simpl; intros Hn; [reflexivity|].
  destruct (key_eqb_spec k k0) as [->|Hne]; [tauto|].
  cbn [negb]. rewrite IH by tauto. reflexivity.
Qed.

Lemma dict_keys_app d1 d2 : dict_keys (d1 ++ d2) = dict_keys d1 ++ dict_keys d2.
Proof. apply map_app. Qed.

Lemma dict_mem_set_other d k v k' :
  k' <> k -> dict_mem (dict_set d k v) k' = dict_mem d k'.
Proof.
  intros Hne. apply eq_true_iff_eq. rewrite !dict_mem_true, dict_keys_set. tauto.
Qed.

Lemma dict_mem_del_other d k k' :
  k' <> k -> dict_mem (dict_del d k) k' = dict_mem d k'.
Proof.
  intros Hne. apply eq_true_iff_eq. rewrite !dict_mem_true, dict_keys_del. tauto.
Qed.

Lemma dict_del_head d k v :
  ~ In k (dict_keys d) -> dict_del ((k, v) :: d) k = d.
Proof.
  intros Hn. unfold dict_del. cbn [filter fst].
  destruct (key_eqb_spec k k); [|congruence]. cbn [negb].
  now apply dict_del_absent.
Qed.

Lemma dict_get_In d k v : dict_get d k = Some v -> In k (dict_keys d).
Proof.
  intros E. apply dict_mem_true. unfold dict_mem. now rewrite E.
Qed.

End DictFacts.

Lemma flat_map_ext_in {A B : Type} (f g : A -> list B) (l : list A) :
(forall a, In a l -> f a = g a) -> flat_map f l = flat_map g l.
Proof.
induction l as [|a l IH]; intros E; simpl; [reflexivity|].
rewrite (E a) by now left. f_equal. apply IH. intros b Hb. apply E. now right.
Qed.

Lemma last_cons {A : Type} (l : list A) (x d : A) : last (x :: l) d = last l x.
Proof.
  revert x d. induction l as [|y l IH]; intros x d; [reflexivity|].
  change (last (x :: y :: l) d) with (last (y :: l) d).
  now rewrite !IH.
Qed.

(** ** Loops under a state invariant *)

Section LoopsInv.
Context {S X : Type} (P : S -> Prop) (body : X -> M S unit).

Lemma for_ext_in (body' : X -> M S unit) (l : list X) :
  (forall x, In x l -> forall s, body x s = body' x s) ->
  forall s, for_ l body s = for_ l body' s.
Proof.
  induction l as [|x l IH]; intros Hb s; cbn [for_]; [reflexivity|].
  unfold bind. rewrite (Hb x (or_introl eq_refl) s).
  destruct (body' x s) as [[[]|e] s1]; [|reflexivity].
  apply IH. intros y Hy. apply Hb. now right.
Qed.

Lemma for_app (l1 l2 : list X) (s : S) :
  for_ (l1 ++ l2) body s = (for_ l1 body ;; for_ l2 body) s.
Proof.
  revert s. induction l1 as [|x l1 IH]; intros s; cbn [app for_]; [reflexivity|].
  unfold bind.
  destruct (body x s) as [[[]|e] s1]; [|reflexivity].
  rewrite IH. reflexivity.
Qed.

Lemma for_ok_inv (l : list X) :
  (forall x, In x l -> forall s, P s ->
     exists s', body x s = (Ok tt, s') /\ P s') ->
  forall s, P s -> exists s', for_ l body s = (Ok tt, s') /\ P s'.
Proof.
  induction l as [|x l IH]; intros Hb s Hs; cbn [for_].
  - exists s. now split.
  - destruct (Hb x (or_introl eq_refl) s Hs) as [s1 [E1 H1]].
    unfold bind. rewrite E1. apply IH; [|exact H1].
    intros y Hy. apply Hb. now right.
Qed.

Lemma for_passes_or_raises (e : exn) (l : list X) :
  passes_or_raises P body e l ->
  forall s, P s ->
    exists s', (for_ l body s = (Ok tt, s') /\ P s') \/ for_ l body s = (Raise e, s').
Proof.
  induction l as [|x l IH]; intros Hb s Hs; cbn [for_].
  - exists s. left. now split.
  - unfold bind.
    destruct (Hb x (or_introl eq_refl) s Hs) as [s1 [[E1 H1]|E1]]; rewrite E1.
    + apply IH; [|exact H1]. intros y Hy. apply Hb. now right.
    + exists s1. now right.
Qed.

Lemma for_raises_inv (e : exn) (l : list X) (x0 : X) :
  passes_or_raises P body e l ->
  In x0 l -> (forall s, P s -> exists s', body x0 s = (Raise e, s')) ->
  forall s, P s -> exists s', for_ l body s = (Raise e, s').
Proof.
  induction l as [|x l IH]; intros Hb Hin Hx0 s Hs; cbn [for_]; [contradiction|].
  unfold bind. destruct Hin as [->|Hin].
  - destruct (Hx0 s Hs) as [s1 E1]. rewrite E1. now exists s1.
  - destruct (Hb x (or_introl eq_refl) s Hs) as [s1 [[E1 H1]|E1]]; rewrite E1.
    + apply IH; trivial. intros y Hy. apply Hb. now right.
    + now exists s1.
Qed.
End LoopsInv.

(** The rule of a counting loop whose passes may raise: the loop returns
    with the invariant, or it raises an exception that satisfies [R]. *)
Lemma for_range_cases {S : Type} (I : nat -> S -> Prop) (R : exn -> Prop)
    (body : nat -> M S unit) (n : nat) (s0 : S) :
  I 0 s0 ->
  (forall k s, k < n -> I k s ->
     (exists s', body k s = (Ok tt, s') /\ I (Datatypes.S k) s') \/
     (exists e s', body k s = (Raise e, s') /\ R e)) ->
  (exists s', for_ (range 0 n) body s0 = (Ok tt, s') /\ I n s') \/
  (exists e s', for_ (range 0 n) body s0 = (Raise e, s') /\ R e).
Proof.
  unfold range. rewrite Nat.sub_0_r. intros H0 Hstep.
  assert (Hgen : forall m lo s, lo + m = n -> I lo s ->
    (exists s', for_ (seq lo m) body s = (Ok tt, s') /\ I n s') \/
    (exists e s', for_ (seq lo m) body s = (Raise e, s') /\ R e)).
  { induction m as [|m IH]; intros lo s Hlo Hs; cbn [seq for_].
    - left. exists s. split; [reflexivity|]. now replace n with lo by lia.
    - unfold bind.
      destruct (Hstep lo s) as [[s1 [E1 H1]]|[e [s1 [E1 H1]]]];
        [lia | exact Hs | |]; rewrite E1.
      + apply IH; [lia | exact H1].
      + right. now exists e, s1. }
  now apply Hgen.
Qed.

(** ** Properties kept by a command *)

Section Preserves.
Context {S : Type} (P : S -> Prop).

Lemma preserves_bind {A B : Type} (m : M S A) (k : A -> M S B) :
  preserves P m -> (forall a, preserves P (k a)) -> preserves P (bind m k).
Proof.
  intros Hm Hk s Hs. unfold bind. specialize (Hm s Hs).
  destruct (m s) as [[a|e] s']; cbn [snd] in *; [now apply Hk | exact Hm].
Qed.

Lemma preserves_for {X : Type} (l : list X) (body : X -> M S unit) :
  (forall x, In x l -> preserves P (body x)) -> preserves P (for_ l body).
Proof.
  induction l as [|x l IH]; intros Hb; cbn [for_].
  - intros s Hs. exact Hs.
  - apply preserves_bind; [apply Hb; now left|].
    intros _. apply IH. intros y Hy. apply Hb. now right.
Qed.

Lemma preserves_modify (f : S -> S) :
  (forall s, P s -> P (f s)) -> preserves P (modify f).
Proof. intros Hf s Hs. now apply Hf. Qed.

Lemma preserves_pure {A : Type} (r : res A) : preserves P (lift r).
Proof. intros s Hs. exact Hs. Qed.

Lemma preserves_ret {A : Type} (a : A) : preserves P (ret a).
Proof. intros s Hs. exact Hs. Qed.
End Preserves.

(** ** The sound manager *)

Ltac run_monad :=
  unfold bind, gets, lift, emit, modify, ret, id, with_oscillators, with_envelopes;
  cbn [oscillators envelopes issued frequency_range amplitude waveform
       smooth_transitions fst snd].

Section SoundManagerFacts.
Context {F : Type} `{PyFloat F}.
Implicit Types (self s : SoundManager F) (g : Grid) (k : key).

Lemma calculate_frequency_params g s s' row col :
  frequency_range s' = frequency_range s ->
  calculate_frequency g s' row col = calculate_frequency g s row col.
Proof. intros E. unfold calculate_frequency. now rewrite E. Qed.

Lemma frequency_defined_params g s s' k :
  frequency_range s' = frequency_range s ->
  frequency_defined g s k -> frequency_defined g s' k.
Proof.
  intros E [freq Ef]. exists freq.
  now rewrite (calculate_frequency_params g s s').
Qed.

(** [calculate_frequency] returns exactly when its two divisions and its
    two conversions do. *)
Lemma frequency_defined_iff g s row col :
  frequency_defined g s (row, col) <->
  (exists q, truediv (Z.of_nat col) (Z.of_nat (cols g)) = Ok q) /\
  (exists d,
     of_int (snd (frequency_range s) - fst (frequency_range s)) = Ok d) /\
  (exists a, of_int (fst (frequency_range s)) = Ok a) /\
  (exists q, truediv (Z.of_nat row) (Z.of_nat (rows g)) = Ok q).
Proof.
  unfold frequency_defined, calculate_frequency. cbn [fst snd].
  destruct (truediv (Z.of_nat col) (Z.of_nat (cols g))) as [qc|e1];
    destruct (of_int (snd (frequency_range s) - fst (frequency_range s)))
      as [d|e2];
    destruct (of_int (fst (frequency_range s))) as [a|e3];
    destruct (truediv (Z.of_nat row) (Z.of_nat (rows g))) as [qr|e4];
    (split;
     [ intros [freq E]; try discriminate;
       repeat split; eexists; reflexivity
     | intros ([q1 E1] & [q2 E2] & [q3 E3] & [q4 E4]); try discriminate;
       eexists; reflexivity ]).
Qed.

Lemma calculate_frequency_voice_freq g s row col :
  frequency_defined g s (row, col) ->
  calculate_frequency g s row col = Ok (voice_freq g s (row, col)).
Proof.
  intros [freq Ef]. unfold voice_freq. cbn [fst snd] in *. now rewrite Ef.
Qed.

(** [play_sound] returns with the cell registered, or it raises what
    [calculate_frequency] raises and changes nothing. *)
Lemma play_sound_cases g row col s :
  (exists s', play_sound g row col s = (Ok tt, s') /\
     frequency_range s' = frequency_range s /\
     forall k, In k (dict_keys (oscillators s'))
               <-> k = (row, col) \/ In k (dict_keys (oscillators s))) \/
  (exists e, play_sound g row col s = (Raise e, s) /\
     calculate_frequency g s row col = Raise e).
Proof.
  unfold play_sound. run_monad.
  destruct (dict_mem (oscillators s) (row, col)) eqn:Em.
  - left. exists s. split; [reflexivity|]. split; [reflexivity|].
    apply dict_mem_true in Em.
    intros k. split; [tauto | intros [->|]; assumption].
  - destruct (calculate_frequency g s row col) as [freq|e].
    + left. destruct (smooth_transitions s); run_monad;
        (eexists; split; [reflexivity|]); (split; [reflexivity|]);
        cbn [oscillators]; intros k; apply dict_keys_set.
    + right. exists e. now split.
Qed.

Lemma play_sound_keys g row col s :
  frequency_defined g s (row, col) ->
  exists s', play_sound g row col s = (Ok tt, s') /\
    forall k, In k (dict_keys (oscillators s'))
              <-> k = (row, col) \/ In k (dict_keys (oscillators s)).
Proof.
  intros [freq Ef]. cbn [fst snd] in Ef.
  destruct (play_sound_cases g row col s) as [[s' (E & _ & Hk)]|[e [_ Ee]]].
  - now exists s'.
  - congruence.
Qed.

Lemma play_sound_range g row col s :
  frequency_range (snd (play_sound g row col s)) = frequency_range s.
Proof.
  unfold play_sound. run_monad.
  destruct (dict_mem (oscillators s) (row, col)); [reflexivity|].
  destruct (calculate_frequency g s row col) as [freq|e]; [|reflexivity].
  destruct (smooth_transitions s); reflexivity.
Qed.

Lemma stop_sound_keys row col s :
  exists s', stop_sound row col s = (Ok tt, s') /\
    forall k, In k (dict_keys (oscillators s'))
              <-> In k (dict_keys (oscillators s)) /\ k <> (row, col).
Proof.
  unfold stop_sound. run_monad.
  destruct (dict_mem (oscillators s) (row, col)) eqn:Em.
  - destruct (smooth_transitions s && dict_mem (envelopes s) (row, col));
      destruct (dict_mem (envelopes s) (row, col)); run_monad;
      (eexists; split; [reflexivity|]); cbn [oscillators];
      intros k; apply dict_keys_del.
  - exists s. split; [reflexivity|]. apply dict_mem_false in Em.
    intros k. split; [|tauto]. intros Hk. split; [exact Hk | congruence].
Qed.

Lemma stop_sound_range row col s :
  frequency_range (snd (stop_sound row col s)) = frequency_range s.
Proof.
  unfold stop_sound. run_monad.
  destruct (dict_mem (oscillators s) (row, col)); [|reflexivity].
  destruct (smooth_transitions s && dict_mem (envelopes s) (row, col));
    destruct (dict_mem (envelopes s) (row, col)); reflexivity.
Qed.

Lemma alive_inside (r c : nat) (a : ndarray) (k : key) :
  has_shape r c a -> alive a k -> fst k < r /\ snd k < c.
Proof.
  intros Ha Hk. unfold alive in Hk.
  destruct (Nat.lt_ge_cases (fst k) r) as [Hr|Hr];
    destruct (Nat.lt_ge_cases (snd k) c) as [Hc|Hc]; [tauto | | |];
    rewrite (getitem_outside r c) in Hk by (trivial; lia); discriminate.
Qed.

(** One call of [update_sounds] on grids of the manager's dimensions: it
    returns with the registry at the live cells of [current_grid], or it
    raises what [calculate_frequency] raises at a cell of the grid. *)
Lemma update_sounds_outcome g (previous_grid current_grid : ndarray) self :
  has_shape (rows g) (cols g) previous_grid ->
  has_shape (rows g) (cols g) current_grid ->
  registry_matches self previous_grid ->
  (exists self',
     update_sounds g previous_grid current_grid self = (Ok tt, self') /\
     frequency_range self' = frequency_range self /\
     registry_matches self' current_grid) \/
  (exists e self',
     update_sounds g previous_grid current_grid self = (Raise e, self') /\
     exists k, fst k < rows g /\ snd k < cols g /\
       calculate_frequency g self (fst k) (snd k) = Raise e).
Proof.
  intros Hp Hc Hm. unfold update_sounds.
  set (R := fun e : exn =>
    exists k, fst k < rows g /\ snd k < cols g /\
      calculate_frequency g self (fst k) (snd k) = Raise e).
  set (Inv := fun (P : key -> bool) (s : SoundManager F) =>
    frequency_range s = frequency_range self /\
    forall k, In k (dict_keys (oscillators s))
              <-> if P k then alive current_grid k else alive previous_grid k).
  match goal with |- (exists x, for_ _ ?body _ = _ /\ _) \/ _ =>
    destruct (for_range_cases (fun i => Inv (fun k => fst k <? i)) R body
                (rows g) self)
      as [[s1 [E1 [Hf1 H1]]]|[e [s1 [E1 H1]]]]
  end.
  - split; [reflexivity|]. intros k. cbn. apply Hm.
  - intros i s Hi [Hfs Hs].
    match goal with |- (exists x, for_ _ ?body _ = _ /\ _) \/ _ =>
      destruct (for_range_cases
        (fun j => Inv (fun k => (fst k <? i) || ((fst k =? i) && (snd k <? j))))
        R body (cols g) s) as [[s2 [E2 [Hf2 H2]]]|[e [s2 [E2 H2]]]]
    end.
    + split; [exact Hfs|].
      intros k. rewrite (Hs k). cbn. now rewrite andb_false_r, orb_false_r.
    + intros j s3 Hj [Hf3 Hs3]. unfold bind at 1, lift at 1.
      rewrite (getitem_cell (rows g) (cols g)) by assumption.
      unfold bind at 1, lift at 1.
      rewrite (getitem_cell (rows g) (cols g)) by assumption.
      assert (Hhere : forall k, k = (i, j) ->
        (fst k <? i) || ((fst k =? i) && (snd k <? j)) = false /\
        (fst k <? i) || ((fst k =? i) && (snd k <? S j)) = true).
      { intros k ->. cbn [fst snd]. split; bool_lia. }
      assert (Helse : forall k, k <> (i, j) ->
        (fst k <? i) || ((fst k =? i) && (snd k <? S j))
        = (fst k <? i) || ((fst k =? i) && (snd k <? j))).
      { intros [k1 k2] Hne. cbn [fst snd]. bool_lia.
        all: exfalso; apply Hne; f_equal; lia. }
      assert (Hwas : alive previous_grid (i, j) <-> cell previous_grid i j = true).
      { unfold alive. cbn [fst snd].
        rewrite (getitem_cell (rows g) (cols g)) by assumption.
        split; congruence. }
      assert (His : alive current_grid (i, j) <-> cell current_grid i j = true).
      { unfold alive. cbn [fst snd].
        rewrite (getitem_cell (rows g) (cols g)) by assumption.
        split; congruence. }
      destruct (cell previous_grid i j) eqn:Ewas;
        destruct (cell current_grid i j) eqn:Eis; cbn [negb andb].
      * left. exists s3. split; [reflexivity|]. split; [exact Hf3|].
        intros k. rewrite (Hs3 k).
        destruct (key_eqb_spec k (i, j)) as [->|Hne].
        -- destruct (Hhere _ eq_refl) as [-> ->]. tauto.
        -- now rewrite Helse.
      * destruct (stop_sound_keys i j s3) as [s4 [E4 H4]].
        left. exists s4. split; [exact E4|]. split.
        { pose proof (stop_sound_range i j s3) as Hr4. rewrite E4 in Hr4.
          cbn [snd] in Hr4. congruence. }
        intros k. rewrite H4, (Hs3 k).
        destruct (key_eqb_spec k (i, j)) as [->|Hne].
        -- destruct (Hhere _ eq_refl) as [-> ->].
           split; [tauto|]. intros Ha. apply His in Ha. discriminate.
        -- rewrite Helse by assumption. tauto.
      * destruct (play_sound_cases g i j s3)
          as [[s4 (E4 & Hf4 & H4)]|[e [E4 Ee]]].
        -- left. exists s4. split; [exact E4|]. split; [congruence|].
           intros k. rewrite H4, (Hs3 k).
           destruct (key_eqb_spec k (i, j)) as [->|Hne].
           ++ destruct (Hhere _ eq_refl) as [-> ->]. tauto.
           ++ rewrite Helse by assumption. tauto.
        -- right. exists e, s3. split; [exact E4|]. exists (i, j).
           cbn [fst snd]. split; [lia|]. split; [lia|].
           now rewrite <- (calculate_frequency_params g self s3 i j Hf3).
      * left. exists s3. split; [reflexivity|]. split; [exact Hf3|].
        intros k. rewrite (Hs3 k).
        destruct (key_eqb_spec k (i, j)) as [->|Hne].
        -- destruct (Hhere _ eq_refl) as [-> ->].
           split; intros Ha; [apply Hwas in Ha | apply His in Ha]; discriminate.
        -- now rewrite Helse.
    + left. exists s2. split; [exact E2|]. split; [exact Hf2|].
      intros k. rewrite (H2 k).
      destruct (Nat.ltb_spec (fst k) i) as [Hlt|Hge]; cbn [orb].
      * destruct (Nat.ltb_spec (fst k) (S i)); [tauto | lia].
      * destruct (Nat.eqb_spec (fst k) i) as [Heq|Hne]; cbn [andb].
        -- destruct (Nat.ltb_spec (fst k) (S i)); [|lia].
           destruct (Nat.ltb_spec (snd k) (cols g)); [tauto|].
           split; intros Ha;
             [apply (alive_inside (rows g) (cols g)) in Ha
             | apply (alive_inside (rows g) (cols g)) in Ha]; trivial; lia.
        -- destruct (Nat.ltb_spec (fst k) (S i)); [lia | tauto].
    + right. exists e, s2. split; [exact E2 | exact H2].
  - left. exists s1. split; [exact E1|]. split; [exact Hf1|].
    intros k. rewrite (H1 k).
    destruct (Nat.ltb_spec (fst k) (rows g)); [tauto|].
    split; intros Ha; apply (alive_inside (rows g) (cols g)) in Ha; trivial; lia.
  - right. exists e, s1. split; [exact E1 | exact H1].
Qed.

Lemma update_sounds_registry g (previous_grid current_grid : ndarray) self :
  has_shape (rows g) (cols g) previous_grid ->
  has_shape (rows g) (cols g) current_grid ->
  registry_matches self previous_grid ->
  (forall k, fst k < rows g -> snd k < cols g -> frequency_defined g self k) ->
  exists self', update_sounds g previous_grid current_grid self = (Ok tt, self') /\
    frequency_range self' = frequency_range self /\
    registry_matches self' current_grid.
Proof.
  intros Hp Hc Hm Hdef.
  destruct (update_sounds_outcome g previous_grid current_grid self Hp Hc Hm)
    as [Hok|[e [s' [_ [k (Hr & Hcl & Ee)]]]]]; [exact Hok|].
  destruct (Hdef k Hr Hcl) as [freq Ef]. congruence.
Qed.

Lemma update_sounds_returns g (previous_grid current_grid : ndarray) self self' :
  has_shape (rows g) (cols g) previous_grid ->
  has_shape (rows g) (cols g) current_grid ->
  registry_matches self previous_grid ->
  update_sounds g previous_grid current_grid self = (Ok tt, self') ->
  frequency_range self' = frequency_range self /\
  registry_matches self' current_grid.
Proof.
  intros Hp Hc Hm E.
  destruct (update_sounds_outcome g previous_grid current_grid self Hp Hc Hm)
    as [[s1 (E1 & Hf1 & H1)]|[e [s1 [E1 _]]]]; [|congruence].
  assert (s1 = self') by congruence. subst s1. now split.
Qed.

Lemma reconcile_seq_registry g (grids : list ndarray) :
  Forall (has_shape (rows g) (cols g)) grids ->
  forall (previous_grid : ndarray) self,
  has_shape (rows g) (cols g) previous_grid ->
  registry_matches self previous_grid ->
  (forall k, fst k < rows g -> snd k < cols g -> frequency_defined g self k) ->
  exists self', reconcile_seq g previous_grid grids self = (Ok tt, self') /\
    registry_matches self' (last grids previous_grid).
Proof.
  induction 1 as [|cur rest Hcur Hrest IH]; intros prev self Hp Hm Hdef.
  - exists self. split; [reflexivity | exact Hm].
  - destruct (update_sounds_registry g prev cur self Hp Hcur Hm Hdef)
      as [s1 (E1 & Hf1 & H1)].
    destruct (IH cur s1 Hcur H1) as [s2 [E2 H2]].
    { intros k Hr Hc.
      apply (frequency_defined_params g self s1 k Hf1). now apply Hdef. }
    exists s2. cbn [reconcile_seq]. unfold bind. rewrite E1. split; [exact E2|].
    now rewrite last_cons.
Qed.

Lemma reconcile_seq_returns g (grids : list ndarray) :
  Forall (has_shape (rows g) (cols g)) grids ->
  forall (previous_grid : ndarray) self self',
  has_shape (rows g) (cols g) previous_grid ->
  registry_matches self previous_grid ->
  reconcile_seq g previous_grid grids self = (Ok tt, self') ->
  registry_matches self' (last grids previous_grid).
Proof.
  induction 1 as [|cur rest Hcur Hrest IH]; intros prev self self' Hp Hm E.
  - cbn in E. injection E as <-. exact Hm.
  - cbn [reconcile_seq] in E. unfold bind in E.
    destruct (update_sounds g prev cur self) as [[[]|e] s1] eqn:E1;
      [|discriminate].
    destruct (update_sounds_returns g prev cur self s1 Hp Hcur Hm E1) as [_ H1].
    rewrite last_cons. exact (IH cur s1 self' Hcur H1 E).
Qed.

(** [update_sounds] reads its two arrays at the cells of the manager's
    grid only. *)
Lemma getitem_slice2 (a : ndarray) (r c i j : nat) :
  i < r -> j < c -> getitem (slice2 a r c) i j = getitem a i j.
Proof.
  intros Hi Hj. unfold getitem, slice2.
  rewrite nth_error_map, nth_error_firstn.
  destruct (Nat.ltb_spec i r); [|lia].
  destruct (nth_error a i) as [row|]; cbn [option_map]; [|reflexivity].
  rewrite nth_error_firstn. destruct (Nat.ltb_spec j c); [reflexivity | lia].
Qed.

Lemma update_sounds_slices g (previous_grid current_grid : ndarray) self :
  update_sounds g previous_grid current_grid self
  = update_sounds g (slice2 previous_grid (rows g) (cols g))
      (slice2 current_grid (rows g) (cols g)) self.
Proof.
  unfold update_sounds. apply for_ext_in. intros row Hrow s.
  apply in_range in Hrow. apply for_ext_in. intros col Hcol s1.
  apply in_range in Hcol.
  unfold bind, lift. now rewrite !getitem_slice2 by lia.
Qed.

(** One pass of the inner loop of [update_sounds]. *)
Lemma update_sounds_cell g (pr pc cr cc : nat) (previous_grid current_grid : ndarray)
    (row col : nat) s :
  has_shape pr pc previous_grid -> has_shape cr cc current_grid ->
  frequency_defined g s (row, col) ->
  let m : M (SoundManager F) unit :=
    was_alive <- lift (getitem previous_grid row col) ;;
    is_alive <- lift (getitem current_grid row col) ;;
    if negb was_alive && is_alive then play_sound g row col
    else if was_alive && negb is_alive then stop_sound row col
    else ret tt in
  if (row <? pr) && (col <? pc) && (row <? cr) && (col <? cc)
  then exists s', m s = (Ok tt, s') /\ frequency_range s' = frequency_range s
  else m s = (Raise IndexError, s).
Proof.
  intros Hp Hc Hdef m. subst m. unfold bind, lift.
  destruct (Nat.ltb_spec row pr); destruct (Nat.ltb_spec col pc); cbn [andb];
    try (rewrite (getitem_outside pr pc previous_grid) by (trivial; lia);
         reflexivity).
  rewrite (getitem_cell pr pc previous_grid) by assumption.
  destruct (Nat.ltb_spec row cr); destruct (Nat.ltb_spec col cc); cbn [andb];
    try (rewrite (getitem_outside cr cc current_grid) by (trivial; lia);
         reflexivity).
  rewrite (getitem_cell cr cc current_grid) by assumption.
  destruct (cell previous_grid row col); destruct (cell current_grid row col);
    cbn [negb andb].
  - now exists s.
  - destruct (stop_sound_keys row col s) as [s' [E _]]. exists s'.
    split; [exact E|]. pose proof (stop_sound_range row col s) as Hr.
    now rewrite E in Hr.
  - destruct (play_sound_keys g row col s Hdef) as [s' [E _]]. exists s'.
    split; [exact E|]. pose proof (play_sound_range g row col s) as Hr.
    now rewrite E in Hr.
  - now exists s.
Qed.

Lemma update_sounds_covering g (pr pc cr cc : nat)
    (previous_grid current_grid : ndarray) self :
  has_shape pr pc previous_grid -> has_shape cr cc current_grid ->
  (forall k, fst k < rows g -> snd k < cols g -> frequency_defined g self k) ->
  rows g <= pr -> cols g <= pc -> rows g <= cr -> cols g <= cc ->
  exists self', update_sounds g previous_grid current_grid self = (Ok tt, self').
Proof.
  intros Hp Hc Hdef H1 H2 H3 H4. unfold update_sounds.
  set (P := fun s : SoundManager F => frequency_range s = frequency_range self).
  match goal with |- exists x, for_ ?l ?body _ = _ =>
    destruct (for_ok_inv P body l) with (s := self) as [s' [E _]];
      [| reflexivity | now exists s']
  end.
  intros row Hrow s Hs. apply in_range in Hrow.
  apply (for_ok_inv P); [|exact Hs]. intros col Hcol s1 Hs1.
  apply in_range in Hcol.
  pose proof (update_sounds_cell g pr pc cr cc previous_grid current_grid
                row col s1 Hp Hc) as Hcell.
  cbv zeta in Hcell.
  destruct (Nat.ltb_spec row pr); [|lia]. destruct (Nat.ltb_spec col pc); [|lia].
  destruct (Nat.ltb_spec row cr); [|lia]. destruct (Nat.ltb_spec col cc); [|lia].
  destruct Hcell as [s2 [E2 Hf2]].
  { apply (frequency_defined_params g self s1 _ Hs1). apply Hdef; cbn; lia. }
  exists s2. split; [exact E2|]. unfold P in *. congruence.
Qed.

Lemma update_sounds_too_small g (pr pc cr cc : nat)
    (previous_grid current_grid : ndarray) self :
  has_shape pr pc previous_grid -> has_shape cr cc current_grid ->
  (forall k, fst k < rows g -> snd k < cols g -> frequency_defined g self k) ->
  0 < rows g -> 0 < cols g ->
  pr < rows g \/ pc < cols g \/ cr < rows g \/ cc < cols g ->
  exists self',
    update_sounds g previous_grid current_grid self = (Raise IndexError, self').
Proof.
  intros Hp Hc Hdef Hr Hcl Hsmall. unfold update_sounds.
  set (P := fun s : SoundManager F => frequency_range s = frequency_range self).
  set (cell_body := fun row col : nat =>
         (was_alive <- lift (getitem previous_grid row col) ;;
          is_alive <- lift (getitem current_grid row col) ;;
          if negb was_alive && is_alive then play_sound g row col
          else if was_alive && negb is_alive then stop_sound row col
          else ret tt) : M (SoundManager F) unit).
  assert (Hcellcases : forall row, In row (range 0 (rows g)) ->
            passes_or_raises P (cell_body row) IndexError (range 0 (cols g))).
  { intros row Hrow col Hcol s Hs. apply in_range in Hrow, Hcol.
    pose proof (update_sounds_cell g pr pc cr cc previous_grid current_grid
                  row col s Hp Hc) as Hcell.
    cbv zeta in Hcell. fold (cell_body row col) in Hcell.
    destruct (_ && _).
    - destruct Hcell as [s' [E Hf]].
      { apply (frequency_defined_params g self s _ Hs). apply Hdef; cbn; lia. }
      exists s'. left. split; [exact E|]. unfold P in *. congruence.
    - exists s. right. apply Hcell.
      apply (frequency_defined_params g self s _ Hs). apply Hdef; cbn; lia. }
  assert (Hbadcell : forall row col, row < rows g -> col < cols g ->
            pr <= row \/ pc <= col \/ cr <= row \/ cc <= col ->
            forall s, P s -> exists s', cell_body row col s = (Raise IndexError, s')).
  { intros row col Hrow Hcol Hbad s Hs.
    pose proof (update_sounds_cell g pr pc cr cc previous_grid current_grid
                  row col s Hp Hc) as Hcell.
    cbv zeta in Hcell. fold (cell_body row col) in Hcell.
    assert (Hd : frequency_defined g s (row, col)).
    { apply (frequency_defined_params g self s _ Hs). apply Hdef; cbn; lia. }
    specialize (Hcell Hd).
    destruct (Nat.ltb_spec row pr); destruct (Nat.ltb_spec col pc);
      destruct (Nat.ltb_spec row cr); destruct (Nat.ltb_spec col cc);
      cbn [andb] in Hcell; try lia; now exists s. }
  set (bad_row := if (pr <? rows g) || (cr <? rows g) then rows g - 1 else 0).
  set (bad_col := if (pr <? rows g) || (cr <? rows g) then 0 else cols g - 1).
  assert (Hbr : bad_row < rows g) by (subst bad_row; destruct (_ || _); lia).
  assert (Hbc : bad_col < cols g) by (subst bad_col; destruct (_ || _); lia).
  change (exists self',
    for_ (range 0 (rows g))
      (fun row => for_ (range 0 (cols g)) (cell_body row)) self
    = (Raise IndexError, self')).
  apply (for_raises_inv P _ IndexError _ bad_row); [| | |reflexivity].
  - intros row Hrow s Hs.
    exact (for_passes_or_raises P (cell_body row) IndexError _
             (Hcellcases row Hrow) s Hs).
  - apply in_range; lia.
  - intros s Hs.
    apply (for_raises_inv P (cell_body bad_row) IndexError _ bad_col);
      [| | |exact Hs].
    + apply Hcellcases. apply in_range; lia.
    + apply in_range; lia.
    + apply Hbadcell; trivial. subst bad_row bad_col.
      destruct (Nat.ltb_spec pr (rows g)); destruct (Nat.ltb_spec cr (rows g));
        cbn [orb]; lia.
Qed.

Lemma with_voices_same s :
  with_voices (oscillators s) (envelopes s) (issued s) s = s.
Proof. now destruct s. Qed.

Lemma play_sound_fresh g row col s :
  frequency_defined g s (row, col) ->
  dict_mem (oscillators s) (row, col) = false ->
  play_sound g row col s
  = (Ok tt,
     with_voices
       (dict_set (oscillators s) (row, col)
          (mkOsc (get_waveform_class (waveform s)) (voice_freq g s (row, col))
             (new_mul s)))
       (if smooth_transitions s
        then dict_set (envelopes s) (row, col) (new_fader s) else envelopes s)
       (issued s ++ start_cmds g s (row, col)) s).
Proof.
  intros Hdef Hm. unfold play_sound, start_cmds, new_mul, new_fader, with_voices.
  run_monad. rewrite Hm, (calculate_frequency_voice_freq g s row col Hdef).
  destruct (smooth_transitions s) eqn:Esm; run_monad; rewrite ?Esm;
    rewrite <- ?app_assoc; reflexivity.
Qed.

Lemma play_sound_raises g row col s (e : exn) :
  calculate_frequency g s row col = Raise e ->
  dict_mem (oscillators s) (row, col) = false ->
  play_sound g row col s = (Raise e, s).
Proof.
  intros He Hm. unfold play_sound. run_monad. now rewrite Hm, He.
Qed.

Lemma play_sound_present g row col s :
  dict_mem (oscillators s) (row, col) = true -> play_sound g row col s = (Ok tt, s).
Proof. intros Hm. unfold play_sound. run_monad. now rewrite Hm. Qed.

Lemma stop_sound_present row col s :
  dict_mem (oscillators s) (row, col) = true ->
  stop_sound row col s
  = (Ok tt,
     with_voices (dict_del (oscillators s) (row, col))
       (if dict_mem (envelopes s) (row, col)
        then dict_del (envelopes s) (row, col) else envelopes s)
       (issued s ++ stop_cmds s (row, col)) s).
Proof.
  intros Hm. unfold stop_sound, stop_cmds, with_voices. run_monad. rewrite Hm.
  destruct (smooth_transitions s) eqn:Esm;
    destruct (dict_mem (envelopes s) (row, col)) eqn:Eenv; cbn [andb];
    run_monad; rewrite ?Esm; rewrite <- ?app_assoc; reflexivity.
Qed.

Lemma stop_sound_absent row col s :
  dict_mem (oscillators s) (row, col) = false -> stop_sound row col s = (Ok tt, s).
Proof. intros Hm. unfold stop_sound. run_monad. now rewrite Hm. Qed.

Lemma voice_freq_params g s s' k :
  frequency_range s' = frequency_range s -> voice_freq g s' k = voice_freq g s k.
Proof. intros E. unfold voice_freq, calculate_frequency. now rewrite E. Qed.

Lemma restart_one g s k :
  frequency_defined g s k -> In k (dict_keys (oscillators s)) ->
  exists s',
    (stop_sound (fst k) (snd k) ;; play_sound g (fst k) (snd k)) s = (Ok tt, s') /\
    same_params s s' /\
    oscillators s'
    = dict_set (dict_del (oscillators s) k) k
        (mkOsc (get_waveform_class (waveform s)) (voice_freq g s k) (new_mul s)) /\
    issued s' = issued s ++ restart_cmds (get_waveform_class (waveform s)) g s k /\
    forall k', k' <> k -> dict_mem (envelopes s') k' = dict_mem (envelopes s) k'.
Proof.
  intros [freq Ef] Hin. destruct k as [row col]. cbn [fst snd] in *.
  unfold stop_sound, play_sound, restart_cmds, new_mul, new_fader, voice_freq,
    same_params.
  cbn [fst snd]. run_monad.
  apply dict_mem_true in Hin. rewrite Hin.
  assert (Hgone : forall d : dict (Osc F), dict_mem (dict_del d (row, col)) (row, col) = false).
  { intros d. apply dict_mem_false. rewrite dict_keys_del. tauto. }
  assert (Ef' : forall sm o e i,
    calculate_frequency g
      (mkSoundManager (frequency_range s) (amplitude s) (waveform s) sm o e i)
      row col = Ok freq).
  { intros sm o e i. rewrite <- Ef. reflexivity. }
  rewrite Ef.
  destruct (smooth_transitions s) eqn:Esm;
    destruct (dict_mem (envelopes s) (row, col)) eqn:Eenv;
    cbn [andb]; run_monad; rewrite ?Esm, Hgone; run_monad; rewrite Ef';
    run_monad; rewrite ?Esm; run_monad;
    (eexists; split; [reflexivity|]);
    cbn [oscillators envelopes issued frequency_range amplitude waveform
         smooth_transitions];
    rewrite <- ?app_assoc; cbn [app];
    (split; [easy|]); (split; [reflexivity|]); (split; [reflexivity|]);
    intros k' Hne;
    rewrite ?dict_mem_set_other, ?dict_mem_del_other by assumption; reflexivity.
Qed.

Lemma restart_cmds_stable cls g s s' k :
  same_params s s' ->
  dict_mem (envelopes s') k = dict_mem (envelopes s) k ->
  restart_cmds cls g s' k = restart_cmds cls g s k.
Proof.
  intros (Hf & Ha & _ & Hs) He. unfold restart_cmds, new_fader.
  now rewrite Hs, He, Ha, (voice_freq_params g s s' k Hf).
Qed.

Lemma restart_loop g (todo : dict (Osc F)) :
  forall (acc : dict (Osc F)) s,
  oscillators s = todo ++ acc ->
  dict_ok (todo ++ acc) ->
  (forall k, In k (dict_keys todo) -> frequency_defined g s k) ->
  exists s',
    for_ (dict_keys todo)
      (fun key => let '(row, col) := key in
                  stop_sound row col ;; play_sound g row col) s = (Ok tt, s') /\
    same_params s s' /\
    oscillators s'
    = acc ++ map (fun kv =>
               (fst kv, mkOsc (get_waveform_class (waveform s))
                          (voice_freq g s (fst kv)) (new_mul s))) todo /\
    issued s'
    = issued s
      ++ flat_map (restart_cmds (get_waveform_class (waveform s)) g s)
           (dict_keys todo) /\
    forall k, ~ In k (dict_keys todo) ->
      dict_mem (envelopes s') k = dict_mem (envelopes s) k.
Proof.
  induction todo as [|[k v] todo IH]; intros acc s Hosc Hok Hdef.
  - exists s. cbn [dict_keys map for_ flat_map]. rewrite !app_nil_r.
    unfold same_params. repeat split; trivial.
  - cbn [dict_keys map for_ fst] in *. fold (dict_keys todo) in *.
    unfold dict_ok in Hok. cbn [app dict_keys map fst] in Hok.
    fold (dict_keys (todo ++ acc)) in Hok. apply NoDup_cons_iff in Hok.
    destruct Hok as [Hfresh Hok].
    destruct (restart_one g s k) as [s1 (E1 & Hp1 & Ho1 & Hi1 & He1)];
      [apply Hdef; now left | rewrite Hosc; now left |].
    rewrite Hosc in Ho1. cbn [app] in Ho1.
    rewrite dict_del_head, dict_set_fresh in Ho1 by assumption.
    rewrite <- app_assoc in Ho1.
    pose proof Hp1 as (Hf1 & Ha1 & Hw1 & Hs1).
    destruct (IH (acc ++ [(k, mkOsc (get_waveform_class (waveform s))
                                 (voice_freq g s k) (new_mul s))]) s1)
      as [s' (E' & Hp' & Ho' & Hi' & He')].
    + exact Ho1.
    + unfold dict_ok. rewrite !dict_keys_app in *. cbn [dict_keys map fst].
      rewrite app_assoc.
      apply (NoDup_Add (Add_app k (dict_keys todo ++ dict_keys acc) [])).
      rewrite app_nil_r. now split.
    + intros k' Hk'. apply (frequency_defined_params g s s1 k' Hf1).
      apply Hdef. now right.
    + assert (Hnk : ~ In k (dict_keys todo)).
      { intros Hk. apply Hfresh. rewrite dict_keys_app. apply in_or_app. now left. }
      exists s'. split.
      { destruct k as [row col]. unfold bind at 1. cbn [fst snd] in E1.
        rewrite E1. exact E'. }
      split.
      { destruct Hp' as (Hf' & Ha' & Hw' & Hs'). unfold same_params.
        repeat split; congruence. }
      split.
      { rewrite Ho', <- app_assoc. cbn [app]. f_equal. f_equal.
        apply map_ext. intros kv. unfold new_mul, new_fader.
        now rewrite Hw1, Hs1, Ha1, (voice_freq_params g s s1 _ Hf1). }
      split.
      { rewrite Hi', Hi1, <- app_assoc. f_equal. cbn [flat_map]. f_equal.
        rewrite Hw1. apply flat_map_ext_in. intros k' Hk'.
        apply restart_cmds_stable; [exact Hp1|]. apply He1. congruence. }
      intros k' Hk'. rewrite He' by (intros Hk; apply Hk'; now right).
      apply He1. intros ->. apply Hk'. now left.
Qed.

Lemma restart_cmds_count cls g s (ks : list key) :
  length (filter is_stop (flat_map (restart_cmds cls g s) ks)) = length ks /\
  length (filter is_start (flat_map (restart_cmds cls g s) ks)) = length ks.
Proof.
  induction ks as [|k ks [IH1 IH2]]; [now split|].
  cbn [flat_map]. rewrite !filter_app, !length_app, IH1, IH2.
  unfold restart_cmds.
  destruct (smooth_transitions s); destruct (dict_mem (envelopes s) k);
    cbn; now split.
Qed.

Lemma dict_get_map_values (f : key -> Osc F) (d : dict (Osc F)) k :
  dict_get (map (fun kv => (fst kv, f (fst kv))) d) k
  = match dict_get d k with Some _ => Some (f k) | None => None end.
Proof.
  induction d as [|[k0 v0] d IH]; cbn [map dict_get fst]; [reflexivity|].
  destruct (key_eqb_spec k k0) as [->|]; [reflexivity | exact IH].
Qed.

Lemma set_waveform_spec g (waveform_type : string) self :
  dict_ok (oscillators self) ->
  (forall k, In k (dict_keys (oscillators self)) -> frequency_defined g self k) ->
  exists self',
    set_waveform g waveform_type self = (Ok tt, self') /\
    waveform self' = waveform_type /\
    issued self'
    = issued self
      ++ flat_map (restart_cmds (get_waveform_class waveform_type) g self)
           (dict_keys (oscillators self)) /\
    dict_keys (oscillators self') = dict_keys (oscillators self) /\
    forall k osc, dict_get (oscillators self) k = Some osc ->
      exists freq,
        calculate_frequency g self (fst k) (snd k) = Ok freq /\
        dict_get (oscillators self') k
        = Some (mkOsc (get_waveform_class waveform_type) freq (new_mul self)).
Proof.
  intros Hok Hdef. unfold set_waveform, update_all_waveforms. run_monad.
  set (sw := mkSoundManager (frequency_range self) (amplitude self) waveform_type
               (smooth_transitions self) (oscillators self) (envelopes self)
               (issued self)).
  destruct (restart_loop g (oscillators self) [] sw)
    as [s' (E & Hp & Ho & Hi & He)].
  - now rewrite app_nil_r.
  - now rewrite app_nil_r.
  - intros k Hk. destruct (Hdef k Hk) as [freq Ef]. now exists freq.
  - exists s'. split; [exact E|]. destruct Hp as (Hf & Ha & Hw & Hs).
    split; [exact Hw|]. split; [exact Hi|]. split.
    + rewrite Ho. cbn [app]. unfold dict_keys. rewrite map_map. reflexivity.
    + intros k osc Hget. pose proof (dict_get_In _ _ _ Hget) as Hk.
      destruct (Hdef k Hk) as [freq Ef].
      exists freq. split; [exact Ef|].
      rewrite Ho. cbn [app].
      rewrite (dict_get_map_values
                 (fun k => mkOsc (get_waveform_class (waveform sw))
                             (voice_freq g sw k) (new_mul sw))).
      rewrite Hget. unfold voice_freq.
      change (calculate_frequency g sw (fst k) (snd k))
        with (calculate_frequency g self (fst k) (snd k)).
      rewrite Ef. reflexivity.
Qed.

(** [set_waveform] when [calculate_frequency] raises at the key [k] and
    returns at the keys before it: the voices before [k] are restarted,
    the voice at [k] is stopped and is no longer registered, and the
    voices after [k] are as they were. *)
Lemma set_waveform_raises g (waveform_type : string) self
    (done rest : list key) k (e : exn) :
  dict_ok (oscillators self) ->
  dict_keys (oscillators self) = done ++ k :: rest ->
  (forall k', In k' done -> frequency_defined g self k') ->
  calculate_frequency g self (fst k) (snd k) = Raise e ->
  exists self',
    set_waveform g waveform_type self = (Raise e, self') /\
    waveform self' = waveform_type /\
    dict_keys (oscillators self') = rest ++ done /\
    issued self'
    = issued self
      ++ flat_map (restart_cmds (get_waveform_class waveform_type) g self) done
      ++ stop_cmds self k.
Proof.
  intros Hok Hkeys Hdef He.
  set (sw := mkSoundManager (frequency_range self) (amplitude self) waveform_type
               (smooth_transitions self) (oscillators self) (envelopes self)
               (issued self)).
  change (set_waveform g waveform_type self)
    with (for_ (dict_keys (oscillators self))
            (fun key => let '(row, col) := key in
                        stop_sound row col ;; play_sound g row col) sw).
  destruct (map_eq_app _ _ _ _ Hkeys) as [d1 [d2 (Hsplit & Hd1 & Hd2)]].
  destruct d2 as [|[k0 v] d2]; [discriminate|].
  cbn [map fst] in Hd2. injection Hd2 as -> Hd2.
  rewrite Hkeys, for_app. unfold bind at 1.
  assert (Hnodup : NoDup (done ++ k :: rest)) by (rewrite <- Hkeys; exact Hok).
  destruct (restart_loop g d1 ((k, v) :: d2) sw)
    as [s1 (E1 & Hp1 & Ho1 & Hi1 & He1)].
  - exact Hsplit.
  - unfold dict_ok. now rewrite <- Hsplit.
  - intros k' Hk'. fold (dict_keys d1) in Hd1. rewrite Hd1 in Hk'.
    destruct (Hdef k' Hk') as [freq Ef]. now exists freq.
  - fold (dict_keys d1) in Hd1. fold (dict_keys d2) in Hd2.
    rewrite Hd1 in E1, Hi1, He1. rewrite E1.
    cbn [for_]. destruct k as [row col]. cbn [fst snd] in He.
    unfold bind at 1 2.
    set (renewed := map (fun kv : key * Osc F =>
                      (fst kv, mkOsc (get_waveform_class (waveform sw))
                                 (voice_freq g sw (fst kv)) (new_mul sw))) d1)
      in Ho1.
    assert (Hren : dict_keys renewed = done).
    { subst renewed. unfold dict_keys. rewrite map_map. exact Hd1. }
    assert (Hfresh : ~ In (row, col) (dict_keys (d2 ++ renewed))).
    { rewrite dict_keys_app, Hd2, Hren. intros Hin.
      apply (NoDup_remove_2 _ _ _ Hnodup).
      apply in_app_or in Hin. apply in_or_app. tauto. }
    assert (Hm : dict_mem (oscillators s1) (row, col) = true).
    { apply dict_mem_true. rewrite Ho1. cbn [app dict_keys map fst]. now left. }
    rewrite (stop_sound_present row col s1 Hm).
    destruct Hp1 as (Hf1 & Ha1 & Hw1 & Hs1).
    rewrite (play_sound_raises g row col _ e).
    + eexists. split; [reflexivity|].
      cbn [with_voices waveform oscillators issued]. split; [exact Hw1|]. split.
      * rewrite Ho1. cbn [app]. rewrite dict_del_head by exact Hfresh.
        now rewrite dict_keys_app, Hd2, Hren.
      * rewrite Hi1, <- app_assoc. f_equal. f_equal.
        unfold stop_cmds. rewrite Hs1, He1; [reflexivity|].
        intros Hin. apply (NoDup_remove_2 _ _ _ Hnodup). apply in_or_app. now left.
    + rewrite <- He. apply calculate_frequency_params. exact Hf1.
    + cbn [with_voices oscillators]. rewrite Ho1. cbn [app].
      rewrite dict_del_head by exact Hfresh. now apply dict_mem_false.
Qed.

(** Either [calculate_frequency] returns at every key of a list, or there
    is a first key at which it raises. *)
Lemma first_undefined g s (ks : list key) :
  (forall k, In k ks -> frequency_defined g s k) \/
  (exists (done rest : list key) (k : key) (e : exn),
     ks = done ++ k :: rest /\
     (forall k', In k' done -> frequency_defined g s k') /\
     calculate_frequency g s (fst k) (snd k) = Raise e).
Proof.
  induction ks as [|k ks IH].
  - left. intros k [].
  - destruct (calculate_frequency g s (fst k) (snd k)) as [freq|e] eqn:Ek.
    + destruct IH as [Hall|[done [rest [k0 [e (Hks & Hdone & He)]]]]].
      * left. intros k' [<-|Hk']; [now exists freq | now apply Hall].
      * right. exists (k :: done), rest, k0, e. split; [now rewrite Hks|].
        split; [|exact He].
        intros k' [<-|Hk']; [now exists freq | now apply Hdone].
    + right. exists [], ks, k, e. split; [reflexivity|]. split; [intros k' []|].
      exact Ek.
Qed.

Lemma set_waveform_range g (waveform_type : string) s :
  frequency_range (snd (set_waveform g waveform_type s)) = frequency_range s.
Proof.
  assert (Hp : preserves (fun s' : SoundManager F =>
                            frequency_range s' = frequency_range s)
                 (set_waveform g waveform_type)).
  { unfold set_waveform, update_all_waveforms.
    apply preserves_bind; [apply preserves_modify; now intros s0 Hs0|].
    intros _. apply preserves_bind; [now intros s0 Hs0|]. intros self0.
    apply preserves_for. intros [row col] _.
    apply preserves_bind.
    - intros s0 Hs0. now rewrite stop_sound_range.
    - intros _ s0 Hs0. now rewrite play_sound_range. }
  now apply Hp.
Qed.

Lemma shutdown_spec self :
  exists self',
    shutdown self = (Ok tt, self') /\
    oscillators self' = oscillators self /\
    envelopes self' = envelopes self /\
    issued self' = issued self ++ [ServerStop].
Proof. eexists. split; [reflexivity|]. now repeat split. Qed.

End SoundManagerFacts.

(** * The claims of the specification *)

(** C1.  [update_grid] computes the next generation synchronously.  On a grid
    whose array has the recorded shape the call returns normally and keeps
    the dimensions and the rules.  [count_alive_neighbors] returns, at every
    cell, the number of live cells among the eight Moore neighbours, a
    position outside the boundary holding no live cell and nothing wrapping
    around.  Every cell of the array that replaces [self.grid] is
    [next_state] of the old value of the cell and of that count, both read
    in the grid as it was when the call began. *)
Theorem update_grid_synchronous (g : Grid) :
  Grid_ok g ->
  (forall row col,
     count_alive_neighbors g row col = Ok (moore_count g row col)) /\
  exists g',
    update_grid g = (Ok tt, g') /\
    rows g' = rows g /\ cols g' = cols g /\ rules g' = rules g /\ Grid_ok g' /\
    forall row col, row < rows g -> col < cols g ->
      getitem (grid g') row col
      = Ok (next_state (rules g) (cell (grid g) row col) (moore_count g row col)).
Proof.
  intros Hg. split.
  - intros row col. now apply count_alive_neighbors_moore.
  - now apply update_grid_spec.
Qed.

Lemma update_grid_synchronous_witness :
  exists g',
    update_grid (mkGrid 5 5 (blinker_h 5 5 2 2) conway) = (Ok tt, g') /\
    getitem (grid g') 1 2 = Ok true.
Proof.
  destruct (update_grid_synchronous (mkGrid 5 5 (blinker_h 5 5 2 2) conway))
    as [_ [g' (E & _ & _ & _ & _ & Hcell)]].
  - split; [reflexivity | repeat constructor].
  - exists g'. split; [exact E|].
    rewrite Hcell; [reflexivity | cbn; lia | cbn; lia].
Defined.

(** C2.  The registry follows the live cells.  Let the keys of the
    registry be the live coordinates of [previous_grid] and the grids have
    the dimensions of the manager's grid.  Whenever [update_sounds]
    returns, the keys of the registry are the live coordinates of
    [current_grid], and whenever a sequence of such calls returns, each
    made on the grid of the call before and the next grid, they are the
    live coordinates of the last grid.  A call that does not return raises
    what [calculate_frequency] raises at a cell of the grid, so the calls
    do return when [calculate_frequency] returns a frequency at the cells
    of the grid. *)
Theorem update_sounds_registry_invariant {F : Type} `{PyFloat F}
    (g : Grid) (previous_grid : ndarray) (grids : list ndarray)
    (self : SoundManager F) :
  has_shape (rows g) (cols g) previous_grid ->
  Forall (has_shape (rows g) (cols g)) grids ->
  registry_matches self previous_grid ->
  (forall current_grid self',
     has_shape (rows g) (cols g) current_grid ->
     update_sounds g previous_grid current_grid self = (Ok tt, self') ->
     registry_matches self' current_grid) /\
  (forall self',
     reconcile_seq g previous_grid grids self = (Ok tt, self') ->
     registry_matches self' (last grids previous_grid)) /\
  (forall current_grid (e : exn) self',
     has_shape (rows g) (cols g) current_grid ->
     update_sounds g previous_grid current_grid self = (Raise e, self') ->
     exists k, fst k < rows g /\ snd k < cols g /\
       calculate_frequency g self (fst k) (snd k) = Raise e) /\
  ((forall k, fst k < rows g -> snd k < cols g -> frequency_defined g self k) ->
   (forall current_grid, has_shape (rows g) (cols g) current_grid ->
      exists self',
        update_sounds g previous_grid current_grid self = (Ok tt, self') /\
        registry_matches self' current_grid) /\
   (exists self',
      reconcile_seq g previous_grid grids self = (Ok tt, self') /\
      registry_matches self' (last grids previous_grid))).
Proof.
  intros Hp Hgs Hm. split; [|split; [|split]].
  - intros current_grid self' Hc E.
    now apply (update_sounds_returns g previous_grid current_grid self self').
  - intros self' E.
    now apply (reconcile_seq_returns g grids Hgs previous_grid self self').
  - intros current_grid e self' Hc E.
    destruct (update_sounds_outcome g previous_grid current_grid self Hp Hc Hm)
      as [[s1 [E1 _]]|[e1 [s1 [E1 Hk]]]]; [congruence|].
    assert (e1 = e) by congruence. now subst e1.
  - intros Hdef. split.
    + intros current_grid Hc.
      destruct (update_sounds_registry g previous_grid current_grid self
                  Hp Hc Hm Hdef) as [self' (E & _ & Hm')].
      now exists self'.
    + now apply reconcile_seq_registry.
Qed.

Lemma update_sounds_registry_invariant_witness :
  exists self' : SoundManager float,
    reconcile_seq (Grid_init 2 2) (zeros 2 2) [diagonal_2x2; zeros 2 2]
      SoundManager_init = (Ok tt, self') /\
    registry_matches self' (zeros 2 2).
Proof.
  apply (update_sounds_registry_invariant (Grid_init 2 2) (zeros 2 2)
           [diagonal_2x2; zeros 2 2] SoundManager_init).
  - split; [reflexivity | repeat constructor].
  - repeat constructor.
  - intros k. split; [intros [] | intros Ha].
    exact (not_alive_zeros 2 2 k Ha).
  - intros [[|[|row]] [|[|col]]] Hr Hc; cbn in Hr, Hc; try lia;
      (eexists; vm_compute; reflexivity).
Defined.

(** C3, as the code has it.  [shutdown] stops the pyo server and does
    nothing else: it issues the one call [ServerStop], no call on any
    oscillator or envelope, and leaves the registry as it was.  A second
    call stops the server once more and again leaves the registry as it
    was; neither call issues a stop for a voice. *)
Theorem shutdown_stops_server_only {F : Type} `{PyFloat F}
    (self : SoundManager F) :
  exists self1 self2,
    shutdown self = (Ok tt, self1) /\
    shutdown self1 = (Ok tt, self2) /\
    oscillators self1 = oscillators self /\
    oscillators self2 = oscillators self /\
    envelopes self1 = envelopes self /\
    envelopes self2 = envelopes self /\
    issued self1 = issued self ++ [ServerStop] /\
    issued self2 = issued self ++ [ServerStop; ServerStop].
Proof.
  destruct (shutdown_spec self) as [self1 (E1 & Ho1 & He1 & Hi1)].
  destruct (shutdown_spec self1) as [self2 (E2 & Ho2 & He2 & Hi2)].
  exists self1, self2. repeat split; try congruence.
  rewrite Hi2, Hi1, <- app_assoc. reflexivity.
Qed.

(** With one voice active, [shutdown] issues no stop for it and the
    registry still holds it. *)
Lemma shutdown_keeps_registry :
  exists self',
    shutdown one_voice = (Ok tt, self') /\
    dict_keys (oscillators one_voice) = [(0, 0)] /\
    dict_keys (oscillators self') = [(0, 0)] /\
    filter is_stop (issued self') = [].
Proof. eexists. repeat split. Qed.

(** C4, as the code has it.  [update_sounds] compares no dimensions.  It
    reads both arrays at the cells of the manager's grid and nowhere else:
    a call does what the call on the two arrays cut down to the manager's
    grid does.  Where [calculate_frequency] returns a frequency at the
    cells of that grid, the call returns normally when both arrays cover
    the grid, whatever their own dimensions, and then the registry goes
    from the live cells of the first array inside the grid to those of the
    second; and it raises [IndexError] when the manager's grid is not empty
    and one of the arrays has fewer rows or fewer columns than it. *)
Theorem update_sounds_index_error {F : Type} `{PyFloat F}
    (g : Grid) (pr pc cr cc : nat) (previous_grid current_grid : ndarray)
    (self : SoundManager F) :
  has_shape pr pc previous_grid ->
  has_shape cr cc current_grid ->
  update_sounds g previous_grid current_grid self
  = update_sounds g (slice2 previous_grid (rows g) (cols g))
      (slice2 current_grid (rows g) (cols g)) self /\
  ((forall k, fst k < rows g -> snd k < cols g -> frequency_defined g self k) ->
   (rows g <= pr -> cols g <= pc -> rows g <= cr -> cols g <= cc ->
    exists self',
      update_sounds g previous_grid current_grid self = (Ok tt, self') /\
      (registry_matches self (slice2 previous_grid (rows g) (cols g)) ->
       registry_matches self' (slice2 current_grid (rows g) (cols g)))) /\
   (0 < rows g -> 0 < cols g ->
    pr < rows g \/ pc < cols g \/ cr < rows g \/ cc < cols g ->
    exists self',
      update_sounds g previous_grid current_grid self
      = (Raise IndexError, self'))).
Proof.
  intros Hp Hc. split; [apply update_sounds_slices|]. intros Hdef. split.
  - intros H1 H2 H3 H4.
    destruct (update_sounds_covering g pr pc cr cc previous_grid current_grid
                self Hp Hc Hdef H1 H2 H3 H4) as [self' E].
    exists self'. split; [exact E|]. intros Hm.
    rewrite update_sounds_slices in E.
    apply (update_sounds_returns g (slice2 previous_grid (rows g) (cols g))
             (slice2 current_grid (rows g) (cols g)) self self'); trivial.
    + now apply (has_shape_slice2 pr pc).
    + now apply (has_shape_slice2 cr cc).
  - intros. now apply (update_sounds_too_small g pr pc cr cc).
Qed.

Lemma update_sounds_index_error_witness :
  exists self' : SoundManager float,
    update_sounds (Grid_init 2 2) [[false]] diagonal_2x2 SoundManager_init
    = (Raise IndexError, self').
Proof.
  apply (update_sounds_index_error (Grid_init 2 2) 1 1 2 2 [[false]]
           diagonal_2x2 SoundManager_init).
  - split; [reflexivity | repeat constructor].
  - split; [reflexivity | repeat constructor].
  - intros [[|[|row]] [|[|col]]] Hr Hc; cbn in Hr, Hc; try lia;
      (eexists; vm_compute; reflexivity).
  - cbn; lia.
  - cbn; lia.
  - cbn; lia.
Defined.

(** A 1 by 1 array and a 2 by 2 array are accepted by a manager whose grid
    is 1 by 1: the call returns normally, and of the four live cells of the
    second array only the one inside the manager's grid gets a voice. *)
Lemma update_sounds_mismatch_accepted :
  has_shape 1 1 [[false]] /\
  has_shape 2 2 [[true; true]; [true; true]] /\
  exists self' : SoundManager Q,
    update_sounds (Grid_init 1 1) [[false]] [[true; true]; [true; true]]
      SoundManager_init = (Ok tt, self') /\
    dict_keys (oscillators self') = [(0, 0)].
Proof.
  split; [split; [reflexivity | repeat constructor]|].
  split; [split; [reflexivity | repeat constructor]|].
  eexists. split; reflexivity.
Qed.

(** C5, as the code has it.  One step of an all-dead grid gives every cell
    the value "0 is in [birth]": the grid stays all-dead under every rule
    set whose birth list does not contain 0, and becomes all-alive under
    the others.  The survival list plays no part. *)
Theorem update_grid_all_dead (r c : nat) (ru : Rules) :
  exists g',
    update_grid (mkGrid r c (zeros r c) ru) = (Ok tt, g') /\
    rows g' = r /\ cols g' = c /\ rules g' = ru /\
    (forall i j, i < r -> j < c ->
       getitem (grid g') i j = Ok (py_in 0 (birth ru))) /\
    (py_in 0 (birth ru) = false -> grid g' = zeros r c).
Proof.
  destruct (update_grid_zeros r c ru) as [g' (E & Hr & Hc & Hru & Hok & Hcell)].
  exists g'. repeat split; try assumption.
  intros Hb. unfold Grid_ok in Hok. rewrite Hr, Hc in Hok.
  apply (ndarray_ext r c); [exact Hok | apply has_shape_zeros |].
  intros i j Hi Hj. specialize (Hcell i j Hi Hj).
  rewrite (getitem_cell r c) in Hcell by assumption.
  rewrite cell_zeros. congruence.
Qed.

Lemma update_grid_all_dead_witness :
  exists g',
    update_grid (mkGrid 3 3 (zeros 3 3) conway) = (Ok tt, g') /\
    grid g' = zeros 3 3.
Proof.
  destruct (update_grid_all_dead 3 3 conway) as [g' (E & _ & _ & _ & _ & Hz)].
  exists g'. split; [exact E|]. apply Hz. reflexivity.
Defined.

(** Under a rule set with 0 in [birth], the dead cell of a 1 by 1 grid is
    born. *)
Lemma all_dead_grid_comes_alive :
  update_grid (mkGrid 1 1 (zeros 1 1) (mkRules [0%Z] []))
  = (Ok tt, mkGrid 1 1 [[true]] (mkRules [0%Z] [])).
Proof. reflexivity. Qed.

(** C6.  The frequency mapping.  [calculate_frequency] depends on nothing
    but the cell, the frequency range and the dimensions of the grid.  It
    raises [ZeroDivisionError] when the grid has no row or no column, and
    otherwise returns, in exact arithmetic,
    [fmin + (fmax - fmin) * (col / cols) + 0.5 * (fmax - fmin) * (row / rows)].
    In binary64, with the range (200, 1000) on a 20 by 20 grid, the cell
    (0, 0) maps to 200.0 and the cell (19, 19) to 1340.0. *)
Theorem calculate_frequency_formula :
  (forall (F : Type) (PF : PyFloat F) (g g' : Grid) (self self' : SoundManager F)
          (row col : nat),
     frequency_range self = frequency_range self' ->
     rows g = rows g' -> cols g = cols g' ->
     calculate_frequency g self row col = calculate_frequency g' self' row col) /\
  (forall (g : Grid) (self : SoundManager Q) (row col : nat),
     match calculate_frequency g self row col with
     | Ok freq =>
         rows g <> 0 /\ cols g <> 0 /\
         (freq == frequency_formula (fst (frequency_range self))
                    (snd (frequency_range self)) (rows g) (cols g) row col)%Q
     | Raise e => e = ZeroDivisionError /\ (rows g = 0 \/ cols g = 0)
     end) /\
  calculate_frequency (Grid_init 20 20) (SoundManager_init (F := float)) 0 0
  = Ok 200%float /\
  calculate_frequency (Grid_init 20 20) (SoundManager_init (F := float)) 19 19
  = Ok 1340%float.
Proof.
  split; [|split; [|split]].
  - intros F PF g g' self self' row col Hf Hr Hc.
    unfold calculate_frequency. now rewrite Hf, Hr, Hc.
  - intros g self row col.
    destruct (Nat.eq_dec (rows g) 0) as [Hr|Hr];
      [|destruct (Nat.eq_dec (cols g) 0) as [Hc|Hc]].
    + unfold calculate_frequency. cbn [of_int truediv PyFloat_Q]. rewrite Hr.
      destruct (Z.of_nat (cols g) =? 0)%Z; cbn; split; try reflexivity; now left.
    + unfold calculate_frequency. cbn [of_int truediv PyFloat_Q]. rewrite Hc.
      cbn. split; [reflexivity | now right].
    + destruct (calculate_frequency_Q g self row col Hr Hc) as [freq [-> Hf]].
      repeat split; assumption.
  - vm_compute. reflexivity.
  - vm_compute. reflexivity.
Qed.

Lemma calculate_frequency_formula_witness :
  calculate_frequency (Grid_init 20 20) (SoundManager_init (F := Q)) 3 4
  = calculate_frequency (mkGrid 20 20 [] conway) two_voices 3 4.
Proof.
  apply (proj1 calculate_frequency_formula Q PyFloat_Q); reflexivity.
Defined.

(** C7, as the code has it.  Changing the waveform restarts the voices one
    by one, and a restart can fail.  On a registry of [N] voices:

    - when [calculate_frequency] returns a frequency at every registered
      key, inside the grid or not, [set_waveform] returns normally; it
      issues, for each key of the registry in turn, one stop and then one
      start of the voice at that key, so [N] stops and [N] starts in all;
      the registry has the same keys afterwards; and the voice at a key has
      the oscillator class of the new waveform, the stored amplitude, and
      the frequency [calculate_frequency] gives the key, which is the
      frequency of the voice it replaces when that one was computed for
      the same range and the same dimensions;
    - when [calculate_frequency] raises at a registered key and returns at
      the keys before it, [set_waveform] raises the same exception: the
      voices before that key are restarted, the voice at that key is
      stopped, not started again and no longer registered, and the voices
      after it are neither stopped nor restarted.

    Every registry is in one of the two cases. *)
Theorem set_waveform_restarts_every_voice {F : Type} `{PyFloat F}
    (g : Grid) (waveform_type : string) (self : SoundManager F) :
  dict_ok (oscillators self) ->
  let cls := get_waveform_class waveform_type in
  ((forall k, In k (dict_keys (oscillators self)) -> frequency_defined g self k) ->
   let cmds := flat_map (restart_cmds cls g self) (dict_keys (oscillators self)) in
   exists self',
     set_waveform g waveform_type self = (Ok tt, self') /\
     waveform self' = waveform_type /\
     issued self' = issued self ++ cmds /\
     length (filter is_stop cmds) = length (oscillators self) /\
     length (filter is_start cmds) = length (oscillators self) /\
     dict_keys (oscillators self') = dict_keys (oscillators self) /\
     (forall k osc, dict_get (oscillators self) k = Some osc ->
        exists freq,
          calculate_frequency g self (fst k) (snd k) = Ok freq /\
          dict_get (oscillators self') k = Some (mkOsc cls freq (new_mul self)) /\
          (forall (g0 : Grid) (self0 : SoundManager F),
             frequency_range self0 = frequency_range self ->
             rows g0 = rows g -> cols g0 = cols g ->
             calculate_frequency g0 self0 (fst k) (snd k) = Ok (osc_freq osc) ->
             freq = osc_freq osc))) /\
  (forall (done rest : list key) (k : key) (e : exn),
     dict_keys (oscillators self) = done ++ k :: rest ->
     (forall k', In k' done -> frequency_defined g self k') ->
     calculate_frequency g self (fst k) (snd k) = Raise e ->
     let cmds := flat_map (restart_cmds cls g self) done ++ stop_cmds self k in
     exists self',
       set_waveform g waveform_type self = (Raise e, self') /\
       waveform self' = waveform_type /\
       issued self' = issued self ++ cmds /\
       length (filter is_stop cmds) = S (length done) /\
       length (filter is_start cmds) = length done /\
       dict_keys (oscillators self') = rest ++ done) /\
  ((forall k, In k (dict_keys (oscillators self)) -> frequency_defined g self k) \/
   (exists (done rest : list key) (k : key) (e : exn),
      dict_keys (oscillators self) = done ++ k :: rest /\
      (forall k', In k' done -> frequency_defined g self k') /\
      calculate_frequency g self (fst k) (snd k) = Raise e)) /\
  get_waveform_class "Sine" = Sine /\
  get_waveform_class "Square" = Square /\
  get_waveform_class "Sawtooth" = Saw /\
  get_waveform_class "Triangle" = Tri.
Proof.
  intros Hok cls. split; [|split; [|split]].
  - intros Hdef cmds.
    destruct (set_waveform_spec g waveform_type self Hok Hdef)
      as [self' (E & Hw & Hi & Hk & Hv)].
    destruct (restart_cmds_count cls g self (dict_keys (oscillators self)))
      as [Hstop Hstart].
    unfold dict_keys in Hstop at 2, Hstart at 2.
    rewrite length_map in Hstop, Hstart.
    exists self'. repeat (split; [assumption|]).
    intros k osc Hget. destruct (Hv k osc Hget) as [freq [Ef Hnew]].
    exists freq. split; [exact Ef|]. split; [exact Hnew|].
    intros g0 self0 Hf Hr Hc E0.
    assert (E1 : calculate_frequency g0 self0 (fst k) (snd k)
                 = calculate_frequency g self (fst k) (snd k)).
    { unfold calculate_frequency. now rewrite Hf, Hr, Hc. }
    congruence.
  - intros done rest k e Hkeys Hdef He cmds.
    destruct (set_waveform_raises g waveform_type self done rest k e
                Hok Hkeys Hdef He) as [self' (E & Hw & Hk & Hi)].
    destruct (restart_cmds_count cls g self done) as [Hstop Hstart].
    exists self'. split; [exact E|]. split; [exact Hw|]. split; [exact Hi|].
    subst cmds. rewrite !filter_app, !length_app, Hstop, Hstart.
    unfold stop_cmds.
    destruct (smooth_transitions self && dict_mem (envelopes self) k);
      cbn; repeat split; trivial; lia.
  - apply first_undefined.
  - repeat split.
Qed.

Lemma set_waveform_restarts_every_voice_witness :
  (exists self',
     set_waveform (Grid_init 2 2) "Square" two_voices = (Ok tt, self') /\
     dict_keys (oscillators self') = [(0, 0); (1, 1)]) /\
  (exists self',
     set_waveform emptied_grid "Square" two_voices
     = (Raise ZeroDivisionError, self') /\
     dict_keys (oscillators self') = [(1, 1)]).
Proof.
  assert (Hok : dict_ok (oscillators two_voices))
    by (repeat constructor; cbn; intuition discriminate).
  destruct (set_waveform_restarts_every_voice (Grid_init 2 2) "Square"
              two_voices Hok) as [Hall _].
  destruct (set_waveform_restarts_every_voice emptied_grid "Square"
              two_voices Hok) as [_ [Hfail _]].
  split.
  - destruct Hall as [self' (E & _ & _ & _ & _ & Hk & _)].
    + intros k [<-|[<-|[]]]; eexists; reflexivity.
    + exists self'. split; [exact E | exact Hk].
  - destruct (Hfail [] [(1, 1)] (0, 0) ZeroDivisionError)
      as [self' (E & _ & _ & _ & _ & Hk)].
    + reflexivity.
    + intros k' [].
    + reflexivity.
    + exists self'. split; [exact E | exact Hk].
Defined.

(** On a grid resized to no rows and no columns while two voices are
    registered, [set_waveform] stops the first voice and raises
    [ZeroDivisionError]: one stop and no start are issued, and of the two
    keys only the second is still registered. *)
Lemma set_waveform_loses_a_voice :
  rows emptied_grid = 0 /\
  dict_keys (oscillators two_voices) = [(0, 0); (1, 1)] /\
  exists self',
    set_waveform emptied_grid "Square" two_voices
    = (Raise ZeroDivisionError, self') /\
    dict_keys (oscillators self') = [(1, 1)] /\
    issued self' = issued two_voices ++ [FaderStop (0, 0); OscStop (0, 0)].
Proof.
  split; [reflexivity|]. split; [reflexivity|].
  eexists. split; [vm_compute; reflexivity|]. split; reflexivity.
Qed.

(** C8.  Resizing keeps the top-left overlap.  On a grid whose array has
    the recorded shape, [resize_grid] returns normally, for smaller as for
    larger dimensions; the grid has the new dimensions; a cell inside the
    rectangle of [min(rows, new_rows)] rows and [min(cols, new_cols)]
    columns keeps its value, every other cell is dead. *)
Theorem resize_grid_keeps_overlap (g : Grid) (new_rows new_cols : nat) :
  Grid_ok g ->
  exists g',
    resize_grid new_rows new_cols g = (Ok tt, g') /\
    rows g' = new_rows /\ cols g' = new_cols /\ rules g' = rules g /\
    Grid_ok g' /\
    forall r c, r < new_rows -> c < new_cols ->
      getitem (grid g') r c
      = Ok (if (r <? Nat.min (rows g) new_rows) && (c <? Nat.min (cols g) new_cols)
            then cell (grid g) r c else false).
Proof.
  intros Hg. unfold resize_grid, modify. eexists. split; [reflexivity|].
  cbn [rows cols rules grid].
  set (mr := Nat.min (rows g) new_rows). set (mc := Nat.min (cols g) new_cols).
  assert (Hsl : has_shape mr mc (slice2 (grid g) mr mc))
    by (apply (has_shape_slice2 (rows g) (cols g)); [exact Hg | lia | lia]).
  destruct (assign_block_spec new_rows new_cols mr mc _ _ Hsl
              (has_shape_zeros new_rows new_cols)) as [Hshape Hcell].
  repeat split; try apply Hshape.
  intros r c Hr Hc. rewrite (getitem_cell new_rows new_cols) by assumption.
  rewrite Hcell by assumption. f_equal.
  destruct (Nat.ltb_spec r mr); destruct (Nat.ltb_spec c mc); cbn [andb];
    try apply cell_zeros.
  now apply cell_slice2.
Qed.

Lemma resize_grid_keeps_overlap_witness :
  exists g',
    resize_grid 3 1 (mkGrid 2 2 diagonal_2x2 conway) = (Ok tt, g') /\
    grid g' = [[true]; [false]; [false]].
Proof.
  destruct (resize_grid_keeps_overlap (mkGrid 2 2 diagonal_2x2 conway) 3 1)
    as [g' (E & _)].
  - split; [reflexivity | repeat constructor].
  - exists g'. split; [exact E|]. injection E as <-. reflexivity.
Defined.

(** C9.  The blinker has period two.  Under B3/S23, on a grid of any
    dimensions, the three cells [(r, c-1)], [(r, c)], [(r, c+1)] placed so
    that the rows above and below them and the three cells themselves are
    inside the grid step to a different configuration, and that one steps
    back to exactly the original grid. *)
Theorem blinker_period_two (rows cols r c : nat) :
  1 <= r -> r + 1 < rows -> 1 <= c -> c + 1 < cols ->
  let g0 := mkGrid rows cols (blinker_h rows cols r c) conway in
  exists g1,
    update_grid g0 = (Ok tt, g1) /\
    grid g1 <> grid g0 /\
    update_grid g1 = (Ok tt, g0).
Proof.
  intros Hr1 Hr2 Hc1 Hc2 g0.
  exists (mkGrid rows cols (blinker_v rows cols r c) conway). split; [|split].
  - now apply blinker_h_step.
  - cbn [grid]. intros E. symmetry in E. revert E. now apply blinker_h_neq_v.
  - now apply blinker_v_step.
Qed.

Lemma blinker_period_two_witness :
  let cells :=
    [[false; false; false; false; false];
     [false; false; false; false; false];
     [false; true;  true;  true;  false];
     [false; false; false; false; false];
     [false; false; false; false; false]] in
  exists g1,
    update_grid (mkGrid 5 5 cells conway) = (Ok tt, g1) /\
    grid g1 <> cells /\
    update_grid g1 = (Ok tt, mkGrid 5 5 cells conway).
Proof.
  apply (blinker_period_two 5 5 2 2); lia.
Defined.

(** C10, as the code has it.  The frequency is not clamped to the range.
    In exact arithmetic, on a grid with at least one row and one column and
    with [fmin <= fmax], [calculate_frequency] is non-decreasing in the row
    and in the column; its greatest value over the cells of the grid is
    taken at the last cell and is
    [fmin + (fmax - fmin) * ((cols - 1) / cols + (rows - 1) / (2 * rows))];
    and with [fmin < fmax] this value exceeds [fmax] exactly when
    [(rows - 1) * (cols - 2) > 2]. *)
Theorem calculate_frequency_range (g : Grid) (self : SoundManager Q) :
  rows g <> 0 -> cols g <> 0 ->
  (fst (frequency_range self) <= snd (frequency_range self))%Z ->
  let fmin := fst (frequency_range self) in
  let fmax := snd (frequency_range self) in
  (forall row col row' col', row <= row' -> col <= col' ->
     exists f f',
       calculate_frequency g self row col = Ok f /\
       calculate_frequency g self row' col' = Ok f' /\ (f <= f')%Q) /\
  (exists fm,
     calculate_frequency g self (rows g - 1) (cols g - 1) = Ok fm /\
     (fm == frequency_max fmin fmax (rows g) (cols g))%Q /\
     forall row col, row < rows g -> col < cols g ->
       exists f, calculate_frequency g self row col = Ok f /\ (f <= fm)%Q) /\
  ((fmin < fmax)%Z ->
   ((inject_Z fmax < frequency_max fmin fmax (rows g) (cols g))%Q
    <-> 2 < (rows g - 1) * (cols g - 2))).
Proof.
  intros Hr Hc Hle fmin fmax.
  assert (Hmono : forall row col row' col', row <= row' -> col <= col' ->
    exists f f',
      calculate_frequency g self row col = Ok f /\
      calculate_frequency g self row' col' = Ok f' /\ (f <= f')%Q).
  { intros row col row' col' Hrow Hcol.
    destruct (calculate_frequency_Q g self row col Hr Hc) as [f [Ef Hf]].
    destruct (calculate_frequency_Q g self row' col' Hr Hc) as [f' [Ef' Hf']].
    exists f, f'. split; [exact Ef|]. split; [exact Ef'|].
    rewrite Hf, Hf'. now apply frequency_formula_mono. }
  split; [exact Hmono|]. split.
  - destruct (calculate_frequency_Q g self (rows g - 1) (cols g - 1) Hr Hc)
      as [fm [Em Hm]].
    exists fm. split; [exact Em|]. split.
    + rewrite Hm. now apply frequency_formula_corner.
    + intros row col Hrow Hcol.
      destruct (Hmono row col (rows g - 1) (cols g - 1)) as [f [f' (Ef & Ef' & Hff)]];
        [lia | lia |].
      exists f. split; [exact Ef|]. congruence.
  - intros Hlt. now apply frequency_max_exceeds.
Qed.

Lemma calculate_frequency_range_witness :
  (inject_Z 1000 < frequency_max 200 1000 20 20)%Q.
Proof.
  destruct (calculate_frequency_range (Grid_init 20 20) SoundManager_init)
    as (_ & _ & Hex).
  - cbn; lia.
  - cbn; lia.
  - cbn; lia.
  - apply Hex; cbn; lia.
Defined.

(** On a 2 by 2 grid with the range (200, 1000) the greatest frequency is
    800, below [fmax], in exact arithmetic and in binary64; and with the
    range (200, 100), which the frequency slider can set, the frequency
    falls from one column to the next. *)
Lemma frequency_claim_fails :
  (exists f,
     calculate_frequency (Grid_init 2 2) (SoundManager_init (F := Q)) 1 1 = Ok f /\
     (f == 800)%Q /\ ~ (1000 < f)%Q) /\
  calculate_frequency (Grid_init 2 2) (SoundManager_init (F := float)) 1 1
  = Ok 800%float /\
  frequency_range slider_at_minimum = (200%Z, 100%Z) /\
  (exists a b,
     calculate_frequency (Grid_init 2 2) slider_at_minimum 0 0 = Ok a /\
     calculate_frequency (Grid_init 2 2) slider_at_minimum 0 1 = Ok b /\
     ~ (a <= b)%Q).
Proof.
  split; [|split; [|split]].
  - eexists. split; [reflexivity|]. split; [reflexivity|]. now vm_compute.
  - vm_compute. reflexivity.
  - reflexivity.
  - eexists. eexists. split; [reflexivity|]. split; [reflexivity|]. now vm_compute.
Qed.

(** * Further properties of the grid *)

Lemma py_in_In (n : Z) (l : list Z) : py_in n l = true <-> In n l.
Proof.
  unfold py_in. rewrite existsb_exists. split.
  - intros [x [Hx E]]. apply Z.eqb_eq in E. now subst.
  - intros Hn. exists n. split; [exact Hn | apply Z.eqb_refl].
Qed.

Lemma moore_count_bounds (g : Grid) (row col : nat) :
  (0 <= moore_count g row col <= 8)%Z.
Proof.
  unfold moore_count, moore_offsets. cbn [fold_right].
  repeat match goal with
  | |- context [if ?b then 1%Z else 0%Z] => destruct b
  end; lia.
Qed.

Lemma update_grid_cells (g : Grid) :
  Grid_ok g ->
  exists g',
    update_grid g = (Ok tt, g') /\
    rows g' = rows g /\ cols g' = cols g /\ rules g' = rules g /\ Grid_ok g' /\
    forall r c, r < rows g -> c < cols g ->
      cell (grid g') r c
      = next_state (rules g) (cell (grid g) r c) (moore_count g r c).
Proof.
  intros Hg.
  destruct (update_grid_spec g Hg) as [g' (E & Hr & Hc & Hru & Hok & Hcell)].
  exists g'. split; [exact E|]. split; [exact Hr|]. split; [exact Hc|].
  split; [exact Hru|]. split; [exact Hok|].
  intros r c Hrr Hcc. specialize (Hcell r c Hrr Hcc).
  unfold Grid_ok in Hok. rewrite Hr, Hc in Hok.
  rewrite (getitem_cell (rows g) (cols g)) in Hcell by assumption.
  now injection Hcell.
Qed.

(** X1.  The neighbour count lies between 0 and 8, for every cell of every
    grid whose array has the recorded shape, and the call never raises. *)
Theorem count_alive_neighbors_bounds (g : Grid) (row col : nat) :
  Grid_ok g ->
  exists n, count_alive_neighbors g row col = Ok n /\ (0 <= n <= 8)%Z.
Proof.
  intros Hg. exists (moore_count g row col). split.
  - now apply count_alive_neighbors_moore.
  - apply moore_count_bounds.
Qed.

Lemma count_alive_neighbors_bounds_witness :
  exists n,
    count_alive_neighbors (mkGrid 5 5 (blinker_h 5 5 2 2) conway) 2 2 = Ok n /\
    (0 <= n <= 8)%Z.
Proof.
  apply (count_alive_neighbors_bounds (mkGrid 5 5 (blinker_h 5 5 2 2) conway)).
  split; [reflexivity | repeat constructor].
Defined.

(** X2.  The rules act as sets, and only through the counts 0 to 8: two
    rule sets that contain the same numbers between 0 and 8, in whatever
    order, with whatever repetitions and whatever other numbers, give the
    same next generation. *)
Theorem update_grid_rules_as_sets (g : Grid) (ru : Rules) :
  Grid_ok g ->
  (forall n, (0 <= n <= 8)%Z -> (In n (birth ru) <-> In n (birth (rules g)))) ->
  (forall n, (0 <= n <= 8)%Z ->
     (In n (survival ru) <-> In n (survival (rules g)))) ->
  exists g1 g2,
    update_grid g = (Ok tt, g1) /\
    update_grid (with_rules ru g) = (Ok tt, g2) /\
    grid g2 = grid g1.
Proof.
  intros Hg Hb Hs.
  destruct (update_grid_cells g Hg) as [g1 (E1 & Hr1 & Hc1 & _ & Hok1 & Hcell1)].
  destruct (update_grid_cells (with_rules ru g) Hg)
    as [g2 (E2 & Hr2 & Hc2 & _ & Hok2 & Hcell2)].
  exists g1, g2. split; [exact E1|]. split; [exact E2|].
  unfold with_rules in *. cbn [rows cols grid rules] in *.
  unfold Grid_ok in Hok1, Hok2. rewrite Hr1, Hc1 in Hok1. rewrite Hr2, Hc2 in Hok2.
  apply (ndarray_ext (rows g) (cols g)); [exact Hok2 | exact Hok1 |].
  intros i j Hi Hj. rewrite Hcell1, Hcell2 by assumption.
  change (moore_count (mkGrid (rows g) (cols g) (grid g) ru) i j)
    with (moore_count g i j).
  pose proof (moore_count_bounds g i j) as Hn.
  assert (Eb : py_in (moore_count g i j) (birth ru)
               = py_in (moore_count g i j) (birth (rules g))).
  { apply eq_true_iff_eq. rewrite !py_in_In. now apply Hb. }
  assert (Es : py_in (moore_count g i j) (survival ru)
               = py_in (moore_count g i j) (survival (rules g))).
  { apply eq_true_iff_eq. rewrite !py_in_In. now apply Hs. }
  unfold next_state. now rewrite Eb, Es.
Qed.

Lemma update_grid_rules_as_sets_witness :
  exists g1 g2,
    update_grid (mkGrid 5 5 (blinker_h 5 5 2 2) conway) = (Ok tt, g1) /\
    update_grid (mkGrid 5 5 (blinker_h 5 5 2 2)
                   (mkRules [9; 3; 3]%Z [3; -1; 2; 2]%Z)) = (Ok tt, g2) /\
    grid g2 = grid g1.
Proof.
  apply (update_grid_rules_as_sets (mkGrid 5 5 (blinker_h 5 5 2 2) conway)
           (mkRules [9; 3; 3]%Z [3; -1; 2; 2]%Z)).
  - split; [reflexivity | repeat constructor].
  - intros n Hn. cbn. lia.
  - intros n Hn. cbn. lia.
Defined.

(** X3.  With no survival count (the Seeds preset) no cell lives through a
    step, and with no birth count no cell is born: every cell alive after
    the step was alive before. *)
Theorem update_grid_empty_rules (g : Grid) :
  Grid_ok g ->
  exists g',
    update_grid g = (Ok tt, g') /\
    (survival (rules g) = [] ->
     forall r c, r < rows g -> c < cols g ->
       cell (grid g) r c = true -> cell (grid g') r c = false) /\
    (birth (rules g) = [] ->
     forall r c, r < rows g -> c < cols g ->
       cell (grid g') r c = true -> cell (grid g) r c = true).
Proof.
  intros Hg.
  destruct (update_grid_cells g Hg) as [g' (E & _ & _ & _ & _ & Hcell)].
  exists g'. split; [exact E|]. split.
  - intros Hs r c Hr Hc Halive. rewrite Hcell by assumption.
    unfold next_state. now rewrite Hs, Halive.
  - intros Hb r c Hr Hc. rewrite Hcell by assumption.
    unfold next_state. rewrite Hb. cbn [py_in existsb].
    rewrite andb_false_r. destruct (cell (grid g) r c); [reflexivity|].
    cbn [andb]. discriminate.
Qed.

Lemma update_grid_empty_rules_witness :
  exists g',
    update_grid (mkGrid 5 5 (blinker_h 5 5 2 2) (mkRules [2%Z] [])) = (Ok tt, g') /\
    cell (grid g') 2 2 = false.
Proof.
  destruct (update_grid_empty_rules
              (mkGrid 5 5 (blinker_h 5 5 2 2) (mkRules [2%Z] [])))
    as [g' (E & Hs & _)].
  - split; [reflexivity | repeat constructor].
  - exists g'. split; [exact E|]. apply Hs; [reflexivity | cbn; lia | cbn; lia |].
    reflexivity.
Defined.

Lemma mousePressEvent_cells (g : Grid) (cell_size ex ey : Z) :
  Grid_ok g -> cell_size <> 0%Z ->
  exists g',
    mousePressEvent cell_size ex ey g = (Ok tt, g') /\
    rows g' = rows g /\ cols g' = cols g /\ rules g' = rules g /\ Grid_ok g' /\
    forall r c,
      cell (grid g') r c
      = if ((Z.of_nat c =? ex / cell_size) && (Z.of_nat r =? ey / cell_size))%Z
           && (c <? cols g) && (r <? rows g)
        then negb (cell (grid g) r c) else cell (grid g) r c.
Proof.
  intros Hg Hcs. unfold mousePressEvent.
  destruct (Z.eqb_spec cell_size 0) as [|_]; [contradiction|].
  set (x := (ex / cell_size)%Z). set (y := (ey / cell_size)%Z).
  destruct (Z.leb_spec 0 x); destruct (Z.ltb_spec x (Z.of_nat (cols g)));
    destruct (Z.leb_spec 0 y); destruct (Z.ltb_spec y (Z.of_nat (rows g)));
    cbn [andb];
    try (exists g; repeat (split; [reflexivity || exact Hg|]); intros r c;
         destruct (Z.eqb_spec (Z.of_nat c) x); destruct (Z.eqb_spec (Z.of_nat r) y);
         destruct (Nat.ltb_spec c (cols g)); destruct (Nat.ltb_spec r (rows g));
         cbn [andb]; try reflexivity; lia).
  rewrite (getitem_cell (rows g) (cols g)) by (trivial; lia).
  destruct (setitem_ok (rows g) (cols g) (grid g) (Z.to_nat y) (Z.to_nat x)
              (negb (cell (grid g) (Z.to_nat y) (Z.to_nat x))) Hg)
    as [a (Ea & Hsa & Hca)]; [lia | lia |].
  rewrite Ea. eexists. split; [reflexivity|]. cbn [rows cols rules grid].
  repeat (split; [reflexivity || exact Hsa|]).
  intros r c. rewrite Hca.
  destruct (Nat.eqb_spec r (Z.to_nat y)); destruct (Nat.eqb_spec c (Z.to_nat x));
    destruct (Z.eqb_spec (Z.of_nat c) x); destruct (Z.eqb_spec (Z.of_nat r) y);
    destruct (Nat.ltb_spec c (cols g)); destruct (Nat.ltb_spec r (rows g));
    cbn [andb]; try lia; subst; reflexivity.
Qed.

(** X4.  A click flips the cell under the pointer and nothing else.  With
    a cell size other than zero the handler returns normally and keeps
    dimensions, rules and the shape of the array; the cell in column
    [ex // cell_size] and row [ey // cell_size] is negated when it lies in
    the grid, and every other cell keeps its value, so a click outside the
    grid changes nothing.  With a cell size of zero the handler raises
    [ZeroDivisionError] and the grid is untouched. *)
Theorem mousePressEvent_flips_one_cell (g : Grid) (cell_size ex ey : Z) :
  Grid_ok g ->
  (cell_size = 0%Z ->
   mousePressEvent cell_size ex ey g = (Raise ZeroDivisionError, g)) /\
  (cell_size <> 0%Z ->
   exists g',
     mousePressEvent cell_size ex ey g = (Ok tt, g') /\
     rows g' = rows g /\ cols g' = cols g /\ rules g' = rules g /\ Grid_ok g' /\
     forall r c,
       cell (grid g') r c
       = if ((Z.of_nat c =? ex / cell_size) && (Z.of_nat r =? ey / cell_size))%Z
            && (c <? cols g) && (r <? rows g)
         then negb (cell (grid g) r c) else cell (grid g) r c).
Proof.
  intros Hg. split.
  - intros ->. reflexivity.
  - intros Hcs. now apply mousePressEvent_cells.
Qed.

Lemma mousePressEvent_flips_one_cell_witness :
  exists g',
    mousePressEvent 20 45 30 (Grid_init 3 3) = (Ok tt, g') /\
    grid g' = [[false; false; false]; [false; false; true]; [false; false; false]].
Proof.
  destruct (mousePressEvent_flips_one_cell (Grid_init 3 3) 20 45 30) as [_ Hc].
  - split; [reflexivity | repeat constructor].
  - destruct Hc as [g' (E & _)]; [lia|].
    exists g'. split; [exact E|]. injection E as <-. reflexivity.
Defined.

(** X5.  Clicking twice at the same pixel gives back the grid as it was. *)
Theorem mousePressEvent_twice (g : Grid) (cell_size ex ey : Z) :
  Grid_ok g -> cell_size <> 0%Z ->
  (mousePressEvent cell_size ex ey ;; mousePressEvent cell_size ex ey) g
  = (Ok tt, g).
Proof.
  intros Hg Hcs.
  destruct (mousePressEvent_cells g cell_size ex ey Hg Hcs)
    as [g1 (E1 & Hr1 & Hc1 & Hru1 & Hok1 & Hcell1)].
  destruct (mousePressEvent_cells g1 cell_size ex ey Hok1 Hcs)
    as [g2 (E2 & Hr2 & Hc2 & Hru2 & Hok2 & Hcell2)].
  unfold bind. rewrite E1, E2. f_equal.
  destruct g as [r c a ru], g2 as [r2 c2 a2 ru2].
  cbn [rows cols grid rules] in *.
  assert (a2 = a).
  { unfold Grid_ok in Hok2, Hg. cbn [rows cols grid] in Hok2, Hg.
    rewrite Hr2, Hr1, Hc2, Hc1 in Hok2.
    apply (ndarray_ext r c); [exact Hok2 | exact Hg |].
    intros i j Hi Hj. rewrite Hcell2, Hcell1, Hr1, Hc1.
    destruct (_ && _ && _ && _); [apply negb_involutive | reflexivity]. }
  congruence.
Qed.

Lemma mousePressEvent_twice_witness :
  (mousePressEvent 20 45 30 ;; mousePressEvent 20 45 30)
    (mkGrid 5 5 (blinker_h 5 5 2 2) conway)
  = (Ok tt, mkGrid 5 5 (blinker_h 5 5 2 2) conway).
Proof.
  apply mousePressEvent_twice.
  - split; [reflexivity | repeat constructor].
  - lia.
Defined.

Lemma resize_grid_cells (g : Grid) (new_rows new_cols : nat) :
  Grid_ok g ->
  exists g',
    resize_grid new_rows new_cols g = (Ok tt, g') /\
    rows g' = new_rows /\ cols g' = new_cols /\ rules g' = rules g /\
    Grid_ok g' /\
    forall r c, r < new_rows -> c < new_cols ->
      cell (grid g') r c
      = if (r <? rows g) && (c <? cols g) then cell (grid g) r c else false.
Proof.
  intros Hg. unfold resize_grid, modify. eexists. split; [reflexivity|].
  cbn [rows cols rules grid].
  set (mr := Nat.min (rows g) new_rows). set (mc := Nat.min (cols g) new_cols).
  assert (Hsl : has_shape mr mc (slice2 (grid g) mr mc))
    by (apply (has_shape_slice2 (rows g) (cols g)); [exact Hg | lia | lia]).
  destruct (assign_block_spec new_rows new_cols mr mc _ _ Hsl
              (has_shape_zeros new_rows new_cols)) as [Hshape Hcell].
  split; [reflexivity|]. split; [reflexivity|]. split; [reflexivity|].
  split; [exact Hshape|].
  intros r c Hr Hc. rewrite Hcell by assumption.
  destruct (Nat.ltb_spec r mr); destruct (Nat.ltb_spec c mc);
    destruct (Nat.ltb_spec r (rows g)); destruct (Nat.ltb_spec c (cols g));
    cbn [andb]; try lia; try apply cell_zeros; now apply cell_slice2.
Qed.

(** X6.  Enlarging and resizing back loses nothing: after [resize_grid] to
    dimensions at least as large and [resize_grid] back to the original
    dimensions the grid is the one before the two calls. *)
Theorem resize_grid_grow_and_back (g : Grid) (new_rows new_cols : nat) :
  Grid_ok g -> rows g <= new_rows -> cols g <= new_cols ->
  (resize_grid new_rows new_cols ;; resize_grid (rows g) (cols g)) g = (Ok tt, g).
Proof.
  intros Hg Hr Hc.
  destruct (resize_grid_cells g new_rows new_cols Hg)
    as [g1 (E1 & Hr1 & Hc1 & Hru1 & Hok1 & Hcell1)].
  destruct (resize_grid_cells g1 (rows g) (cols g) Hok1)
    as [g2 (E2 & Hr2 & Hc2 & Hru2 & Hok2 & Hcell2)].
  unfold bind. rewrite E1, E2. f_equal.
  destruct g as [r c a ru], g2 as [r2 c2 a2 ru2].
  cbn [rows cols grid rules] in *.
  assert (a2 = a).
  { unfold Grid_ok in Hok2, Hg. cbn [rows cols grid] in Hok2, Hg.
    rewrite Hr2, Hc2 in Hok2.
    apply (ndarray_ext r c); [exact Hok2 | exact Hg |].
    intros i j Hi Hj. rewrite Hcell2, Hr1, Hc1 by assumption.
    destruct (Nat.ltb_spec i new_rows); [|lia].
    destruct (Nat.ltb_spec j new_cols); [|lia]. cbn [andb].
    rewrite Hcell1 by lia.
    destruct (Nat.ltb_spec i r); [|lia]. destruct (Nat.ltb_spec j c); [|lia].
    reflexivity. }
  congruence.
Qed.

Lemma resize_grid_grow_and_back_witness :
  (resize_grid 4 3 ;; resize_grid 2 2) (mkGrid 2 2 diagonal_2x2 conway)
  = (Ok tt, mkGrid 2 2 diagonal_2x2 conway).
Proof.
  apply (resize_grid_grow_and_back (mkGrid 2 2 diagonal_2x2 conway) 4 3).
  - split; [reflexivity | repeat constructor].
  - cbn; lia.
  - cbn; lia.
Defined.

(** X7.  No sequence of calls breaks a grid.  Starting from a new grid of
    any dimensions, every sequence of [set_rules], [resize_grid], mouse
    clicks, [update_grid] and [clear_grid] runs to its end without raising,
    and the array then has the shape the grid records. *)
Theorem grid_calls_never_raise (cell_size : Z) (rows cols : nat)
    (calls : list grid_call) :
  cell_size <> 0%Z ->
  exists g',
    for_ calls (run_grid_call cell_size) (Grid_init rows cols) = (Ok tt, g') /\
    Grid_ok g'.
Proof.
  intros Hcs.
  assert (Hinit : Grid_ok (Grid_init rows cols)) by apply has_shape_zeros.
  generalize dependent (Grid_init rows cols).
  induction calls as [|c calls IH]; intros g Hg.
  - exists g. split; [reflexivity | exact Hg].
  - assert (Hstep : exists g1, run_grid_call cell_size c g = (Ok tt, g1) /\ Grid_ok g1).
    { destruct c as [b s | nr nc | ex ey | | ]; cbn [run_grid_call].
      - eexists. split; [reflexivity | exact Hg].
      - destruct (resize_grid_cells g nr nc Hg) as [g1 (E & _ & _ & _ & Hok & _)].
        now exists g1.
      - destruct (mousePressEvent_cells g cell_size ex ey Hg Hcs)
          as [g1 (E & _ & _ & _ & Hok & _)]. now exists g1.
      - destruct (update_grid_spec g Hg) as [g1 (E & _ & _ & _ & Hok & _)].
        now exists g1.
      - eexists. split; [reflexivity | apply has_shape_zeros]. }
    destruct Hstep as [g1 [E1 Hok1]]. destruct (IH g1 Hok1) as [g' [E' Hok']].
    exists g'. cbn [for_]. unfold bind. rewrite E1. now split.
Qed.

Lemma grid_calls_never_raise_witness :
  exists g',
    for_ [CallClick 45 30; CallUpdate; CallResize 2 7; CallSetRules [2%Z] [];
          CallUpdate; CallClear]
      (run_grid_call 20) (Grid_init 3 3) = (Ok tt, g') /\
    Grid_ok g'.
Proof. apply grid_calls_never_raise. lia. Defined.

(** * Further properties of the sound manager *)

Section DictOk.
Context {V : Type}.
Implicit Types (d : dict V) (k : key) (v : V).

Lemma dict_keys_set_eq d k v :
  dict_keys (dict_set d k v)
  = if dict_mem d k then dict_keys d else dict_keys d ++ [k].
Proof.
  induction d as [|[k0 v0] d IH]; [reflexivity|].
  unfold dict_mem in *. cbn [dict_set dict_get].
  destruct (key_eqb_spec k k0) as [->|Hne]; [reflexivity|].
  change (dict_keys ((k0, v0) :: dict_set d k v))
    with (k0 :: dict_keys (dict_set d k v)).
  rewrite IH. now destruct (dict_get d k).
Qed.

Lemma dict_ok_set d k v : dict_ok d -> dict_ok (dict_set d k v).
Proof.
  unfold dict_ok. intros Hd. rewrite dict_keys_set_eq.
  destruct (dict_mem d k) eqn:Em; [exact Hd|].
  apply dict_mem_false in Em.
  apply (NoDup_Add (Add_app k (dict_keys d) [])).
  rewrite app_nil_r. now split.
Qed.

Lemma dict_ok_del d k : dict_ok d -> dict_ok (dict_del d k).
Proof.
  unfold dict_ok, dict_del, dict_keys. intros Hd.
  induction d as [|[k0 v0] d IH]; [constructor|].
  cbn [map fst] in Hd. apply NoDup_cons_iff in Hd. destruct Hd as [Hn Hd].
  cbn [filter fst]. destruct (negb (key_eqb k k0)); [|now apply IH].
  cbn [map fst]. constructor; [|now apply IH].
  intros Hin. apply Hn. apply in_map_iff in Hin.
  destruct Hin as [[k1 v1] [E Hin]]. apply filter_In in Hin.
  apply in_map_iff. exists (k1, v1). tauto.
Qed.

Lemma dict_del_set_fresh d k v :
  ~ In k (dict_keys d) -> dict_del (dict_set d k v) k = d.
Proof.
  intros Hn. rewrite dict_set_fresh by assumption.
  unfold dict_del. rewrite filter_app. cbn [filter fst].
  destruct (key_eqb_spec k k); [|congruence]. cbn [negb].
  rewrite app_nil_r. now apply dict_del_absent.
Qed.

Lemma dict_set_head d k v0 v : dict_set ((k, v0) :: d) k v = (k, v) :: d.
Proof.
  cbn [dict_set]. destruct (key_eqb_spec k k); [reflexivity | congruence].
Qed.

Lemma dict_set_app d1 d2 k v :
  ~ In k (dict_keys d1) -> dict_set (d1 ++ d2) k v = d1 ++ dict_set d2 k v.
Proof.
  induction d1 as [|[k0 v0] d1 IH]; intros Hn; [reflexivity|].
  cbn [app dict_set].
  destruct (key_eqb_spec k k0) as [->|Hne]; [exfalso; apply Hn; now left|].
  rewrite IH by (intros Hk; apply Hn; now right). reflexivity.
Qed.
End DictOk.

Section ManagerOk.
Context {F : Type} `{PyFloat F}.
Implicit Types (self s : SoundManager F) (g : Grid) (k : key).

Lemma manager_ok_log g s (i : list (command F)) :
  manager_ok g s ->
  manager_ok g (mkSoundManager (frequency_range s) (amplitude s) (waveform s)
                  (smooth_transitions s) (oscillators s) (envelopes s) i).
Proof. intros Hs. exact Hs. Qed.

Lemma preserves_emit g (c : command F) : preserves (manager_ok (F := F) g) (emit c).
Proof. apply preserves_modify. intros s Hs. exact Hs. Qed.

Lemma play_sound_ok g row col :
  row < rows g -> col < cols g -> preserves (manager_ok (F := F) g) (play_sound g row col).
Proof.
  intros Hr Hc s Hs. unfold play_sound. run_monad.
  destruct (dict_mem (oscillators s) (row, col)); [exact Hs|].
  destruct (calculate_frequency g s row col) as [freq|e]; [|exact Hs].
  destruct Hs as (Ho & He & Hsub & Hin).
  destruct (smooth_transitions s); run_monad; cbn [snd];
    unfold manager_ok; cbn [oscillators envelopes];
    (split; [now apply dict_ok_set|]); (split; [try now apply dict_ok_set|]);
    try assumption; split; intros k; rewrite ?dict_keys_set;
    try (intros [->|Hk]; [now left | right; now apply Hsub]);
    try (intros [->|Hk]; [cbn [fst snd]; now split | now apply Hin]).
  intros Hk. right. now apply Hsub.
Qed.

Lemma stop_sound_ok g row col : preserves (manager_ok (F := F) g) (stop_sound row col).
Proof.
  intros s Hs. unfold stop_sound. run_monad.
  destruct (dict_mem (oscillators s) (row, col)); [|exact Hs].
  destruct Hs as (Ho & He & Hsub & Hin).
  destruct (dict_mem (envelopes s) (row, col)) eqn:Em;
    destruct (smooth_transitions s); cbn [andb]; run_monad; cbn [snd];
    unfold manager_ok; cbn [oscillators envelopes];
    (split; [now apply dict_ok_del|]);
    (split; [try now apply dict_ok_del; assumption|]);
    try assumption; split; intros k; rewrite ?dict_keys_del;
    try (intros [Hk Hne]; split; [now apply Hsub | exact Hne]);
    try (intros [Hk Hne]; now apply Hin).
  all: intros Hk; split; [now apply Hsub|]; intros ->;
    apply dict_mem_false in Em; contradiction.
Qed.

Lemma update_sounds_ok g (previous_grid current_grid : ndarray) :
  preserves (manager_ok (F := F) g) (update_sounds g previous_grid current_grid).
Proof.
  unfold update_sounds. apply preserves_for. intros row Hrow.
  apply in_range in Hrow. apply preserves_for. intros col Hcol.
  apply in_range in Hcol.
  apply preserves_bind; [apply preserves_pure|]. intros was_alive.
  apply preserves_bind; [apply preserves_pure|]. intros is_alive.
  destruct (negb was_alive && is_alive); [apply play_sound_ok; lia|].
  destruct (was_alive && negb is_alive);
    [apply stop_sound_ok | apply preserves_ret].
Qed.

Lemma set_waveform_ok g (waveform_type : string) :
  preserves (manager_ok (F := F) g) (set_waveform g waveform_type).
Proof.
  intros s Hs. unfold set_waveform, update_all_waveforms. run_monad.
  match goal with |- manager_ok g (snd (for_ ?l ?body ?s1)) =>
    apply (preserves_for (manager_ok (F := F) g) l body); [|exact Hs]
  end.
  intros [row col] Hk. destruct Hs as (_ & _ & _ & Hin).
  destruct (Hin _ Hk) as [Hr Hc]. cbn [fst snd] in Hr, Hc.
  apply preserves_bind; [apply stop_sound_ok|]. intros _. now apply play_sound_ok.
Qed.

Lemma set_frequency_range_ok g (min_freq max_freq : Z) :
  preserves (manager_ok (F := F) g) (set_frequency_range g min_freq max_freq).
Proof.
  intros s Hs. unfold set_frequency_range, update_all_frequencies. run_monad.
  match goal with |- manager_ok g (snd (for_ ?l ?body ?s1)) =>
    apply (preserves_for (manager_ok (F := F) g) l body); [|exact Hs]
  end.
  intros [[row col] osc] Hitem s1 Hs1. run_monad.
  destruct (calculate_frequency g s1 row col) as [freq|e]; [|exact Hs1].
  run_monad. cbn [snd]. destruct Hs1 as (Ho & He & Hsub & Hin).
  assert (Hk : In (row, col) (dict_keys (oscillators s))).
  { apply in_map_iff. now exists ((row, col), osc). }
  destruct Hs as (_ & _ & _ & Hin0).
  unfold manager_ok; cbn [oscillators envelopes].
  split; [now apply dict_ok_set|]. split; [exact He|].
  split; intros k; rewrite dict_keys_set.
  - intros Hke. right. now apply Hsub.
  - intros [->|Hko]; [now apply Hin0 | now apply Hin].
Qed.

Lemma set_amplitude_ok g (new_amplitude : F) :
  preserves (manager_ok (F := F) g) (set_amplitude new_amplitude).
Proof.
  intros s Hs. unfold set_amplitude. run_monad.
  match goal with |- manager_ok g (snd (for_ ?l ?body ?s1)) =>
    apply (preserves_for (manager_ok (F := F) g) l body); [|exact Hs]
  end.
  intros [k osc] Hitem s1 Hs1. run_monad. cbn [snd].
  destruct Hs1 as (Ho & He & Hsub & Hin).
  assert (Hk : In k (dict_keys (oscillators s))).
  { apply in_map_iff. now exists (k, osc). }
  destruct Hs as (_ & _ & _ & Hin0).
  unfold manager_ok; cbn [oscillators envelopes].
  split; [now apply dict_ok_set|]. split; [exact He|].
  split; intros k'; rewrite dict_keys_set.
  - intros Hke. right. now apply Hsub.
  - intros [->|Hko]; [now apply Hin0 | now apply Hin].
Qed.

Lemma run_manager_call_ok g (c : manager_call) :
  preserves (manager_ok (F := F) g) (run_manager_call g c).
Proof.
  destruct c; cbn [run_manager_call].
  - apply update_sounds_ok.
  - apply set_frequency_range_ok.
  - apply set_amplitude_ok.
  - apply set_waveform_ok.
  - intros s Hs. exact Hs.
  - intros s Hs. exact Hs.
Qed.

Lemma manager_ok_init g : manager_ok g (SoundManager_init (F := F)).
Proof.
  unfold manager_ok. cbn. repeat split; try constructor; contradiction.
Qed.
End ManagerOk.

Ltac concrete_manager_ok :=
  unfold manager_ok, dict_ok; vm_compute;
  repeat match goal with |- _ /\ _ => split end;
  try (repeat constructor; cbn; intuition congruence);
  try (intros k Hk; cbn in Hk; intuition (subst; cbn; auto with arith)).

Lemma dict_get_map_items {V : Type} (h : key -> V -> V) (d : dict V) (k : key) :
  dict_get (map (fun kv => (fst kv, h (fst kv) (snd kv))) d) k
  = option_map (h k) (dict_get d k).
Proof.
  induction d as [|[k0 v0] d IH]; cbn [map dict_get fst snd]; [reflexivity|].
  destruct (key_eqb_spec k k0) as [->|]; [reflexivity | exact IH].
Qed.

(** X8.  The dictionaries of a manager stay well formed.  A new manager
    satisfies [manager_ok], and whatever calls a driver makes on a manager
    that satisfies it, for a grid of given dimensions, the manager
    satisfies it afterwards, whether the calls return or one of them
    raises: no key is held twice, every envelope belongs to a registered
    oscillator, and every registered cell is a cell of the grid. *)
Theorem manager_calls_keep_invariant {F : Type} `{PyFloat F}
    (g : Grid) (calls : list manager_call) (self : SoundManager F) :
  manager_ok g (SoundManager_init (F := F)) /\
  (manager_ok g self ->
   manager_ok g (snd (for_ calls (run_manager_call g) self))).
Proof.
  split; [apply manager_ok_init|].
  apply (preserves_for (manager_ok (F := F) g)).
  intros c _. apply run_manager_call_ok.
Qed.

Lemma manager_calls_keep_invariant_witness :
  manager_ok (Grid_init 2 2)
    (snd (for_ [CallUpdateSounds (zeros 2 2) diagonal_2x2;
                CallSetWaveform "Square";
                CallUpdateSounds [[false]] diagonal_2x2]
            (run_manager_call (Grid_init 2 2)) (SoundManager_init (F := Q)))).
Proof.
  apply (proj2 (manager_calls_keep_invariant (Grid_init 2 2) _ SoundManager_init)).
  concrete_manager_ok.
Defined.

Section VoiceTheorems.
Context {F : Type} `{PyFloat F}.
Implicit Types (self s : SoundManager F) (g : Grid) (k : key).

Lemma play_sound_registers g row col s s1 :
  play_sound g row col s = (Ok tt, s1) ->
  dict_mem (oscillators s1) (row, col) = true.
Proof.
  unfold play_sound. run_monad.
  destruct (dict_mem (oscillators s) (row, col)) eqn:Em.
  - intros E. injection E as <-. exact Em.
  - destruct (calculate_frequency g s row col) as [freq|e]; [|discriminate].
    destruct (smooth_transitions s); run_monad; intros E; injection E as <-;
      cbn [oscillators]; apply dict_mem_true; apply dict_keys_set; now left.
Qed.
End VoiceTheorems.

(** X9.  Asking twice for the sound of a cell starts it once: a second
    [play_sound] for the same cell changes nothing and issues nothing, so
    two calls in a row do what one does, also when the call raises. *)
Theorem play_sound_twice {F : Type} `{PyFloat F}
    (g : Grid) (row col : nat) (self : SoundManager F) :
  (play_sound g row col ;; play_sound g row col) self = play_sound g row col self.
Proof.
  unfold bind. destruct (play_sound g row col self) as [[[]|e] s1] eqn:E;
    [|reflexivity].
  apply play_sound_present. now apply (play_sound_registers g row col self).
Qed.

(** X10.  Starting and stopping a voice is a round trip.  On a well-formed
    manager, for a cell without a voice: when [calculate_frequency] returns
    a frequency for the cell, [play_sound] followed by [stop_sound] returns
    normally and leaves the registry, the envelopes and the parameters as
    they were, the only trace being in the log: the start of the voice,
    then its stop; when [calculate_frequency] raises, [play_sound] raises
    the same exception and nothing is changed or logged. *)
Theorem play_then_stop_restores {F : Type} `{PyFloat F}
    (g : Grid) (row col : nat) (self : SoundManager F) :
  manager_ok g self ->
  ~ In (row, col) (dict_keys (oscillators self)) ->
  match calculate_frequency g self row col with
  | Ok _ =>
      (play_sound g row col ;; stop_sound row col) self
      = (Ok tt,
         with_voices (oscillators self) (envelopes self)
           (issued self ++ start_cmds g self (row, col)
            ++ (if smooth_transitions self then [FaderStop (row, col)] else [])
            ++ [OscStop (row, col)])
           self)
  | Raise e =>
      (play_sound g row col ;; stop_sound row col) self = (Raise e, self)
  end.
Proof.
  intros (Ho & He & Hsub & Hin) Hk.
  assert (Hke : ~ In (row, col) (dict_keys (envelopes self)))
    by (intros Hx; apply Hk; now apply Hsub).
  destruct (calculate_frequency g self row col) as [freq|e] eqn:Ef.
  - unfold bind.
    rewrite play_sound_fresh
      by (try apply dict_mem_false; trivial; now exists freq).
    rewrite stop_sound_present
      by (apply dict_mem_true; apply dict_keys_set; now left).
    unfold with_voices, stop_cmds.
    cbn [oscillators envelopes issued frequency_range amplitude waveform
         smooth_transitions].
    rewrite dict_del_set_fresh by assumption.
    destruct (smooth_transitions self).
    + assert (Hm : dict_mem (dict_set (envelopes self) (row, col) (new_fader self))
                     (row, col) = true)
        by (apply dict_mem_true; apply dict_keys_set; now left).
      rewrite Hm, dict_del_set_fresh by assumption. cbn [andb].
      now rewrite <- !app_assoc.
    + apply dict_mem_false in Hke. rewrite Hke. cbn [andb].
      now rewrite <- !app_assoc.
  - unfold bind. rewrite (play_sound_raises g row col self e Ef); [reflexivity|].
    now apply dict_mem_false.
Qed.

Lemma play_then_stop_restores_witness :
  exists self',
    (play_sound (Grid_init 2 2) 0 1 ;; stop_sound 0 1) two_voices = (Ok tt, self') /\
    oscillators self' = oscillators two_voices.
Proof.
  pose proof (play_then_stop_restores (Grid_init 2 2) 0 1 two_voices) as Hx.
  destruct (calculate_frequency (Grid_init 2 2) two_voices 0 1) as [freq|e] eqn:Ef;
    [|vm_compute in Ef; discriminate Ef].
  eexists. split.
  - apply Hx.
    + concrete_manager_ok.
    + cbn. intuition discriminate.
  - reflexivity.
Defined.

(** X11.  Reconciling a grid with itself does nothing: when the array
    covers the manager's grid, [update_sounds] called with it as both
    arguments returns normally with the manager unchanged, nothing started,
    nothing stopped and nothing logged. *)
Theorem update_sounds_same_grid {F : Type} `{PyFloat F}
    (g : Grid) (pr pc : nat) (a : ndarray) (self : SoundManager F) :
  has_shape pr pc a -> rows g <= pr -> cols g <= pc ->
  update_sounds g a a self = (Ok tt, self).
Proof.
  intros Ha Hr Hc. unfold update_sounds.
  match goal with |- for_ _ ?body _ = _ =>
    destruct (for_range_inv (fun _ s' => s' = self) body (rows g) self) as [s1 [E ->]]
  end; [reflexivity | | exact E].
  intros i s1 Hi ->.
  match goal with |- exists x, for_ _ ?body _ = _ /\ _ =>
    destruct (for_range_inv (fun _ s' => s' = self) body (cols g) self) as [s2 [E2 ->]]
  end; [reflexivity | | now exists self].
  intros j s2 Hj ->. exists self. split; [|reflexivity].
  unfold bind, lift. rewrite (getitem_cell pr pc) by (trivial; lia).
  destruct (cell a i j); reflexivity.
Qed.

Lemma update_sounds_same_grid_witness :
  update_sounds (Grid_init 2 2) diagonal_2x2 diagonal_2x2 two_voices
  = (Ok tt, two_voices).
Proof.
  apply (update_sounds_same_grid (Grid_init 2 2) 2 2).
  - split; [reflexivity | repeat constructor].
  - cbn; lia.
  - cbn; lia.
Defined.

Section BulkUpdates.
Context {F : Type} `{PyFloat F}.
Implicit Types (self s : SoundManager F) (g : Grid) (k : key).

(** A loop that gives the registered voices [todo] a new value each and
    logs one call for each. *)
Lemma for_update_voices (s0 : SoundManager F)
    (body : key * Osc F -> M (SoundManager F) unit)
    (h : key -> Osc F -> Osc F) (c : key * Osc F -> command F)
    (todo rest : dict (Osc F)) :
  (forall item s, In item todo -> same_params s0 s ->
     body item s
     = (Ok tt,
        with_voices (dict_set (oscillators s) (fst item) (h (fst item) (snd item)))
          (envelopes s) (issued s ++ [c item]) s)) ->
  forall (done : dict (Osc F)) s,
  oscillators s = done ++ todo ++ rest -> dict_ok (done ++ todo ++ rest) ->
  same_params s0 s ->
  for_ todo body s
  = (Ok tt,
     with_voices
       (done ++ map (fun kv => (fst kv, h (fst kv) (snd kv))) todo ++ rest)
       (envelopes s) (issued s ++ map c todo) s).
Proof.
  induction todo as [|[k v] todo IH]; intros Hbody done s Hosc Hok Hp.
  - cbn [for_ map app] in *. rewrite !app_nil_r, <- Hosc.
    now rewrite with_voices_same.
  - cbn [for_]. unfold bind. rewrite (Hbody (k, v) s (or_introl eq_refl) Hp).
    cbn [fst snd].
    assert (Hfresh : ~ In k (dict_keys done)).
    { unfold dict_ok in Hok. rewrite dict_keys_app in Hok.
      cbn [dict_keys map fst app] in Hok. apply NoDup_remove_2 in Hok.
      intros Hk. apply Hok. apply in_or_app. now left. }
    rewrite Hosc. cbn [app]. rewrite dict_set_app, dict_set_head by assumption.
    rewrite (IH (fun item s1 Hi => Hbody item s1 (or_intror Hi))
               (done ++ [(k, h k v)])).
    + unfold with_voices.
      cbn [oscillators envelopes issued frequency_range amplitude waveform
           smooth_transitions map fst snd app].
      now rewrite <- !app_assoc.
    + cbn [oscillators with_voices]. now rewrite <- app_assoc.
    + unfold dict_ok in *. rewrite <- app_assoc. cbn [app] in *.
      rewrite !dict_keys_app in *. exact Hok.
    + destruct Hp as (Hf & Ha & Hw & Hs). unfold same_params.
      cbn [with_voices frequency_range amplitude waveform smooth_transitions].
      now repeat split.
Qed.

(** [set_frequency_range] is the loop of [update_all_frequencies] run on
    the manager with the new range. *)
Lemma set_frequency_range_loop g (min_freq max_freq : Z) self :
  set_frequency_range g min_freq max_freq self
  = for_ (oscillators self)
      (fun item =>
         let '((row, col), osc) := item in
         s <- gets id ;;
         freq <- lift (calculate_frequency g s row col) ;;
         emit (OscSetFreq (row, col) freq) ;;
         modify (fun s =>
           with_oscillators
             (dict_set (oscillators s) (row, col)
                (mkOsc (osc_class osc) freq (osc_mul osc))) s))
      (with_frequency_range (min_freq, max_freq) self).
Proof. reflexivity. Qed.

(** The loop of [update_all_frequencies] over the voices [todo], on which
    [calculate_frequency] returns. *)
Lemma retune_voices g self1 (todo rest : dict (Osc F)) :
  oscillators self1 = todo ++ rest ->
  dict_ok (oscillators self1) ->
  (forall k, In k (dict_keys todo) -> frequency_defined g self1 k) ->
  for_ todo
    (fun item =>
       let '((row, col), osc) := item in
       s <- gets id ;;
       freq <- lift (calculate_frequency g s row col) ;;
       emit (OscSetFreq (row, col) freq) ;;
       modify (fun s =>
         with_oscillators
           (dict_set (oscillators s) (row, col)
              (mkOsc (osc_class osc) freq (osc_mul osc))) s))
    self1
  = (Ok tt,
     with_voices
       (map (fun kv => (fst kv, mkOsc (osc_class (snd kv))
                                  (voice_freq g self1 (fst kv))
                                  (osc_mul (snd kv))))
            todo ++ rest)
       (envelopes self1)
       (issued self1
        ++ map (fun kv => OscSetFreq (fst kv) (voice_freq g self1 (fst kv))) todo)
       self1).
Proof.
  intros Hosc Hok Hdef.
  set (h := fun k (osc : Osc F) =>
              mkOsc (osc_class osc) (voice_freq g self1 k) (osc_mul osc)).
  set (c := fun kv : key * Osc F =>
              OscSetFreq (fst kv) (voice_freq g self1 (fst kv))).
  match goal with |- for_ _ ?body _ = _ =>
    assert (Hbody : forall item s, In item todo ->
              same_params self1 s ->
              body item s
              = (Ok tt,
                 with_voices
                   (dict_set (oscillators s) (fst item) (h (fst item) (snd item)))
                   (envelopes s) (issued s ++ [c item]) s))
  end.
  { intros [[row col] osc] s Hitem (Hf & Ha & Hw & Hs). run_monad.
    assert (Hk : In (row, col) (dict_keys todo)).
    { apply in_map_iff. now exists ((row, col), osc). }
    rewrite (calculate_frequency_voice_freq g s row col)
      by (apply (frequency_defined_params g self1 s _ Hf); now apply Hdef).
    run_monad. rewrite (voice_freq_params g self1 s (row, col) Hf).
    reflexivity. }
  rewrite (for_update_voices self1 _ h c todo rest Hbody [] self1).
  - reflexivity.
  - exact Hosc.
  - cbn [app]. now rewrite <- Hosc.
  - unfold same_params. now repeat split.
Qed.

Lemma set_frequency_range_spec g (min_freq max_freq : Z) self :
  dict_ok (oscillators self) ->
  let self1 := with_frequency_range (min_freq, max_freq) self in
  (forall k, In k (dict_keys (oscillators self)) -> frequency_defined g self1 k) ->
  set_frequency_range g min_freq max_freq self
  = (Ok tt,
     with_voices
       (map (fun kv => (fst kv, mkOsc (osc_class (snd kv))
                                  (voice_freq g self1 (fst kv))
                                  (osc_mul (snd kv))))
            (oscillators self))
       (envelopes self)
       (issued self
        ++ map (fun kv => OscSetFreq (fst kv) (voice_freq g self1 (fst kv)))
             (oscillators self))
       self1).
Proof.
  intros Ho self1 Hdef. rewrite set_frequency_range_loop. fold self1.
  rewrite (retune_voices g self1 (oscillators self) []).
  - now rewrite app_nil_r.
  - cbn [self1 with_frequency_range oscillators]. now rewrite app_nil_r.
  - exact Ho.
  - exact Hdef.
Qed.

(** [set_frequency_range] when [calculate_frequency] raises under the new
    range at the key [k] and returns at the keys before it: the range is
    stored, the voices before [k] are retuned, the others are as they
    were. *)
Lemma set_frequency_range_raises g (min_freq max_freq : Z) self
    (d1 d2 : dict (Osc F)) k (osc : Osc F) (e : exn) :
  dict_ok (oscillators self) ->
  oscillators self = d1 ++ (k, osc) :: d2 ->
  let self1 := with_frequency_range (min_freq, max_freq) self in
  (forall k', In k' (dict_keys d1) -> frequency_defined g self1 k') ->
  calculate_frequency g self1 (fst k) (snd k) = Raise e ->
  set_frequency_range g min_freq max_freq self
  = (Raise e,
     with_voices
       (map (fun kv => (fst kv, mkOsc (osc_class (snd kv))
                                  (voice_freq g self1 (fst kv))
                                  (osc_mul (snd kv))))
            d1 ++ (k, osc) :: d2)
       (envelopes self)
       (issued self
        ++ map (fun kv => OscSetFreq (fst kv) (voice_freq g self1 (fst kv))) d1)
       self1).
Proof.
  intros Ho Hsplit self1 Hdef He. rewrite set_frequency_range_loop. fold self1.
  rewrite Hsplit, for_app. unfold bind at 1.
  rewrite (retune_voices g self1 d1 ((k, osc) :: d2)); trivial.
  destruct k as [row col]. cbn [fst snd] in He. cbn [for_]. unfold bind at 1.
  run_monad. unfold with_voices at 1. cbn [frequency_range].
  match goal with |- context [calculate_frequency g ?s2 row col] =>
    replace (calculate_frequency g s2 row col) with (Raise (A := F) e)
      by (rewrite <- He; reflexivity)
  end.
  reflexivity.
Qed.

Lemma set_amplitude_spec (new_amplitude : F) self :
  dict_ok (oscillators self) ->
  let self1 :=
    mkSoundManager (frequency_range self) new_amplitude (waveform self)
      (smooth_transitions self) (oscillators self) (envelopes self)
      (issued self) in
  set_amplitude new_amplitude self
  = (Ok tt,
     with_voices
       (map (fun kv => (fst kv, mkOsc (osc_class (snd kv)) (osc_freq (snd kv))
                                  (MulNum new_amplitude)))
            (oscillators self))
       (envelopes self)
       (issued self
        ++ map (fun kv => OscSetMul (fst kv) new_amplitude) (oscillators self))
       self1).
Proof.
  intros Ho self1. unfold set_amplitude. run_monad. fold self1.
  set (h := fun (k : key) (osc : Osc F) =>
              mkOsc (osc_class osc) (osc_freq osc) (MulNum new_amplitude)).
  set (c := fun kv : key * Osc F => OscSetMul (fst kv) new_amplitude).
  match goal with |- for_ _ ?body _ = _ =>
    assert (Hbody : forall item s, In item (oscillators self) ->
              same_params self1 s ->
              body item s
              = (Ok tt,
                 with_voices
                   (dict_set (oscillators s) (fst item) (h (fst item) (snd item)))
                   (envelopes s) (issued s ++ [c item]) s))
  end.
  { intros [k osc] s Hitem Hp. run_monad. reflexivity. }
  rewrite (for_update_voices self1 _ h c (oscillators self) [] Hbody [] self1).
  - cbn [app]. now rewrite app_nil_r.
  - cbn [app]. now rewrite app_nil_r.
  - cbn [app]. now rewrite app_nil_r.
  - unfold same_params. now repeat split.
Qed.
End BulkUpdates.

Lemma grid_cells_S (r c : nat) :
  grid_cells (S r) c = grid_cells r c ++ map (pair r) (seq 0 c).
Proof.
  unfold grid_cells. rewrite seq_S, flat_map_app. cbn [flat_map Nat.add].
  now rewrite app_nil_r.
Qed.

Section Trace.
Context {F : Type} `{PyFloat F}.
Implicit Types (self s : SoundManager F) (g : Grid) (k : key).

Lemma start_cmds_params g s s' k :
  same_params s s' -> start_cmds g s' k = start_cmds g s k.
Proof.
  intros (Hf & Ha & Hw & Hs). unfold start_cmds, new_fader.
  now rewrite Hw, Hs, Ha, (voice_freq_params g s s' k Hf).
Qed.

Lemma stop_cmds_params s s' k :
  same_params s s' -> dict_mem (envelopes s') k = dict_mem (envelopes s) k ->
  stop_cmds s' k = stop_cmds s k.
Proof.
  intros (_ & _ & _ & Hs) He. unfold stop_cmds. now rewrite Hs, He.
Qed.

Lemma same_params_with_voices s0 s o e i :
  same_params s0 s -> same_params s0 (with_voices o e i s).
Proof. intros Hp. exact Hp. Qed.
End Trace.

(** X14.  What a reconciliation issues.  Under the conditions of the
    registry invariant, and where [calculate_frequency] returns a
    frequency at the cells of the grid, [update_sounds] issues, cell by
    cell in the order of its loops, the calls that start a voice for each
    cell that was dead and is alive, the calls that stop the voice of each
    cell that was alive and is dead, and nothing for the other cells; the
    parameters are unchanged. *)
Theorem update_sounds_commands {F : Type} `{PyFloat F}
    (g : Grid) (previous_grid current_grid : ndarray) (self : SoundManager F) :
  has_shape (rows g) (cols g) previous_grid ->
  has_shape (rows g) (cols g) current_grid ->
  registry_matches self previous_grid ->
  (forall k, fst k < rows g -> snd k < cols g -> frequency_defined g self k) ->
  exists self',
    update_sounds g previous_grid current_grid self = (Ok tt, self') /\
    same_params self self' /\
    issued self'
    = issued self
      ++ flat_map (transition_cmds g self previous_grid current_grid)
           (grid_cells (rows g) (cols g)).
Proof.
  intros Hp Hc Hm Hdef. unfold update_sounds.
  set (tc := transition_cmds g self previous_grid current_grid).
  set (Inv := fun (seen : list key) (todo : key -> Prop) (s : SoundManager F) =>
    same_params self s /\
    issued s = issued self ++ flat_map tc seen /\
    forall k, todo k ->
      dict_mem (oscillators s) k = dict_mem (oscillators self) k /\
      dict_mem (envelopes s) k = dict_mem (envelopes self) k).
  match goal with |- exists x, for_ _ ?body _ = _ /\ _ =>
    destruct (for_range_inv
      (fun i => Inv (grid_cells i (cols g)) (fun k => i <= fst k))
      body (rows g) self) as [s1 [E1 (Hp1 & Hi1 & _)]]
  end.
  - split; [unfold same_params; now repeat split|].
    split; [cbn; now rewrite app_nil_r | now split].
  - intros i s Hi (Hps & His & Hks).
    match goal with |- exists x, for_ _ ?body _ = _ /\ _ =>
      destruct (for_range_inv
        (fun j => Inv (grid_cells i (cols g) ++ map (pair i) (seq 0 j))
                    (fun k => i < fst k \/ (fst k = i /\ j <= snd k)))
        body (cols g) s) as [s2 [E2 (Hp2 & Hi2 & Hk2)]]
    end.
    + split; [exact Hps|]. split; [cbn [seq map]; now rewrite app_nil_r|].
      intros k Hk. apply Hks. lia.
    + intros j s3 Hj (Hp3 & Hi3 & Hk3).
      unfold bind at 1, lift at 1.
      rewrite (getitem_cell (rows g) (cols g)) by assumption.
      unfold bind at 1, lift at 1.
      rewrite (getitem_cell (rows g) (cols g)) by assumption.
      destruct (Hk3 (i, j)) as [Hmo Hme]; [right; cbn; lia|].
      assert (Hreg : dict_mem (oscillators self) (i, j) = cell previous_grid i j).
      { apply eq_true_iff_eq. rewrite dict_mem_true, (Hm (i, j)).
        unfold alive. cbn [fst snd].
        rewrite (getitem_cell (rows g) (cols g)) by assumption.
        split; congruence. }
      assert (Hseen : forall cmds,
        tc (i, j) = cmds ->
        issued self
        ++ flat_map tc (grid_cells i (cols g) ++ map (pair i) (seq 0 j)) ++ cmds
        = issued self
          ++ flat_map tc (grid_cells i (cols g) ++ map (pair i) (seq 0 (S j)))).
      { intros cmds <-. f_equal.
        rewrite seq_S, map_app, !flat_map_app. cbn [map flat_map Nat.add].
        now rewrite app_nil_r, app_assoc. }
      assert (Htodo : forall k, i < fst k \/ (fst k = i /\ S j <= snd k) ->
                k <> (i, j) /\ (i < fst k \/ (fst k = i /\ j <= snd k))).
      { intros [k1 k2] Hk. cbn [fst snd] in Hk. split; [|cbn [fst snd]; lia].
        intros E. injection E as -> ->. lia. }
      assert (Htc : tc (i, j)
                    = if negb (cell previous_grid i j) && cell current_grid i j
                      then start_cmds g self (i, j)
                      else if cell previous_grid i j && negb (cell current_grid i j)
                           then stop_cmds self (i, j) else []) by reflexivity.
      destruct (cell previous_grid i j) eqn:Ewas;
        destruct (cell current_grid i j) eqn:Eis; cbn [negb andb] in *.
      * exists s3. split; [reflexivity|]. split; [exact Hp3|].
        split; [rewrite Hi3, <- (Hseen [] Htc); now rewrite app_nil_r|].
        intros k Hk. apply Hk3. now apply Htodo.
      * rewrite stop_sound_present by congruence. eexists. split; [reflexivity|].
        split; [exact Hp3|]. cbn [issued oscillators envelopes with_voices].
        split.
        { rewrite Hi3, <- app_assoc, (stop_cmds_params self s3 (i, j) Hp3 Hme).
          now apply Hseen. }
        intros k Hk. destruct (Htodo k Hk) as [Hne Hk'].
        destruct (Hk3 k Hk') as [Eo Ee].
        rewrite dict_mem_del_other by assumption. split; [exact Eo|].
        destruct (dict_mem (envelopes s3) (i, j));
          rewrite ?dict_mem_del_other by assumption; exact Ee.
      * rewrite play_sound_fresh.
        2:{ apply (frequency_defined_params g self s3 _ (proj1 Hp3)).
            apply Hdef; cbn [fst snd]; lia. }
        2:{ congruence. }
        eexists. split; [reflexivity|]. split; [exact Hp3|].
        cbn [issued oscillators envelopes with_voices]. split.
        { rewrite Hi3, <- app_assoc, (start_cmds_params g self s3 (i, j) Hp3).
          now apply Hseen. }
        intros k Hk. destruct (Htodo k Hk) as [Hne Hk'].
        destruct (Hk3 k Hk') as [Eo Ee].
        rewrite dict_mem_set_other by assumption. split; [exact Eo|].
        destruct (smooth_transitions s3);
          rewrite ?dict_mem_set_other by assumption; exact Ee.
      * exists s3. split; [reflexivity|]. split; [exact Hp3|].
        split; [rewrite Hi3, <- (Hseen [] Htc); now rewrite app_nil_r|].
        intros k Hk. apply Hk3. now apply Htodo.
    + exists s2. split; [exact E2|]. split; [exact Hp2|].
      split; [now rewrite grid_cells_S|].
      intros k Hk. apply Hk2. lia.
  - exists s1. split; [exact E1|]. now split.
Qed.

(** * Properties of the driver *)

Section WindowFacts.
Context {F : Type} `{PyFloat F}.
Implicit Types (w : MainWindow F) (s : SoundManager F) (g : Grid).

Lemma manager_ok_dims g g' s :
  rows g' = rows g -> cols g' = cols g -> manager_ok g s -> manager_ok g' s.
Proof.
  intros Hr Hc (Ho & He & Hsub & Hin). unfold manager_ok. rewrite Hr, Hc.
  exact (conj Ho (conj He (conj Hsub Hin))).
Qed.

Lemma frequency_defined_dims g g' s (k : key) :
  rows g' = rows g -> cols g' = cols g ->
  frequency_defined g s k -> frequency_defined g' s k.
Proof.
  intros Hr Hc [freq E]. exists freq. rewrite <- E.
  unfold calculate_frequency. now rewrite Hr, Hc.
Qed.

Lemma registry_matches_keys s s' (a : ndarray) :
  dict_keys (oscillators s') = dict_keys (oscillators s) ->
  registry_matches s a -> registry_matches s' a.
Proof. intros E Hm k. rewrite E. apply Hm. Qed.

Lemma next_generation_spec w :
  window_ok w ->
  (forall k, fst k < rows (grid_widget w) -> snd k < cols (grid_widget w) ->
     frequency_defined (grid_widget w) (sound_manager w) k) ->
  exists g' sm',
    update_grid (grid_widget w) = (Ok tt, g') /\
    rows g' = rows (grid_widget w) /\ cols g' = cols (grid_widget w) /\
    update_sounds g' (previous_grid w) (grid g') (sound_manager w) = (Ok tt, sm') /\
    frequency_range sm' = frequency_range (sound_manager w) /\
    next_generation w
    = (Ok tt, mkMainWindow g' sm' (grid g') (simulation_running w)) /\
    registry_matches sm' (grid g') /\
    window_ok (mkMainWindow g' sm' (grid g') (simulation_running w)).
Proof.
  intros (Hg & Hp & Hm & Hok) Hdef.
  destruct (update_grid_spec (grid_widget w) Hg)
    as [g' (Eg & Hr & Hc & _ & Hg' & _)].
  pose proof Hg' as Hshape. unfold Grid_ok in Hshape.
  assert (Hp' : has_shape (rows g') (cols g') (previous_grid w))
    by now rewrite Hr, Hc.
  destruct (update_sounds_registry g' (previous_grid w) (grid g')
              (sound_manager w) Hp' Hshape Hm) as [sm' (Es & Hf & Hm')].
  { intros k Hkr Hkc. apply (frequency_defined_dims (grid_widget w)); trivial.
    apply Hdef; congruence. }
  exists g', sm'. split; [exact Eg|]. split; [exact Hr|]. split; [exact Hc|].
  split; [exact Es|]. split; [exact Hf|].
  assert (Hok' : manager_ok g' sm').
  { pose proof (update_sounds_ok g' (previous_grid w) (grid g') (sound_manager w))
      as Hpres.
    rewrite Es in Hpres. apply Hpres. now apply (manager_ok_dims (grid_widget w)). }
  split.
  - unfold next_generation, bind, on_grid, on_sound, copy_grid, gets, modify, id.
    rewrite Eg.
    cbn [grid_widget sound_manager previous_grid simulation_running].
    rewrite Es. reflexivity.
  - split; [exact Hm'|].
    exact (conj Hg' (conj Hshape (conj Hm' Hok'))).
Qed.

Lemma stop_simulation_spec w :
  stop_simulation w
  = (Ok tt,
     mkMainWindow
       (mkGrid (rows (grid_widget w)) (cols (grid_widget w))
          (zeros (rows (grid_widget w)) (cols (grid_widget w)))
          (rules (grid_widget w)))
       (SoundManager_new (issued (sound_manager w) ++ [ServerStop]))
       (zeros (rows (grid_widget w)) (cols (grid_widget w)))
       false).
Proof.
  unfold stop_simulation, pause_simulation, set_running, bind, on_grid, on_sound,
    copy_grid, gets, modify, id, clear_grid, shutdown, emit, ret.
  destruct w as [g sm p run]. destruct run; reflexivity.
Qed.

Lemma window_ok_stopped (g : Grid) (log : list (command F)) (run : bool) :
  window_ok
    (mkMainWindow (mkGrid (rows g) (cols g) (zeros (rows g) (cols g)) (rules g))
       (SoundManager_new log) (zeros (rows g) (cols g)) run).
Proof.
  unfold window_ok. cbn [grid_widget sound_manager previous_grid rows cols].
  split; [apply has_shape_zeros|]. split; [apply has_shape_zeros|]. split.
  - intros k. split; [intros []|]. intros Ha. exact (not_alive_zeros _ _ k Ha).
  - unfold manager_ok. cbn. repeat split; try constructor; contradiction.
Qed.

Lemma window_ok_init : window_ok (MainWindow_init (F := F)).
Proof.
  unfold MainWindow_init.
  exact (window_ok_stopped (Grid_init 20 20)
           [] false).
Qed.

Lemma window_in_range_init : window_in_range (MainWindow_init (F := F)).
Proof.
  split; [apply window_ok_init|]. cbn. repeat split; lia.
Qed.

(** On the grid of the window and with a range the slider can give,
    [calculate_frequency] returns at every cell. *)
Lemma slider_range_defined g s (k : key) :
  floats_cover_sliders (F := F) ->
  rows g = 20 -> cols g = 20 ->
  fst (frequency_range s) = 200%Z ->
  (100 <= snd (frequency_range s) <= 2000)%Z ->
  fst k < 20 -> snd k < 20 ->
  frequency_defined g s k.
Proof.
  intros [Hconv Hdiv] Hr Hc Hf0 Hf1 Hrow Hcol. destruct k as [row col].
  cbn [fst snd] in *. apply frequency_defined_iff. rewrite Hr, Hc, Hf0.
  change (Z.of_nat 20) with 20%Z.
  split; [apply Hdiv; lia|]. split; [apply Hconv; lia|].
  split; [apply Hconv; lia | apply Hdiv; lia].
Qed.

Lemma window_in_range_defined w :
  floats_cover_sliders (F := F) -> window_in_range w ->
  forall k, fst k < rows (grid_widget w) -> snd k < cols (grid_widget w) ->
    frequency_defined (grid_widget w) (sound_manager w) k.
Proof.
  intros Hfl (_ & Hr & Hc & Hf0 & Hf1) k Hrow Hcol.
  apply slider_range_defined; trivial; lia.
Qed.

Lemma run_window_event_ok (ev : window_event) w (b : bool) :
  floats_cover_sliders (F := F) -> slider_event ev -> window_in_range w ->
  exists w',
    run_window_event ev w = (Ok tt, w') /\ window_in_range w' /\
    ((b = true -> previous_grid w = grid (grid_widget w)) ->
     in_step_after ev b = true ->
     previous_grid w' = grid (grid_widget w')).
Proof.
  intros Hfl Hev Hrange.
  pose proof (window_in_range_defined w Hfl Hrange) as Hdef.
  pose proof Hrange as (Hw & Hr20 & Hc20 & Hf0 & Hf1).
  pose proof Hw as (Hg & Hp & Hm & Hok).
  destruct ev as [ex ey | | | | | | rule | freq | value | wf | checked];
    cbn [run_window_event in_step_after slider_event] in *.
  - (* click *)
    destruct (mousePressEvent_cells (grid_widget w) 20 ex ey Hg)
      as [g' (E & Hr & Hc & _ & Hg' & _)]; [lia|].
    unfold on_grid. rewrite E. eexists. split; [reflexivity|].
    split; [|discriminate].
    unfold window_in_range, window_ok.
    cbn [grid_widget sound_manager previous_grid].
    rewrite Hr, Hc.
    split; [|now repeat split].
    split; [exact Hg'|]. split; [exact Hp|]. split; [exact Hm|].
    now apply (manager_ok_dims (grid_widget w)).
  - (* play *)
    unfold play_simulation, set_running, bind, gets, modify, ret, id.
    destruct (simulation_running w); cbn [negb];
      (eexists; split; [reflexivity|]; split; [exact Hrange|]);
      intros Hb Eb; now apply Hb.
  - (* pause *)
    unfold pause_simulation, set_running, bind, gets, modify, ret, id.
    destruct (simulation_running w);
      (eexists; split; [reflexivity|]; split; [exact Hrange|]);
      intros Hb Eb; now apply Hb.
  - (* stop *)
    rewrite stop_simulation_spec. eexists. split; [reflexivity|].
    split; [|reflexivity].
    split; [apply window_ok_stopped|].
    cbn [grid_widget sound_manager rows cols].
    split; [exact Hr20|]. split; [exact Hc20|]. cbn. split; lia.
  - (* next generation *)
    destruct (next_generation_spec w Hw Hdef)
      as [g' [sm' (_ & Hr & Hc & _ & Hf & E & _ & Hw')]].
    eexists. split; [exact E|]. split; [|reflexivity].
    split; [exact Hw'|]. cbn [grid_widget sound_manager].
    rewrite Hr, Hc, Hf. now repeat split.
  - (* timer *)
    destruct (next_generation_spec w Hw Hdef)
      as [g' [sm' (_ & Hr & Hc & _ & Hf & E & _ & Hw')]].
    eexists. split; [exact E|]. split; [|reflexivity].
    split; [exact Hw'|]. cbn [grid_widget sound_manager].
    rewrite Hr, Hc, Hf. now repeat split.
  - (* rule *)
    unfold change_rule.
    repeat match goal with
    | |- context [if ?b then _ else _] => destruct b
    end;
      (eexists; split; [reflexivity|]; split; [exact Hrange|]);
      intros Hb Eb; now apply Hb.
  - (* frequency *)
    pose proof Hok as (Ho & _ & _ & Hin).
    unfold change_frequency_range, bind, gets, on_sound, id.
    rewrite (set_frequency_range_spec (grid_widget w) 200 freq _ Ho).
    2:{ intros k Hk. destruct (Hin k Hk) as [Hkr Hkc].
        apply slider_range_defined; trivial; cbn; lia. }
    eexists. split; [reflexivity|].
    split; [|intros Hb Eb; now apply Hb].
    unfold window_in_range, window_ok.
    cbn [grid_widget sound_manager previous_grid with_voices frequency_range
         with_frequency_range fst snd].
    split; [|now repeat split].
    split; [exact Hg|]. split; [exact Hp|]. split.
    + apply (registry_matches_keys (sound_manager w)); [|exact Hm].
      cbn [oscillators with_voices]. unfold dict_keys. now rewrite map_map.
    + unfold manager_ok. cbn [oscillators envelopes with_voices].
      destruct Hok as (_ & He & Hsub & _).
      assert (Hkeys : dict_keys
                (map (fun kv : key * Osc F =>
                   (fst kv,
                    mkOsc (osc_class (snd kv))
                      (voice_freq (grid_widget w)
                         (with_frequency_range (200%Z, freq) (sound_manager w))
                         (fst kv))
                      (osc_mul (snd kv))))
                   (oscillators (sound_manager w)))
              = dict_keys (oscillators (sound_manager w))).
      { unfold dict_keys. now rewrite map_map. }
      unfold dict_ok. rewrite Hkeys.
      exact (conj Ho (conj He (conj Hsub Hin))).
  - (* amplitude *)
    destruct Hfl as [Hconv _]. destruct (Hconv value) as [v Ev]; [lia|].
    destruct Hok as (Ho & Hrest).
    unfold change_amplitude, bind, lift. rewrite Ev. unfold on_sound.
    rewrite (set_amplitude_spec (fdiv v hundred) _ Ho).
    eexists. split; [reflexivity|].
    split; [|intros Hb Eb; now apply Hb].
    unfold window_in_range, window_ok.
    cbn [grid_widget sound_manager previous_grid with_voices frequency_range].
    split; [|now repeat split].
    split; [exact Hg|]. split; [exact Hp|]. split.
    + apply (registry_matches_keys (sound_manager w)); [|exact Hm].
      cbn [oscillators with_voices]. unfold dict_keys. now rewrite map_map.
    + pose proof (set_amplitude_ok (grid_widget w) (fdiv v hundred) _
                    (conj Ho Hrest)) as Hpres.
      now rewrite (set_amplitude_spec (fdiv v hundred) _ Ho) in Hpres.
  - (* waveform *)
    pose proof Hok as (Ho & _ & _ & Hin).
    destruct (set_waveform_spec (grid_widget w) wf (sound_manager w) Ho)
      as [sm' (E & _ & _ & Hk & _)].
    { intros k Hk. destruct (Hin k Hk). now apply Hdef. }
    unfold change_waveform, bind, gets, on_sound, id. rewrite E.
    eexists. split; [reflexivity|].
    split; [|intros Hb Eb; now apply Hb].
    unfold window_in_range, window_ok.
    cbn [grid_widget sound_manager previous_grid].
    pose proof (set_waveform_range (grid_widget w) wf (sound_manager w)) as Hfr.
    rewrite E in Hfr. cbn [snd] in Hfr. rewrite Hfr.
    split; [|now repeat split].
    split; [exact Hg|]. split; [exact Hp|]. split.
    + now apply (registry_matches_keys (sound_manager w)).
    + pose proof (set_waveform_ok (grid_widget w) wf _ Hok) as Hpres.
      now rewrite E in Hpres.
  - (* transitions *)
    eexists. split; [reflexivity|]. split; [exact Hrange|].
    intros Hb Eb. now apply Hb.
Qed.

Lemma run_window_events_ok (events : list window_event) :
  floats_cover_sliders (F := F) -> Forall slider_event events ->
  forall w (b : bool),
  window_in_range w ->
  (b = true -> previous_grid w = grid (grid_widget w)) ->
  exists w',
    for_ events run_window_event w = (Ok tt, w') /\ window_in_range w' /\
    (fold_left (fun b ev => in_step_after ev b) events b = true ->
     previous_grid w' = grid (grid_widget w')).
Proof.
  intros Hfl. induction 1 as [|ev events Hev Hevs IH]; intros w b Hw Hb.
  - exists w. split; [reflexivity|]. split; [exact Hw | exact Hb].
  - destruct (run_window_event_ok ev w b Hfl Hev Hw) as [w1 (E1 & Hw1 & Hb1)].
    destruct (IH w1 (in_step_after ev b) Hw1 (Hb1 Hb)) as [w' (E' & Hw' & Hb')].
    exists w'. cbn [for_ fold_left]. unfold bind. rewrite E1.
    split; [exact E'|]. split; [exact Hw' | exact Hb'].
Qed.
End WindowFacts.

(** Binary64 converts and divides the integers of the window. *)
Lemma floats_cover_sliders_binary64 : floats_cover_sliders (F := float).
Proof.
  split.
  - intros z Hz.
    assert (Hall : forallb
              (fun n => match Z2float (Z.of_nat n - 100) with
                        | Ok _ => true
                        | Raise _ => false
                        end) (seq 0 2101) = true) by (vm_compute; reflexivity).
    rewrite forallb_forall in Hall.
    specialize (Hall (Z.to_nat (z + 100))).
    replace (Z.of_nat (Z.to_nat (z + 100)) - 100)%Z with z in Hall by lia.
    cbn [of_int PyFloat_binary64].
    destruct (Z2float z) as [x|e]; [now exists x|].
    discriminate Hall. apply in_seq. lia.
  - intros n Hn.
    assert (Hall : forallb
              (fun m => match int_truediv (Z.of_nat m) 20 with
                        | Ok _ => true
                        | Raise _ => false
                        end) (seq 0 20) = true) by (vm_compute; reflexivity).
    rewrite forallb_forall in Hall.
    specialize (Hall (Z.to_nat n)).
    replace (Z.of_nat (Z.to_nat n)) with n in Hall by lia.
    cbn [truediv PyFloat_binary64].
    destruct (int_truediv n 20) as [x|e]; [now exists x|].
    discriminate Hall. apply in_seq. lia.
Qed.

(** X12.  Changing the frequency range retunes the voices in place, one by
    one.  [set_frequency_range] stores the range first.  When
    [calculate_frequency] returns under the new range at every registered
    key, the call returns normally and gives every registered oscillator
    the frequency computed for its cell; the keys and their order, the
    oscillator classes, the multipliers, the envelopes and the other
    parameters are unchanged, and the only calls issued are one frequency
    assignment per voice: no voice is stopped or started.  When
    [calculate_frequency] raises at a registered key and returns at the
    keys before it, the call raises the same exception with the new range
    stored, the voices before that key retuned and the others as they
    were. *)
Theorem set_frequency_range_retunes {F : Type} `{PyFloat F}
    (g : Grid) (min_freq max_freq : Z) (self : SoundManager F) :
  dict_ok (oscillators self) ->
  let self1 := with_frequency_range (min_freq, max_freq) self in
  let retuned (kv : key * Osc F) :=
    (fst kv, mkOsc (osc_class (snd kv)) (voice_freq g self1 (fst kv))
               (osc_mul (snd kv))) in
  ((forall k, In k (dict_keys (oscillators self)) -> frequency_defined g self1 k) ->
   exists self',
     set_frequency_range g min_freq max_freq self = (Ok tt, self') /\
     frequency_range self' = (min_freq, max_freq) /\
     amplitude self' = amplitude self /\
     waveform self' = waveform self /\
     smooth_transitions self' = smooth_transitions self /\
     envelopes self' = envelopes self /\
     dict_keys (oscillators self') = dict_keys (oscillators self) /\
     (forall k osc, dict_get (oscillators self) k = Some osc ->
        exists freq,
          calculate_frequency g self' (fst k) (snd k) = Ok freq /\
          dict_get (oscillators self') k
          = Some (mkOsc (osc_class osc) freq (osc_mul osc))) /\
     issued self'
     = issued self
       ++ map (fun k => OscSetFreq k (voice_freq g self' k))
            (dict_keys (oscillators self))) /\
  (forall (d1 d2 : dict (Osc F)) (k : key) (osc : Osc F) (e : exn),
     oscillators self = d1 ++ (k, osc) :: d2 ->
     (forall k', In k' (dict_keys d1) -> frequency_defined g self1 k') ->
     calculate_frequency g self1 (fst k) (snd k) = Raise e ->
     exists self',
       set_frequency_range g min_freq max_freq self = (Raise e, self') /\
       frequency_range self' = (min_freq, max_freq) /\
       oscillators self' = map retuned d1 ++ (k, osc) :: d2 /\
       envelopes self' = envelopes self /\
       issued self'
       = issued self
         ++ map (fun k => OscSetFreq k (voice_freq g self1 k)) (dict_keys d1)).
Proof.
  intros Ho self1 retuned. split.
  - intros Hdef.
    rewrite (set_frequency_range_spec g min_freq max_freq self Ho Hdef).
    eexists. split; [reflexivity|].
    cbn [with_voices frequency_range amplitude waveform smooth_transitions
         envelopes oscillators issued with_frequency_range].
    repeat (split; [reflexivity|]).
    split; [unfold dict_keys; now rewrite map_map|]. split.
    + intros k osc Hget.
      pose proof (Hdef k (dict_get_In _ _ _ Hget)) as Hk.
      eexists. split.
      * destruct k as [row col]. cbn [fst snd] in *.
        apply (calculate_frequency_voice_freq g _ row col).
        destruct Hk as [freq Ef]. exists freq. exact Ef.
      * rewrite (dict_get_map_items
                   (fun k0 osc0 =>
                      mkOsc (osc_class osc0)
                        (voice_freq g
                           (with_frequency_range (min_freq, max_freq) self) k0)
                        (osc_mul osc0))).
        rewrite Hget. reflexivity.
    + f_equal. unfold dict_keys. rewrite map_map. reflexivity.
  - intros d1 d2 k osc e Hsplit Hdef He.
    rewrite (set_frequency_range_raises g min_freq max_freq self d1 d2 k osc e
               Ho Hsplit Hdef He).
    eexists. split; [reflexivity|].
    cbn [with_voices frequency_range envelopes oscillators issued
         with_frequency_range].
    repeat (split; [reflexivity|]).
    f_equal. unfold dict_keys. rewrite map_map. reflexivity.
Qed.

Lemma set_frequency_range_retunes_witness :
  (exists self',
     set_frequency_range (Grid_init 2 2) 200 400 two_voices = (Ok tt, self') /\
     dict_keys (oscillators self') = [(0, 0); (1, 1)] /\
     option_map osc_freq (dict_get (oscillators self') (1, 1))
     = Some (2800 # 8)%Q) /\
  (exists self',
     set_frequency_range (Grid_init 2 2) 200 (10 ^ 309) two_voices_binary64
     = (Raise OverflowError, self') /\
     frequency_range self' = (200, 10 ^ 309)%Z /\
     oscillators self' = oscillators two_voices_binary64).
Proof.
  split.
  - destruct (set_frequency_range_retunes (Grid_init 2 2) 200 400 two_voices)
      as [Hall _].
    + repeat constructor; cbn; intuition discriminate.
    + destruct Hall as [self' (E & _ & _ & _ & _ & _ & Hk & _)].
      * intros k [<-|[<-|[]]]; eexists; reflexivity.
      * exists self'. split; [exact E|]. split; [exact Hk|].
        vm_compute in E. injection E as <-. reflexivity.
  - destruct (set_frequency_range_retunes (Grid_init 2 2) 200 (10 ^ 309)
                two_voices_binary64) as [_ Hfail].
    + repeat constructor; cbn; intuition discriminate.
    + destruct (Hfail [] (tl (oscillators two_voices_binary64)) (0, 0)
                  (mkOsc Sine 200%float
                     (MulEnv (mkFader 0.5%float 0.5%float 0%float 0.5%float)))
                  OverflowError)
        as [self' (E & Hf & Ho & _)].
      * reflexivity.
      * intros k' [].
      * vm_compute. reflexivity.
      * exists self'. split; [exact E|]. split; [exact Hf | exact Ho].
Defined.

(** X13.  Changing the amplitude sets it on every voice directly.
    [set_amplitude] returns normally, stores the amplitude and makes it the
    multiplier of every registered oscillator, also of one that was
    multiplied by its envelope; the envelope stays in [envelopes].  Keys,
    classes, frequencies and the other parameters are unchanged, and the
    only calls issued are one [setMul] per voice. *)
Theorem set_amplitude_sets_every_voice {F : Type} `{PyFloat F}
    (new_amplitude : F) (self : SoundManager F) :
  dict_ok (oscillators self) ->
  exists self',
    set_amplitude new_amplitude self = (Ok tt, self') /\
    amplitude self' = new_amplitude /\
    frequency_range self' = frequency_range self /\
    waveform self' = waveform self /\
    smooth_transitions self' = smooth_transitions self /\
    envelopes self' = envelopes self /\
    dict_keys (oscillators self') = dict_keys (oscillators self) /\
    (forall k osc, dict_get (oscillators self) k = Some osc ->
       dict_get (oscillators self') k
       = Some (mkOsc (osc_class osc) (osc_freq osc) (MulNum new_amplitude))) /\
    issued self'
    = issued self
      ++ map (fun k => OscSetMul k new_amplitude) (dict_keys (oscillators self)).
Proof.
  intros Ho. rewrite (set_amplitude_spec new_amplitude self Ho).
  eexists. split; [reflexivity|].
  cbn [with_voices frequency_range amplitude waveform smooth_transitions
       envelopes oscillators issued].
  repeat (split; [reflexivity|]).
  split; [unfold dict_keys; now rewrite map_map|]. split.
  - intros k osc Hget.
    rewrite (dict_get_map_items
               (fun _ osc0 => mkOsc (osc_class osc0) (osc_freq osc0)
                                (MulNum new_amplitude))).
    rewrite Hget. reflexivity.
  - f_equal. unfold dict_keys. rewrite map_map. reflexivity.
Qed.

Lemma set_amplitude_sets_every_voice_witness :
  exists self',
    set_amplitude (1 # 4)%Q two_voices = (Ok tt, self') /\
    dict_keys (envelopes self') = [(0, 0); (1, 1)] /\
    option_map osc_mul (dict_get (oscillators self') (1, 1))
    = Some (MulNum (1 # 4)%Q).
Proof.
  destruct (set_amplitude_sets_every_voice (1 # 4)%Q two_voices)
    as [self' (E & _ & _ & _ & _ & He & _ & Hv & _)].
  - unfold dict_ok. vm_compute. repeat constructor; cbn; intuition congruence.
  - exists self'. split; [exact E|]. split; [now rewrite He|].
    rewrite (Hv (1, 1)
               (mkOsc Sine (6400 # 8)%Q
                  (MulEnv (mkFader (1 # 2)%Q (1 # 2)%Q 0%Q (1 # 2)%Q))));
      reflexivity.
Defined.

Lemma update_sounds_commands_witness :
  exists self' : SoundManager Q,
    update_sounds (Grid_init 2 2) (zeros 2 2) diagonal_2x2 SoundManager_init
    = (Ok tt, self') /\
    map (fun c => match c with OscOut k _ _ => Some k | _ => None end)
      (issued self')
    = [None; None; None; Some (0, 0); None; Some (1, 1); None] /\
    filter is_stop (issued self') = [].
Proof.
  destruct (update_sounds_commands (Grid_init 2 2) (zeros 2 2) diagonal_2x2
              (SoundManager_init (F := Q))) as [self' (E & _ & Hi)].
  - split; [reflexivity | repeat constructor].
  - split; [reflexivity | repeat constructor].
  - intros k. split; [intros [] | intros Ha]. exact (not_alive_zeros 2 2 k Ha).
  - intros [[|[|row]] [|[|col]]] Hr Hc; cbn in Hr, Hc; try lia;
      (eexists; reflexivity).
  - exists self'. split; [exact E|]. rewrite Hi. split; reflexivity.
Defined.

(** X15.  One generation of the driver.  When the window is in order and
    [calculate_frequency] returns a frequency at the cells of the grid,
    [next_generation] returns normally: the grid is the result of
    [update_grid], [previous_grid] is a copy of it, the keys of the
    registry are the live cells of the new grid, and the window is in
    order again. *)
Theorem next_generation_tracks_grid {F : Type} `{PyFloat F} (w : MainWindow F) :
  window_ok w ->
  (forall k, fst k < rows (grid_widget w) -> snd k < cols (grid_widget w) ->
     frequency_defined (grid_widget w) (sound_manager w) k) ->
  exists w',
    next_generation w = (Ok tt, w') /\
    update_grid (grid_widget w) = (Ok tt, grid_widget w') /\
    previous_grid w' = grid (grid_widget w') /\
    registry_matches (sound_manager w') (grid (grid_widget w')) /\
    simulation_running w' = simulation_running w /\
    window_ok w'.
Proof.
  intros Hw Hdef.
  destruct (next_generation_spec w Hw Hdef)
    as [g' [sm' (Eg & _ & _ & _ & _ & E & Hm & Hw')]].
  eexists. split; [exact E|].
  cbn [grid_widget sound_manager previous_grid simulation_running].
  split; [exact Eg|]. split; [reflexivity|]. split; [exact Hm|].
  split; [reflexivity | exact Hw'].
Qed.

Lemma next_generation_tracks_grid_witness :
  cell (grid (grid_widget three_clicks)) 0 1 = true /\
  dict_keys (oscillators (sound_manager three_clicks)) = [] /\
  exists w',
    next_generation three_clicks = (Ok tt, w') /\
    cell (grid (grid_widget w')) 0 1 = false /\
    dict_keys (oscillators (sound_manager w')) = [(1, 0); (1, 1); (1, 2)].
Proof.
  split; [reflexivity|]. split; [reflexivity|].
  assert (Hrange : window_in_range three_clicks).
  { destruct (run_window_events_ok
                [EvClick 30 10; EvClick 30 30; EvClick 30 50]
                floats_cover_sliders_binary64
                ltac:(repeat constructor)
                MainWindow_init true window_in_range_init
                (fun _ => eq_refl)) as [w1 (E1 & Hw1 & _)].
    unfold three_clicks. now rewrite E1. }
  destruct (next_generation_tracks_grid three_clicks)
    as [w' (E & _ & _ & Hm & _)].
  - apply Hrange.
  - now apply (window_in_range_defined three_clicks floats_cover_sliders_binary64).
  - exists w'. split; [exact E|].
    vm_compute in E. injection E as <-. split; reflexivity.
Defined.

(** X16.  The driver never raises.  Starting from a new window, in
    binary64, every sequence of clicks on the grid, generations stepped by
    hand or by the timer, play, pause and stop, and changes of rule,
    frequency range, amplitude, waveform and transitions, with the values
    the sliders can give, runs to its end without an exception and leaves
    the window in order: the registry holds exactly the live cells of
    [previous_grid], the grid as it was after the last generation or stop.
    It holds the live cells of the grid on display when no click came
    after the last generation or stop; a click changes the grid and starts
    or stops no voice. *)
Theorem window_events_never_raise (events : list window_event) :
  Forall slider_event events ->
  exists w' : MainWindow float,
    for_ events run_window_event MainWindow_init = (Ok tt, w') /\
    window_ok w' /\
    registry_matches (sound_manager w') (previous_grid w') /\
    (in_step events = true ->
     registry_matches (sound_manager w') (grid (grid_widget w'))).
Proof.
  intros Hev.
  destruct (run_window_events_ok events floats_cover_sliders_binary64 Hev
              MainWindow_init true window_in_range_init (fun _ => eq_refl))
    as [w' (E & Hw & Hstep)].
  exists w'. split; [exact E|]. destruct Hw as [Hw _].
  split; [exact Hw|]. pose proof Hw as (_ & _ & Hm & _).
  split; [exact Hm|]. intros Hin. rewrite <- (Hstep Hin). exact Hm.
Qed.

Lemma window_events_never_raise_witness :
  exists w' : MainWindow float,
    for_ [EvClick 30 10; EvClick 30 30; EvClick 30 50; EvNextGeneration;
          EvFrequency 2000; EvWaveform "Square"; EvAmplitude 100; EvTimer;
          EvClick 5 5]
      run_window_event MainWindow_init = (Ok tt, w') /\
    dict_keys (oscillators (sound_manager w')) = [(1, 1); (0, 1); (2, 1)] /\
    cell (grid (grid_widget w')) 0 0 = true.
Proof.
  destruct (window_events_never_raise
              [EvClick 30 10; EvClick 30 30; EvClick 30 50; EvNextGeneration;
               EvFrequency 2000; EvWaveform "Square"; EvAmplitude 100; EvTimer;
               EvClick 5 5]) as [w' (E & _)].
  - repeat constructor; cbn; lia.
  - exists w'. split; [exact E|].
    vm_compute in E. injection E as <-. split; reflexivity.
Defined.

(** X17.  Stop resets the session.  In every state [stop_simulation]
    returns normally: the simulation is not running, the grid is all dead
    with its dimensions and rules, [previous_grid] is a copy of it, and the
    sound manager is a new one with an empty registry and the default
    range, amplitude, waveform and transitions, whatever had been set.  On
    pyo it stops the old server and boots a new one; no voice is stopped
    one by one. *)
Theorem stop_simulation_resets {F : Type} `{PyFloat F} (w : MainWindow F) :
  exists w',
    stop_simulation w = (Ok tt, w') /\
    simulation_running w' = false /\
    rows (grid_widget w') = rows (grid_widget w) /\
    cols (grid_widget w') = cols (grid_widget w) /\
    rules (grid_widget w') = rules (grid_widget w) /\
    grid (grid_widget w') = zeros (rows (grid_widget w)) (cols (grid_widget w)) /\
    previous_grid w' = grid (grid_widget w') /\
    oscillators (sound_manager w') = [] /\
    envelopes (sound_manager w') = [] /\
    frequency_range (sound_manager w') = (200%Z, 1000%Z) /\
    amplitude (sound_manager w') = half /\
    waveform (sound_manager w') = "Sine"%string /\
    smooth_transitions (sound_manager w') = true /\
    issued (sound_manager w')
    = issued (sound_manager w)
      ++ [ServerStop; ServerBoot; ServerStart; ServerSetMidi] /\
    window_ok w'.
Proof.
  rewrite stop_simulation_spec. eexists. split; [reflexivity|].
  cbn [grid_widget sound_manager previous_grid simulation_running rows cols
       rules grid].
  repeat (split; [reflexivity|]).
  split; [unfold SoundManager_new; cbn; now rewrite <- app_assoc|].
  apply window_ok_stopped.
Qed.
